(** * Symbolic Cholesky fill-in counting (apps/NDReorder/count_nnz_fillin.h)

    A shallow embedding of the two [count_nnz_fillin] overloads:

    - the symbolic route, taking an [rxmesh::SparseMatrix] in compressed-row
      form and walking the elimination tree row by row;
    - the permutation-taking route, which permutes an Eigen matrix, hands it
      to Eigen's [SimplicialLLT] and reads the number of nonzeros of the
      factor.

    C++ [int] values are modelled as [Z]: the definitions of the symbolic
    route compute on the integers.  They describe the calls in which no
    [int] overflows, which are the calls on the matrices whose count fits
    [int] ([count_fits_int]; 46340 rows or less are enough for that), and
    the statements about the value returned carry that condition.  [Int32]
    has the same lines with the arithmetic of a 32-bit [int] that wraps
    around, and [count_nnz_fillin_run_to_int] relates the two calls on
    every matrix.  Array accesses are checked:
    an access outside an array is reported as an [OutOfBounds] error rather
    than given a meaning.  The loop that follows the parent pointers runs on
    fuel; [walk_total] shows that the dimension is enough fuel and
    [count_nnz_fillin_fuel_enough] that more changes nothing.

    The Eigen library is not part of the sources.  The permutation-taking
    route is written for any behaviour of the library ([EigenLibrary]);
    where a property depends on what the library computes, it is stated for
    the model [eigen] of the library. *)

From stdpp Require Import base decidable option list list_numbers sets gmap.
From stdpp Require Import strings pretty.
From Stdlib Require Import ZArith Lia Ascii.

Open Scope Z_scope.

(** ** Results of fallible code *)

Inductive array_name :=
  | AParent | ATags | ANonZerosPerCol | ARowPtr | AColIdx | APermute.

Inductive error :=
  | OutOfBounds (a : array_name) (i : Z)
  | LengthError          (* [std::vector<int> v(size)] with a negative size *)
  | AssertFailed         (* [assert(h_permute.size() == eigen_mat.rows())] *)
  | OutOfFuel.           (* a loop ran longer than the fuel it was given *)

Inductive result (A : Type) :=
  | Ok (a : A)
  | Err (e : error).
Arguments Ok {A} a.
Arguments Err {A} e.

#[global] Instance result_ret : MRet result := @Ok.
#[global] Instance result_bind : MBind result := λ A B f m,
  match m with Ok a => f a | Err e => Err e end.

(** [for (x : l) body], threading the state and stopping at the first error. *)
Fixpoint forM {A S : Type} (body : S → A → result S) (s : S) (l : list A)
  : result S :=
  match l with
  | [] => Ok s
  | x :: l' => s' ← body s x; forM body s' l'
  end.

(** ** Arrays indexed by [int] *)

Definition load (a : array_name) (l : list Z) (i : Z) : result Z :=
  if decide (0 ≤ i) then
    match l !! Z.to_nat i with
    | Some v => Ok v
    | None => Err (OutOfBounds a i)
    end
  else Err (OutOfBounds a i).

Definition store (a : array_name) (l : list Z) (i v : Z) : result (list Z) :=
  if decide (0 ≤ i < Z.of_nat (length l)) then Ok (<[Z.to_nat i := v]> l)
  else Err (OutOfBounds a i).

(** ** Data model *)

(** The part of [rxmesh::SparseMatrix] the routine uses: [rows()],
    [row_ptr()] and [col_idx()].  The class itself is declared in
    rxmesh/matrix/sparse_matrix.h. *)
Record SparseMatrix := {
  rows : Z;
  row_ptr : list Z;
  col_idx : list Z
}.

(** The local variables of the symbolic route.  [parent_writes] and
    [walk_marks] are history variables: they record, in program order, every
    store into [parent] as (index, value) and every store [tags[c] = r] done
    inside the path walk as (row, node).  No code reads them. *)
Record work := {
  parent : list Z;
  nonZerosPerCol : list Z;
  tags : list Z;
  nnz : Z;
  parent_writes : list (Z * Z);
  walk_marks : list (Z * Z)
}.

(** The memory a call of the symbolic route can reach: its argument, taken by
    reference, and its locals. *)
Record state := {
  mat : SparseMatrix;
  locals : work
}.

Definition store_parent (c v : Z) (w : work) : result work :=
  p ← store AParent (parent w) c v;
  Ok {| parent := p; nonZerosPerCol := nonZerosPerCol w; tags := tags w;
        nnz := nnz w; parent_writes := parent_writes w ++ [(c, v)];
        walk_marks := walk_marks w |}.

Definition store_nonZerosPerCol (c v : Z) (w : work) : result work :=
  a ← store ANonZerosPerCol (nonZerosPerCol w) c v;
  Ok {| parent := parent w; nonZerosPerCol := a; tags := tags w;
        nnz := nnz w; parent_writes := parent_writes w;
        walk_marks := walk_marks w |}.

Definition store_tags (c v : Z) (w : work) : result work :=
  t ← store ATags (tags w) c v;
  Ok {| parent := parent w; nonZerosPerCol := nonZerosPerCol w; tags := t;
        nnz := nnz w; parent_writes := parent_writes w;
        walk_marks := walk_marks w |}.

Definition incr_nnz (w : work) : work :=
  {| parent := parent w; nonZerosPerCol := nonZerosPerCol w; tags := tags w;
     nnz := nnz w + 1; parent_writes := parent_writes w;
     walk_marks := walk_marks w |}.

Definition note_mark (r c : Z) (w : work) : work :=
  {| parent := parent w; nonZerosPerCol := nonZerosPerCol w; tags := tags w;
     nnz := nnz w; parent_writes := parent_writes w;
     walk_marks := walk_marks w ++ [(r, c)] |}.

(** ** The symbolic route *)

(** Lines 144-149 followed by the increment [c = parent[c]]: one iteration
    of the path walk.  Returns the next node together with the locals. *)
Definition walk_body (r c : Z) (w : work) : result (Z * work) :=
  p ← load AParent (parent w) c;
  w ← (if decide (p = -1) then store_parent c r w else Ok w);
  k ← load ANonZerosPerCol (nonZerosPerCol w) c;
  w ← store_nonZerosPerCol c (k + 1) w;
  w ← store_tags c r (note_mark r c (incr_nnz w));
  c' ← load AParent (parent w) c;
  Ok (c', w).

(** Lines 143-150: [for (; tags[c] != r; c = parent[c]) { ... }]. *)
Fixpoint walk (fuel : nat) (r c : Z) (w : work) : result work :=
  t ← load ATags (tags w) c;
  if decide (t = r) then Ok w
  else
    match fuel with
    | O => Err OutOfFuel
    | S fuel' => cw ← walk_body r c w; walk fuel' r cw.1 cw.2
    end.

(** Lines 141-151, the part of the row scan that only touches the locals:
    the entries [c < r] start a walk, the others are skipped. *)
Definition visit (fuel : nat) (r : Z) (w : work) (c : Z) : result work :=
  if decide (c < r) then walk fuel r c w else Ok w.

(** Lines 138-152: the body of [for (int i = start; i < end; ++i)]. *)
Definition scan_entry (fuel : nat) (r : Z) (s : state) (i : Z) : result state :=
  c ← load AColIdx (col_idx (mat s)) i;
  w ← visit fuel r (locals s) c;
  Ok {| mat := mat s; locals := w |}.

(** Lines 131-133. *)
Definition init_row (r : Z) (w : work) : result work :=
  w ← store_parent r (-1) w;
  w ← store_tags r r w;
  store_nonZerosPerCol r 0 w.

(** Lines 129-153: the body of [for (int r = 0; r < size; ++r)]. *)
Definition process_row (fuel : nat) (s : state) (r : Z) : result state :=
  w ← init_row r (locals s);
  start ← load ARowPtr (row_ptr (mat s)) r;
  end_ ← load ARowPtr (row_ptr (mat s)) (r + 1);
  forM (scan_entry fuel r) {| mat := mat s; locals := w |}
       (seqZ start (end_ - start)).

(** Lines 124-127: the three vectors are value-initialised. *)
Definition fresh_work (size : Z) : work :=
  {| parent := replicate (Z.to_nat size) 0;
     nonZerosPerCol := replicate (Z.to_nat size) 0;
     tags := replicate (Z.to_nat size) 0;
     nnz := 0; parent_writes := []; walk_marks := [] |}.

(** The whole call, as a transformer of the reachable memory.  Every walk
    gets [fuel] iterations. *)
Definition count_nnz_fillin_run (fuel : nat) (m : SparseMatrix)
  : result (Z * state) :=
  let size := rows m in
  if decide (size < 0) then Err LengthError
  else
    s ← forM (process_row fuel) {| mat := m; locals := fresh_work size |}
             (seqZ 0 size);
    Ok (2 * nnz (locals s) + rows (mat s), s).

Definition count_nnz_fillin_fuel (fuel : nat) (m : SparseMatrix) : result Z :=
  p ← count_nnz_fillin_run fuel m; Ok p.1.

(** A walk started in row [r] climbs through nodes below [r], so [rows m]
    iterations are enough (see [walk_total]). *)
Definition count_nnz_fillin (m : SparseMatrix) : result Z :=
  count_nnz_fillin_fuel (Z.to_nat (rows m)) m.


(** ** Specification vocabulary *)

(** Total read and write, meaningful for an index inside the array. *)
Definition rd (l : list Z) (i : Z) : Z := l !!! Z.to_nat i.
Definition upd (l : list Z) (i v : Z) : list Z := <[Z.to_nat i := v]> l.
Definition inb (l : list Z) (i : Z) : Prop := 0 ≤ i < Z.of_nat (length l).

(** The compressed-row invariants: [row_ptr] has [rows + 1] entries, is
    non-decreasing, delimits positions of [col_idx], and every column index
    lies in [0, rows). *)
Definition valid_csr (m : SparseMatrix) : Prop :=
  0 ≤ rows m ∧
  Z.of_nat (length (row_ptr m)) = rows m + 1 ∧
  0 ≤ rd (row_ptr m) 0 ∧
  Forall (λ r, rd (row_ptr m) r ≤ rd (row_ptr m) (r + 1)) (seqZ 0 (rows m)) ∧
  rd (row_ptr m) (rows m) ≤ Z.of_nat (length (col_idx m)) ∧
  Forall (λ c, 0 ≤ c < rows m) (col_idx m).

(** The part of the invariants that bounds what the walks can meet:
    [row_ptr] has [rows + 1] entries and is non-decreasing, and every column
    index lies in [0, rows). *)
Definition listed_csr (m : SparseMatrix) : Prop :=
  0 ≤ rows m ∧
  Z.of_nat (length (row_ptr m)) = rows m + 1 ∧
  Forall (λ r, rd (row_ptr m) r ≤ rd (row_ptr m) (r + 1)) (seqZ 0 (rows m)) ∧
  Forall (λ c, 0 ≤ c < rows m) (col_idx m).

(** [x] is a value that satisfies [P], or the report of a read outside
    [col_idx]; it is no other error. *)
Definition unless_col_idx_fault {A} (P : A → Prop) (x : result A) : Prop :=
  match x with
  | Ok a => P a
  | Err (OutOfBounds AColIdx _) => True
  | Err _ => False
  end.

(** The three work arrays have [n] entries. *)
Record sized (n : Z) (w : work) : Prop := {
  len_parent : Z.of_nat (length (parent w)) = n;
  len_nonZerosPerCol : Z.of_nat (length (nonZerosPerCol w)) = n;
  len_tags : Z.of_nat (length (tags w)) = n
}.

(** The locals between two iterations of the outer loop, rows [0..r-1] done:
    below [r] every parent pointer is unknown or a later row below [r], and
    no node carries the tag [r] yet. *)
Record between_rows (n r : Z) (w : work) : Prop := {
  br_sized : sized n w;
  br_range : 0 ≤ r ≤ n;
  br_parent : ∀ v, 0 ≤ v < r → rd (parent w) v = -1 ∨ v < rd (parent w) v < r;
  br_tags : ∀ v, 0 ≤ v < r → rd (tags w) v < r
}.

(** The locals while row [r] is scanned. *)
Record in_row (n r : Z) (w : work) : Prop := {
  ir_sized : sized n w;
  ir_range : 0 ≤ r < n;
  ir_parent : ∀ v, 0 ≤ v < r → rd (parent w) v = -1 ∨ v < rd (parent w) v ≤ r;
  ir_tags : ∀ v, 0 ≤ v < r → rd (tags w) v ≤ r;
  ir_self_tag : rd (tags w) r = r;
  ir_self_parent : rd (parent w) r = -1
}.

(** The locals after one iteration of the walk at node [c] in row [r]. *)
Definition stepped (r c : Z) (w : work) : work :=
  let fresh := bool_decide (rd (parent w) c = -1) in
  {| parent := if fresh then upd (parent w) c r else parent w;
     nonZerosPerCol := upd (nonZerosPerCol w) c (rd (nonZerosPerCol w) c + 1);
     tags := upd (tags w) c r;
     nnz := nnz w + 1;
     parent_writes := parent_writes w ++ (if fresh then [(c, r)] else []);
     walk_marks := walk_marks w ++ [(r, c)] |}.

(** The locals after lines 131-133 for row [r]. *)
Definition initialised (r : Z) (w : work) : work :=
  {| parent := upd (parent w) r (-1);
     nonZerosPerCol := upd (nonZerosPerCol w) r 0;
     tags := upd (tags w) r r;
     nnz := nnz w;
     parent_writes := parent_writes w ++ [(r, -1)];
     walk_marks := walk_marks w |}.

(** ** The row scan over a list of columns *)

(** The column indices stored for row [r], in storage order. *)
Definition row_cols (m : SparseMatrix) (r : Z) : list Z :=
  (λ i, rd (col_idx m) i) <$>
    seqZ (rd (row_ptr m) r) (rd (row_ptr m) (r + 1) - rd (row_ptr m) r).

(** Lines 131-152 once the columns of the row have been fetched. *)
Definition process_cols (fuel : nat) (r : Z) (w : work) (cs : list Z)
  : result work :=
  w ← init_row r w; forM (visit fuel r) w cs.

(** Lines 124-153 for a pattern given row by row. *)
Definition analyse (fuel : nat) (n : Z) (pat : Z → list Z) : result work :=
  forM (λ w r, process_cols fuel r w (pat r)) (fresh_work n) (seqZ 0 n).

(** The values stored into [parent[v]], in program order. *)
Definition writes_at (v : Z) (w : work) : list Z :=
  (filter (λ p, p.1 = v) (parent_writes w)).*2.

(** The rows whose walk marked node [v], in program order. *)
Definition marks_at (v : Z) (w : work) : list Z :=
  (filter (λ p, p.2 = v) (walk_marks w)).*1.

(** What the history says about node [x] once its row has started: either
    [parent[x]] is still unknown, was stored once (the -1 of the prologue)
    and no walk has marked [x]; or it holds a row [p], was stored twice
    (-1, then [p]) and [p] is the first row whose walk marked [x]. *)
Definition node_history (x : Z) (w : work) : Prop :=
  let p := rd (parent w) x in
  (p = -1 ∧ writes_at x w = [-1] ∧ marks_at x w = []) ∨
  (p ≠ -1 ∧ writes_at x w = [-1; p] ∧ ∃ rest, marks_at x w = p :: rest).

#[global] Instance valid_csr_dec m : Decision (valid_csr m).
Proof. unfold valid_csr. apply _. Defined.
#[global] Instance listed_csr_dec m : Decision (listed_csr m).
Proof. unfold listed_csr. apply _. Defined.

(** ** The permutation-taking route *)

(** The structure of an Eigen sparse matrix as the routine uses it: its
    dimension and the stored (row, column) positions in iteration order.
    The numeric values are left out; what depends on them, the status of the
    numeric factorization, is a parameter of the model. *)
Record EigenMat := {
  e_rows : Z;
  e_entries : list (Z * Z)
}.

(** [Eigen::ComputationInfo]. *)
Inductive ComputationInfo :=
  | Success | NumericalIssue | NoConvergence | InvalidInput.

#[global] Instance ComputationInfo_eq_dec : EqDecision ComputationInfo.
Proof. solve_decision. Defined.

(** What the route does besides computing: the message given to
    [RXMESH_ERROR] (line 93) and the read of the factor (line 100). *)
Inductive event :=
  | Diagnostic (code : ComputationInfo)
  | ReadFactor.

#[global] Instance event_eq_dec : EqDecision event.
Proof. solve_decision. Defined.

(** The two arguments of the route, both taken by reference. *)
Record args := {
  eigen_mat : EigenMat;
  h_permute : list Z
}.

(** Lines 65-69: the permutation matrix gets the entries of [h_permute]. *)
Definition copy_indices (h : list Z) (n : Z) : result (list Z) :=
  forM (λ perm i, v ← load APermute h i; Ok (perm ++ [v])) [] (seqZ 0 n).

Definition sumZ (l : list Z) : Z := foldr Z.add 0 l.

(** Modelled from the spec: [Eigen::internal::permute_symm_to_fullsymm] for
    the lower triangle, the Permutation Applier of the spec (section 4.1),
    is library code that is not under src/.  For every stored entry of the
    lower triangle it applies the permutation to the row and to the column
    index, [perm[i]] being the new index of [i], and it rebuilds both
    triangles: a diagonal entry is stored once, an entry below the diagonal
    is stored together with its mirror image, an entry above the diagonal is
    dropped. *)
Definition permute_entry (perm : list Z) (acc : list (Z * Z)) (e : Z * Z)
  : result (list (Z * Z)) :=
  ip ← load APermute perm e.1;
  jp ← load APermute perm e.2;
  if decide (e.1 = e.2) then Ok (acc ++ [(ip, ip)])
  else if decide (e.2 < e.1) then Ok (acc ++ [(ip, jp); (jp, ip)])
  else Ok acc.

Definition permute_symm_to_fullsymm (m : EigenMat) (perm : list Z)
  : result EigenMat :=
  es ← forM (permute_entry perm) [] (e_entries m);
  Ok {| e_rows := e_rows m; e_entries := es |}.

(** Modelled from the spec: the backend reads the lower triangle of the
    matrix it is given (the template argument [Eigen::Lower] of line 84);
    these are the columns stored in row [k] of that triangle, the diagonal
    included, in storage order. *)
Definition lower_row (m : EigenMat) (k : Z) : list Z :=
  (filter (λ e, e.1 = k ∧ e.2 ≤ e.1) (e_entries m)).*2.

(** Modelled from the spec: the Factorization Backend of the spec (section
    6), [Eigen::SimplicialLLT] with the lower triangle and the natural
    ordering, is library code that is not under src/.  Its symbolic analysis
    is the elimination-tree pass the symbolic route was taken from (source
    lines 114-118), run on the lower triangle of the matrix it is given; the
    factor [L] it allots then has, in column [k], the [nonZerosPerCol[k]]
    entries below the diagonal (source lines 133 and 147) and the diagonal
    entry (source lines 106-111). *)
Definition analyzePattern (m : EigenMat) : result Z :=
  w ← analyse (Z.to_nat (e_rows m)) (e_rows m) (lower_row m);
  Ok (sumZ ((λ k, k + 1) <$> nonZerosPerCol w)).

(** The state of the solver the route looks at: [solver.info()] and
    [solver.matrixL().nestedExpression().nonZeros()]. *)
Record SimplicialLLT := {
  info : ComputationInfo;
  nonZeros : Z
}.

(** What the route asks of the Eigen library, which is not under src/:
    [permute_symm_to_fullsymm] (line 73), the number of nonzeros
    [analyzePattern] allots to the factor (lines 88 and 100), and the status
    [compute] ends with (lines 89 and 92). *)
Record EigenLibrary := {
  lib_permute : EigenMat → list Z → result EigenMat;
  lib_analyzePattern : EigenMat → result Z;
  lib_compute : EigenMat → ComputationInfo
}.

(** Lines 52-112, for any behaviour of the library.  The call returns its
    value, the arguments as they are afterwards, and the events in program
    order. *)
Definition count_nnz_fillin_perm (lib : EigenLibrary) (a : args)
  : result (Z * args * list event) :=
  if decide (Z.of_nat (length (h_permute a)) = e_rows (eigen_mat a)) then
    perm ← copy_indices (h_permute a) (e_rows (eigen_mat a));
    permuted_mat ← lib_permute lib (eigen_mat a) perm;
    l_nnz ← lib_analyzePattern lib permuted_mat;
    let solver := {| info := lib_compute lib permuted_mat;
                     nonZeros := l_nnz |} in
    if decide (info solver ≠ Success)
    then Ok (-1, a, [Diagnostic (info solver)])
    else Ok (nonZeros solver, a, [ReadFactor])
  else Err AssertFailed.

(** The library as modelled above; [numeric] gives the status the numeric
    factorization ends with, which depends on the values of the matrix. *)
Definition eigen (numeric : EigenMat → ComputationInfo) : EigenLibrary :=
  {| lib_permute := permute_symm_to_fullsymm;
     lib_analyzePattern := analyzePattern;
     lib_compute := numeric |}.

(** ** Vocabulary for the independence from the storage order *)

(** What the code computes with, the history variables left out. *)
Definition core (w : work) : list Z * list Z * list Z * Z :=
  (parent w, nonZerosPerCol w, tags w, nnz w).

(** Node [v] has been marked by a walk of row [r]. *)
Definition marked (r : Z) (w : work) (v : Z) : Prop :=
  v < r ∧ rd (tags w) v = r.

#[global] Instance marked_dec r w v : Decision (marked r w v).
Proof. unfold marked. apply _. Defined.

(** [reach p0 c v]: [v] is on the path that starts at [c] and follows the
    parent pointers [p0] as long as they are known. *)
Inductive reach (p0 : list Z) (c : Z) : Z → Prop :=
  | reach_start : reach p0 c c
  | reach_next u : reach p0 c u → rd p0 u ≠ -1 → reach p0 c (rd p0 u).

(** [v] is on the path of one of the columns of [cs] left of the diagonal. *)
Definition reached (p0 : list Z) (r : Z) (cs : list Z) (v : Z) : Prop :=
  ∃ c, c ∈ cs ∧ 0 ≤ c < r ∧ reach p0 c v.

(** The locals [w] during the scan of row [r] that started from [w0]: a
    marked node carries the tag [r], has gained one entry in its column
    count, and has [r] as parent if it had none; everything else is as in
    [w0]. *)
Record row_progress (n r : Z) (w0 w : work) : Prop := {
  rp_tags : ∀ v, 0 ≤ v < n →
    marked r w v ∨ rd (tags w) v = rd (tags w0) v;
  rp_parent : ∀ v, 0 ≤ v < n →
    rd (parent w) v =
      if decide (marked r w v ∧ rd (parent w0) v = -1) then r
      else rd (parent w0) v;
  rp_nonZerosPerCol : ∀ v, 0 ≤ v < n →
    rd (nonZerosPerCol w) v =
      rd (nonZerosPerCol w0) v + (if decide (marked r w v) then 1 else 0);
  rp_nnz :
    nnz w - sumZ (nonZerosPerCol w) = nnz w0 - sumZ (nonZerosPerCol w0)
}.

(** The marked nodes are closed under the parent pointers of [w0]. *)
Definition closed_upward (r : Z) (w0 w : work) : Prop :=
  ∀ v, 0 ≤ v < r → rd (tags w) v = r → rd (parent w0) v ≠ -1 →
       rd (tags w) (rd (parent w0) v) = r.

(** ** Patterns and permutations *)

(** The entries the Permutation Applier produces for one stored entry. *)
Definition mirror (perm : list Z) (e : Z * Z) : list (Z * Z) :=
  if decide (e.1 = e.2) then [(rd perm e.1, rd perm e.1)]
  else if decide (e.2 < e.1)
       then [(rd perm e.1, rd perm e.2); (rd perm e.2, rd perm e.1)]
       else [].

(** An [n]-by-[n] Eigen pattern with all its positions inside the matrix. *)
Definition well_formed (n : Z) (m : EigenMat) : Prop :=
  e_rows m = n ∧ 0 ≤ n ∧
  Forall (λ e, (0 ≤ e.1 < n) ∧ (0 ≤ e.2 < n)) (e_entries m).

(** Structural symmetry: with a position, its mirror image is stored. *)
Definition symmetric (m : EigenMat) : Prop :=
  Forall (λ e, (e.2, e.1) ∈ e_entries m) (e_entries m).

(** [perm] has [n] entries, all in [0, n). *)
Definition index_map (n : Z) (perm : list Z) : Prop :=
  Z.of_nat (length perm) = n ∧ Forall (λ i, 0 ≤ i < n) perm.

(** [pinv] undoes [perm] on [0, n). *)
Definition inverse_of (n : Z) (perm pinv : list Z) : Prop :=
  Forall (λ i, rd pinv (rd perm i) = i) (seqZ 0 n).

(** The identity permutation of [0, n). *)
Definition identity (n : Z) : list Z := seqZ 0 n.

(** The compressed rows [m] and the Eigen matrix [e] store the same
    positions. *)
Definition same_pattern (m : SparseMatrix) (e : EigenMat) : Prop :=
  Forall (λ r, Forall (λ c, (r, c) ∈ e_entries e) (row_cols m r))
         (seqZ 0 (rows m)) ∧
  Forall (λ p, p.2 ∈ row_cols m p.1) (e_entries e).

#[global] Instance well_formed_dec n m : Decision (well_formed n m).
Proof. unfold well_formed. apply _. Defined.
#[global] Instance symmetric_dec m : Decision (symmetric m).
Proof. unfold symmetric. apply _. Defined.
#[global] Instance index_map_dec n perm : Decision (index_map n perm).
Proof. unfold index_map. apply _. Defined.
#[global] Instance inverse_of_dec n perm pinv : Decision (inverse_of n perm pinv).
Proof. unfold inverse_of. apply _. Defined.
#[global] Instance same_pattern_dec m e : Decision (same_pattern m e).
Proof. unfold same_pattern. apply _. Defined.

(** The matrix the Permutation Applier builds from [m] and [perm]. *)
Definition permuted (m : EigenMat) (perm : list Z) : EigenMat :=
  {| e_rows := e_rows m; e_entries := e_entries m ≫= mirror perm |}.

(** The positions below the diagonal of an [n]-by-[n] matrix. *)
Definition lower_triangle (n : Z) : list (Z * Z) :=
  r ← seqZ 0 n; (λ c, (r, c)) <$> seqZ 0 r.

(** ** Stored positions *)

(** The positions (row, column) stored in the compressed rows, as a set:
    its size is the number of structurally nonzero entries. *)
Definition positions (m : SparseMatrix) : gset (Z * Z) :=
  list_to_set (r ← seqZ 0 (rows m); (λ c, (r, c)) <$> row_cols m r).

(** With a stored position, its mirror image is stored. *)
Definition structurally_symmetric (m : SparseMatrix) : Prop :=
  set_Forall (λ p, (p.2, p.1) ∈ positions m) (positions m).

#[global] Instance structurally_symmetric_dec m :
  Decision (structurally_symmetric m).
Proof. unfold structurally_symmetric. apply _. Defined.

(** ** Example patterns *)

(** The [n]-by-[n] pattern that stores the diagonal only. *)
Definition diagonal (n : Z) : SparseMatrix :=
  {| rows := n; row_ptr := seqZ 0 (n + 1); col_idx := seqZ 0 n |}.

(** The path 0 - 1 - 2 - 3 with its diagonal, both triangles stored. *)
Definition path4 : SparseMatrix :=
  {| rows := 4; row_ptr := [0; 2; 5; 8; 10];
     col_idx := [0; 1; 0; 1; 2; 1; 2; 3; 2; 3] |}.

(** Node 0 adjacent to 1, 2 and 3, with the diagonal, both triangles stored. *)
Definition arrow4 : SparseMatrix :=
  {| rows := 4; row_ptr := [0; 4; 6; 8; 10];
     col_idx := [0; 1; 2; 3; 0; 1; 0; 2; 0; 3] |}.

(** The full pattern of [path4] as an Eigen matrix. *)
Definition path4_eigen : EigenMat :=
  {| e_rows := 4;
     e_entries := [(0,0); (1,0); (0,1); (1,1); (2,1); (1,2); (2,2); (3,2);
                   (2,3); (3,3)] |}.

(** [path4_eigen] with the order 2, 0, 3, 1 of its nodes. *)
Definition path4_args : args :=
  {| eigen_mat := path4_eigen; h_permute := [1; 3; 0; 2] |}.

(** The pattern of [path4] after the relabelling of [path4_args], in
    compressed rows: the edges are 1 - 3, 3 - 0 and 0 - 2. *)
Definition path4_relabelled : SparseMatrix :=
  {| rows := 4; row_ptr := [0; 3; 5; 7; 10];
     col_idx := [0; 2; 3; 1; 3; 0; 2; 0; 1; 3] |}.

(** A numeric factorization that succeeds on every matrix, as it does on
    symmetric positive definite values. *)
Definition always_succeeds (_ : EigenMat) : ComputationInfo := Success.

(** * Further vocabulary *)

(** ** What the symbolic route needs of its argument *)

(** The positions of [col_idx] scanned for row [r]. *)
Definition row_range (m : SparseMatrix) (r : Z) : list Z :=
  seqZ (rd (row_ptr m) r) (rd (row_ptr m) (r + 1) - rd (row_ptr m) r).

(** Every access of lines 135-143 to the matrix, and the first access to
    [tags] of every walk, is inside its array: for every row, [row_ptr] has
    the two entries read, the positions they delimit exist in [col_idx], and
    the columns stored there are not negative.  Nothing is asked of the
    order of [row_ptr], nor of columns at or beyond [rows]. *)
Definition scannable (m : SparseMatrix) : Prop :=
  0 ≤ rows m ∧
  Forall (λ r, inb (row_ptr m) r ∧ inb (row_ptr m) (r + 1) ∧
               Forall (λ i, inb (col_idx m) i ∧ 0 ≤ rd (col_idx m) i)
                      (row_range m r))
         (seqZ 0 (rows m)).

#[global] Instance inb_dec l i : Decision (inb l i).
Proof. unfold inb. apply _. Defined.
#[global] Instance scannable_dec m : Decision (scannable m).
Proof. unfold scannable. apply _. Defined.

(** ** The range of [int] *)

(** The count the routine is after, computed on the integers, is a value of
    a 32-bit [int].  [nnz] only grows during a call, every column counter
    is at most [nnz], and the value returned, [2 * nnz + rows], is the
    largest number the call computes: under this condition no [int] of the
    call overflows, and the call on [int] does what the call on the integers
    does (see [Int32.count_nnz_fillin]). *)
Definition count_fits_int (m : SparseMatrix) : Prop :=
  match count_nnz_fillin m with
  | Ok v => v < 2 ^ 31
  | Err _ => True
  end.

(** A 32-bit [int] after an overflow, as the compilers in use have it: the
    value modulo [2 ^ 32] in the range from [- 2 ^ 31]. *)
Definition wrap_int (x : Z) : Z := (x + 2 ^ 31) mod 2 ^ 32 - 2 ^ 31.

(** Lines 119-158 again, with the arithmetic of the 32-bit [int] counters
    [nnz] and [nonZerosPerCol[c]] and of the value returned.  The indices
    [r + 1] and [i + 1] stay below values that are [int]s already. *)
Module Int32.

Definition incr_nnz (w : work) : work :=
  {| parent := parent w; nonZerosPerCol := nonZerosPerCol w; tags := tags w;
     nnz := wrap_int (nnz w + 1); parent_writes := parent_writes w;
     walk_marks := walk_marks w |}.

Definition walk_body (r c : Z) (w : work) : result (Z * work) :=
  p ← load AParent (parent w) c;
  w ← (if decide (p = -1) then store_parent c r w else Ok w);
  k ← load ANonZerosPerCol (nonZerosPerCol w) c;
  w ← store_nonZerosPerCol c (wrap_int (k + 1)) w;
  w ← store_tags c r (note_mark r c (incr_nnz w));
  c' ← load AParent (parent w) c;
  Ok (c', w).

Fixpoint walk (fuel : nat) (r c : Z) (w : work) : result work :=
  t ← load ATags (tags w) c;
  if decide (t = r) then Ok w
  else
    match fuel with
    | O => Err OutOfFuel
    | S fuel' => cw ← walk_body r c w; walk fuel' r cw.1 cw.2
    end.

Definition visit (fuel : nat) (r : Z) (w : work) (c : Z) : result work :=
  if decide (c < r) then walk fuel r c w else Ok w.

Definition scan_entry (fuel : nat) (r : Z) (s : state) (i : Z) : result state :=
  c ← load AColIdx (col_idx (mat s)) i;
  w ← visit fuel r (locals s) c;
  Ok {| mat := mat s; locals := w |}.

Definition process_row (fuel : nat) (s : state) (r : Z) : result state :=
  w ← init_row r (locals s);
  start ← load ARowPtr (row_ptr (mat s)) r;
  end_ ← load ARowPtr (row_ptr (mat s)) (r + 1);
  forM (scan_entry fuel r) {| mat := mat s; locals := w |}
       (seqZ start (end_ - start)).

Definition count_nnz_fillin_run (fuel : nat) (m : SparseMatrix)
  : result (Z * state) :=
  let size := rows m in
  if decide (size < 0) then Err LengthError
  else
    s ← forM (process_row fuel) {| mat := m; locals := fresh_work size |}
             (seqZ 0 size);
    Ok (wrap_int (wrap_int (2 * nnz (locals s)) + rows (mat s)), s).

Definition count_nnz_fillin (m : SparseMatrix) : result Z :=
  p ← count_nnz_fillin_run (Z.to_nat (rows m)) m; Ok p.1.

End Int32.

(** The locals of the call on integers as the call on [int] has them. *)
Definition to_int (w : work) : work :=
  {| parent := parent w; nonZerosPerCol := wrap_int <$> nonZerosPerCol w;
     tags := tags w; nnz := wrap_int (nnz w);
     parent_writes := parent_writes w; walk_marks := walk_marks w |}.

Definition to_int_state (s : state) : state :=
  {| mat := mat s; locals := to_int (locals s) |}.

(** A result with its value changed. *)
Definition rmap {A B} (f : A → B) (r : result A) : result B :=
  match r with Ok a => Ok (f a) | Err e => Err e end.

(** [path4] with its rows stored in another order, with repeated entries,
    without some entries above the diagonal and with a column beyond the
    last one. *)
Definition path4_shuffled : SparseMatrix :=
  {| rows := 4; row_ptr := [0; 2; 6; 9; 11];
     col_idx := [7; 0; 1; 0; 0; 2; 2; 1; 1; 3; 2] |}.

(** The rows of [m1] and [m2] store the same columns left of the diagonal. *)
Definition same_lower_columns (m1 m2 : SparseMatrix) : Prop :=
  Forall (λ r, Forall (λ c, c ∈ row_cols m1 r ↔ c ∈ row_cols m2 r) (seqZ 0 r))
         (seqZ 0 (rows m1)).

#[global] Instance same_lower_columns_dec m1 m2 :
  Decision (same_lower_columns m1 m2).
Proof. unfold same_lower_columns. apply _. Defined.

(** Every column that a row of [m1] stores left of the diagonal, the same
    row of [m2] stores too. *)
Definition lower_columns_included (m1 m2 : SparseMatrix) : Prop :=
  Forall (λ r, Forall (λ c, c ∈ row_cols m1 r → c ∈ row_cols m2 r) (seqZ 0 r))
         (seqZ 0 (rows m1)).

#[global] Instance lower_columns_included_dec m1 m2 :
  Decision (lower_columns_included m1 m2).
Proof. unfold lower_columns_included. apply _. Defined.

(** The lower triangle of [path4] and the entry (3, 0). *)
Definition path4_chord : SparseMatrix :=
  {| rows := 4; row_ptr := [0; 1; 3; 5; 8];
     col_idx := [0; 0; 1; 1; 2; 0; 2; 3] |}.

(** ** Row subtrees *)

(** [path_below r p c v]: [v] is on the path that starts at [c] and follows
    the parent pointers [p] as long as they lead to a node below [r]. *)
Inductive path_below (r : Z) (p : list Z) (c : Z) : Z → Prop :=
  | path_start : path_below r p c c
  | path_next u :
      path_below r p c u → rd p u ≠ -1 → rd p u < r →
      path_below r p c (rd p u).

(** [v] is in the row subtree of row [r]: on the path below [r] of a column
    that row [r] stores left of the diagonal. *)
Definition row_subtree (cs : list Z) (r : Z) (p : list Z) (v : Z) : Prop :=
  ∃ c, c ∈ cs ∧ c < r ∧ path_below r p c v.

(** The positions left of the diagonal that [m] stores, each once. *)
Definition stored_lower (m : SparseMatrix) : list (Z * Z) :=
  filter (λ p, p.2 ∈ row_cols m p.1) (lower_triangle (rows m)).

(** No elimination step creates an entry: when row [r] and an earlier row
    [c] both store a column [k] left of [c], row [r] stores column [c]. *)
Definition fill_free (m : SparseMatrix) : Prop :=
  Forall (λ r,
    Forall (λ c,
      Forall (λ k, k ∈ row_cols m r → k ∈ row_cols m c → c ∈ row_cols m r)
             (seqZ 0 c))
           (seqZ 0 r))
         (seqZ 0 (rows m)).

#[global] Instance fill_free_dec m : Decision (fill_free m).
Proof. unfold fill_free. apply _. Defined.

(** The [n]-by-[n] pattern in which node 0 is adjacent to all others, with
    the diagonal, both triangles stored: row 0 stores every column and row
    [r] the columns 0 and [r].  [arrow 4] is [arrow4]. *)
Definition arrow (n : Z) : SparseMatrix :=
  {| rows := n;
     row_ptr := (λ r, if decide (r ≤ 0) then 0 else n + 2 * (r - 1))
                  <$> seqZ 0 (n + 1);
     col_idx := (λ i, if decide (i < n) then i
                      else if Z.even (i - n) then 0 else (i - n) / 2 + 1)
                  <$> seqZ 0 (3 * n - 2) |}.

(** ** Exporting to text files (lines 7-46) *)

(** What the two export functions act on: the contents of the files, which
    paths the operating system lets the process open for writing, what a
    file holds after it has been written, and the messages given to
    [RXMESH_ERROR].

    [retained f text] is what file [f] holds once a stream opened on it has
    been sent [text] and closed: [text] itself for an ordinary file on a
    device with room for it, less when the device fills up, nothing for
    /dev/null, what it held before for a file that the system does not let
    the stream change.  The code never looks at the state of the stream
    after it has opened it (lines 15-28 and 35-45), so what the file holds
    in the end is up to the environment. *)
Record world := {
  files : gmap string string;
  writable : string → bool;
  retained : string → string → string;
  errors : list string
}.

(** File [f] holds whatever it is sent. *)
Definition keeps (w : world) (f : string) : Prop :=
  ∀ text, retained w f text = text.

Definition newline : string := String "010"%char "".
Definition space : string := String " "%char "".

(** [file.close()] on a stream opened on [filename] that was sent [file]. *)
Definition close (filename file : string) (w : world) : world :=
  {| files := <[filename := retained w filename file]> (files w);
     writable := writable w; retained := retained w; errors := errors w |}.

(** [RXMESH_ERROR] comes from rxmesh/util/log.h, which is not among the
    sources: a call is taken to report its formatted message and to return. *)
Definition RXMESH_ERROR (message : string) (w : world) : world :=
  {| files := files w; writable := writable w; retained := retained w;
     errors := errors w ++ [message] |}.

(** Lines 31-46.  [int] is printed by [operator<<] in decimal, with a minus
    sign when negative, which is what [pretty] gives. *)
Definition save_permutation (h_permute : list Z) (filename : string)
  (w : world) : result world :=
  if writable w filename then
    file ← forM (λ file k, v ← load APermute h_permute k;
                           Ok (file +:+ pretty v +:+ newline))
                "" (seqZ 0 (Z.of_nat (length h_permute)));
    Ok (close filename file w)
  else Ok (RXMESH_ERROR ("Error opening file: " +:+ filename) w).

(** What an [InnerIterator] of the matrix type gives at one stored entry. *)
Record entry (V : Type) := { row : Z; col : Z; value : V }.
Arguments row {V} _.
Arguments col {V} _.
Arguments value {V} _.

(** Lines 7-29.  The matrix type is a template argument of which the code
    uses [outerSize()] and the [InnerIterator]s: a matrix is given as its
    outer vectors, each with the entries its iterator visits, in that order.
    How a value is printed depends on its type ([Pretty V]). *)
Definition save_sparse_mat {V} `{Pretty V} (mat : list (list (entry V)))
  (filename : string) (base : Z) (w : world) : world :=
  if writable w filename then
    let file :=
      foldl (λ file inner,
        foldl (λ file it,
          file +:+ pretty (row it + base) +:+ space
               +:+ pretty (col it + base) +:+ space
               +:+ pretty (value it) +:+ newline) file inner) "" mat in
    close filename file w
  else RXMESH_ERROR ("Error opening file: " +:+ filename) w.

(** The text a call left in file [f], if the call returned. *)
Definition written (f : string) (r : result world) : option string :=
  match r with Ok w => files w !! f | Err _ => None end.

(** Character [a] occurs in [s]. *)
Fixpoint occurs (a : ascii) (s : string) : Prop :=
  match s with
  | EmptyString => False
  | String b s' => a = b ∨ occurs a s'
  end.

(** The entries of a matrix in the order they are visited, each with its
    value as printed. *)
Definition listing {V} `{Pretty V} (mat : list (list (entry V)))
  : list (Z * Z * string) :=
  (λ it, (row it, col it, pretty (value it))) <$> concat mat.

(** The lower triangle of a matrix with the pattern of [arrow4] and integer
    values, by columns. *)
Definition arrow4_values : list (list (entry Z)) :=
  [ [ {| row := 0; col := 0; value := 4 |};
      {| row := 1; col := 0; value := -1 |};
      {| row := 2; col := 0; value := -1 |};
      {| row := 3; col := 0; value := -1 |} ];
    [ {| row := 1; col := 1; value := 2 |} ];
    [ {| row := 2; col := 2; value := 2 |} ];
    [ {| row := 3; col := 3; value := 2 |} ] ].

(** An environment without files in which one path cannot be opened and
    another one keeps nothing. *)
Definition scratch : world :=
  {| files := ∅; writable := λ f, bool_decide (f ≠ "/nowhere/perm.txt");
     retained := λ f text, if bool_decide (f = "/dev/null") then "" else text;
     errors := [] |}.

(** ** Integer rounding (rxmesh/util/macros.h, lines 23-25) *)

(** The macros at an unsigned integer type of [bits] bits, both arguments
    being variables or constants of that type.  A type narrower than [int]
    ([uint8_t], [uint16_t]) is promoted to [int] before the arithmetic,
    which then is that of the 32-bit [int], with its division that
    truncates; at the other types ([uint32_t], [uint64_t], [size_t]) sums
    and products wrap around at [2 ^ bits].  A division by zero has no
    defined result.  What the macros do with arguments that are
    expressions, which they substitute without parentheses, is outside
    these definitions. *)
Definition wrap (bits x : Z) : Z := x mod 2 ^ bits.

(** [(num + divisor - 1) / (divisor)] *)
Definition DIVIDE_UP (bits num divisor : Z) : option Z :=
  if decide (divisor = 0) then None
  else if decide (bits < 32) then
    Some (wrap_int (wrap_int (num + divisor) - 1) ÷ divisor)
  else Some (wrap bits (wrap bits (num + divisor) - 1) / divisor).

(** [(DIVIDE_UP(num, mult) * mult)] *)
Definition ROUND_UP_TO_NEXT_MULTIPLE (bits num mult : Z) : option Z :=
  q ← DIVIDE_UP bits num mult;
  Some (if decide (bits < 32) then wrap_int (q * mult)
        else wrap bits (q * mult)).

(** The values of an unsigned type of [bits] bits. *)
Definition unsigned (bits x : Z) : Prop := 0 ≤ x < 2 ^ bits.

(** ** The structure of the Cholesky factor *)

(** [fill pat r c]: entry (r, c) below the diagonal of the Cholesky factor
    L of a symmetric matrix A is structurally nonzero, [pat r] being the
    columns stored for row [r] of A.  Either A(r, c) is stored, or an
    earlier column [k] has both L(r, k) and L(c, k) nonzero, so that
    eliminating column [k] updates entry (r, c). *)
Inductive fill (pat : Z → list Z) : Z → Z → Prop :=
  | fill_stored r c : c ∈ pat r → 0 ≤ c < r → fill pat r c
  | fill_update r c k :
      fill pat r k → fill pat c k → c < r → fill pat r c.

(** * Proofs *)

(** ** Arrays *)

Lemma bind_Ok {A B} (m : result A) (f : A → result B) (b : B) :
  m ≫= f = Ok b ↔ ∃ a, m = Ok a ∧ f a = Ok b.
Proof.
  destruct m as [a|e]; simpl; split.
  - eauto.
  - by intros (a' & [= <-] & ?).
  - done.
  - by intros (a' & ? & ?).
Qed.

Lemma load_inb a l i : inb l i → load a l i = Ok (rd l i).
Proof.
  intros [H0 Hlt]. unfold load, rd. rewrite decide_True by done.
  destruct (lookup_lt_is_Some_2 l (Z.to_nat i)) as [v Hv]; [lia|].
  rewrite Hv. by rewrite (list_lookup_total_correct _ _ _ Hv).
Qed.

Lemma load_Ok a l i v : load a l i = Ok v → inb l i ∧ v = rd l i.
Proof.
  unfold load, rd, inb. case_decide; [|done].
  destruct (l !! Z.to_nat i) as [x|] eqn:E; [|done].
  intros [= <-]. apply lookup_lt_Some in E as Hlt.
  rewrite (list_lookup_total_correct _ _ _ E). split; [lia|done].
Qed.

Lemma store_inb a l i v : inb l i → store a l i v = Ok (upd l i v).
Proof. intros H. unfold store. by rewrite decide_True. Qed.

Lemma store_Ok a l i v l' : store a l i v = Ok l' → inb l i ∧ l' = upd l i v.
Proof. unfold store. case_decide; [|done]. by intros [= <-]. Qed.

Lemma length_upd l i v : length (upd l i v) = length l.
Proof. apply length_insert. Qed.

Lemma inb_upd l i v j : inb (upd l i v) j ↔ inb l j.
Proof. unfold inb. by rewrite length_upd. Qed.

Lemma rd_upd l i j v :
  inb l i → 0 ≤ j → rd (upd l i v) j = if decide (i = j) then v else rd l j.
Proof.
  intros [Hi Hlt] Hj. unfold rd, upd. case_decide as E.
  - subst j. apply list_lookup_total_insert_eq. lia.
  - apply list_lookup_total_insert_ne. lia.
Qed.

Lemma rd_upd_eq l i v : inb l i → rd (upd l i v) i = v.
Proof. intros H. rewrite rd_upd by (done || apply H). by rewrite decide_True. Qed.

Lemma rd_upd_ne l i j v : i ≠ j → 0 ≤ i → 0 ≤ j → rd (upd l i v) j = rd l j.
Proof.
  intros Hne Hi Hj. unfold rd, upd. apply list_lookup_total_insert_ne. lia.
Qed.

(** Two arrays of the same length that read the same everywhere are equal. *)
Lemma array_ext (l1 l2 : list Z) :
  length l1 = length l2 →
  (∀ i, inb l1 i → rd l1 i = rd l2 i) → l1 = l2.
Proof.
  intros Hlen Hrd. apply list_eq_same_length with (length l1); [done..|].
  intros i x y Hi Hx Hy.
  specialize (Hrd (Z.of_nat i)). unfold rd, inb in Hrd.
  rewrite Nat2Z.id in Hrd.
  rewrite (list_lookup_total_correct _ _ _ Hx) in Hrd.
  rewrite (list_lookup_total_correct _ _ _ Hy) in Hrd.
  apply Hrd. lia.
Qed.

(** ** One step of the walk and the row prologue, in closed form *)

Lemma walk_body_stepped n r c w :
  sized n w → 0 ≤ c < n →
  walk_body r c w = Ok (rd (parent (stepped r c w)) c, stepped r c w).
Proof.
  intros [Hp Hn Ht] Hc. unfold walk_body.
  rewrite load_inb by (unfold inb; lia). simpl.
  unfold stepped. destruct (decide (rd (parent w) c = -1)) as [E|E].
  - rewrite bool_decide_eq_true_2 by done.
    unfold store_parent. rewrite store_inb by (unfold inb; lia). simpl.
    rewrite load_inb by (unfold inb; lia). simpl.
    unfold store_nonZerosPerCol. simpl.
    rewrite store_inb by (unfold inb; lia). simpl.
    unfold store_tags. simpl. rewrite store_inb by (unfold inb; lia). simpl.
    rewrite load_inb by (rewrite inb_upd; unfold inb; lia). reflexivity.
  - rewrite bool_decide_eq_false_2 by done. simpl.
    rewrite load_inb by (unfold inb; lia). simpl.
    unfold store_nonZerosPerCol. simpl.
    rewrite store_inb by (unfold inb; lia). simpl.
    unfold store_tags. simpl. rewrite store_inb by (unfold inb; lia). simpl.
    rewrite load_inb by (unfold inb; lia). rewrite app_nil_r. reflexivity.
Qed.

Lemma walk_body_Ok r c w c' w' :
  walk_body r c w = Ok (c', w') →
  inb (parent w) c ∧ inb (nonZerosPerCol w) c ∧ inb (tags w) c ∧
  w' = stepped r c w ∧ c' = rd (parent w') c.
Proof.
  unfold walk_body. intros H.
  apply bind_Ok in H as (p & Hp & H). apply load_Ok in Hp as [Hpi ->].
  apply bind_Ok in H as (w1 & Hw1 & H).
  apply bind_Ok in H as (k & Hk & H). apply load_Ok in Hk as [Hki ->].
  apply bind_Ok in H as (w2 & Hw2 & H).
  apply bind_Ok in H as (w3 & Hw3 & H).
  apply bind_Ok in H as (c2 & Hc2 & H). apply load_Ok in Hc2 as [Hci ->].
  injection H as <- <-.
  unfold store_nonZerosPerCol in Hw2.
  apply bind_Ok in Hw2 as (a & Ha & [= <-]). apply store_Ok in Ha as [Hai ->].
  unfold store_tags in Hw3. simpl in Hw3.
  apply bind_Ok in Hw3 as (t & Ht & [= <-]). apply store_Ok in Ht as [Hti ->].
  simpl in *. unfold stepped.
  destruct (decide (rd (parent w) c = -1)) as [E|E].
  - rewrite bool_decide_eq_true_2 by done.
    unfold store_parent in Hw1.
    apply bind_Ok in Hw1 as (p & Hp & [= <-]). apply store_Ok in Hp as [_ ->].
    simpl in *. done.
  - rewrite bool_decide_eq_false_2 by done.
    injection Hw1 as <-. rewrite app_nil_r. done.
Qed.

Lemma init_row_initialised n r w :
  sized n w → 0 ≤ r < n → init_row r w = Ok (initialised r w).
Proof.
  intros [Hp Hn Ht] Hr. unfold init_row, store_parent.
  rewrite store_inb by (unfold inb; lia). simpl.
  unfold store_tags. simpl. rewrite store_inb by (unfold inb; lia). simpl.
  unfold store_nonZerosPerCol. simpl.
  rewrite store_inb by (unfold inb; lia). done.
Qed.

Lemma init_row_Ok r w w' :
  init_row r w = Ok w' →
  inb (parent w) r ∧ inb (tags w) r ∧ inb (nonZerosPerCol w) r ∧
  w' = initialised r w.
Proof.
  unfold init_row. intros H.
  apply bind_Ok in H as (w1 & Hw1 & H).
  apply bind_Ok in H as (w2 & Hw2 & H).
  unfold store_parent in Hw1.
  apply bind_Ok in Hw1 as (p & Hp & [= <-]). apply store_Ok in Hp as [? ->].
  unfold store_tags in Hw2. simpl in Hw2.
  apply bind_Ok in Hw2 as (t & Ht & [= <-]). apply store_Ok in Ht as [? ->].
  unfold store_nonZerosPerCol in H. simpl in H.
  apply bind_Ok in H as (a & Ha & [= <-]). apply store_Ok in Ha as [? ->].
  done.
Qed.

(** ** The path walk *)

Lemma sized_stepped n r c w : sized n w → sized n (stepped r c w).
Proof.
  intros [Hp Hn Ht]. split; simpl; rewrite ?length_upd; try done.
  case_bool_decide; by rewrite ?length_upd.
Qed.

Lemma sized_initialised n r w : sized n w → sized n (initialised r w).
Proof. intros [Hp Hn Ht]. split; simpl; by rewrite length_upd. Qed.

Lemma rd_parent_stepped n r c w v :
  sized n w → 0 ≤ c < n → 0 ≤ v →
  rd (parent (stepped r c w)) v =
    if decide (v = c ∧ rd (parent w) c = -1) then r else rd (parent w) v.
Proof.
  intros [Hp _ _] Hc Hv. simpl. case_bool_decide as E.
  - rewrite rd_upd by (unfold inb; lia).
    destruct (decide (c = v)) as [->|Hne].
    + by rewrite decide_True.
    + rewrite decide_False; [done|]. intros [-> _]. done.
  - rewrite decide_False; [done|]. by intros [_ ?].
Qed.

Lemma rd_tags_stepped n r c w v :
  sized n w → 0 ≤ c < n → 0 ≤ v →
  rd (tags (stepped r c w)) v = if decide (v = c) then r else rd (tags w) v.
Proof.
  intros [_ _ Ht] Hc Hv. simpl. rewrite rd_upd by (unfold inb; lia).
  destruct (decide (c = v)) as [->|Hne].
  - by rewrite decide_True.
  - by rewrite decide_False by congruence.
Qed.

Lemma rd_nonZerosPerCol_stepped n r c w v :
  sized n w → 0 ≤ c < n → 0 ≤ v →
  rd (nonZerosPerCol (stepped r c w)) v =
    if decide (v = c) then rd (nonZerosPerCol w) c + 1
    else rd (nonZerosPerCol w) v.
Proof.
  intros [_ Hn _] Hc Hv. simpl. rewrite rd_upd by (unfold inb; lia).
  destruct (decide (c = v)) as [->|Hne].
  - by rewrite decide_True.
  - by rewrite decide_False by congruence.
Qed.

(** A step at a node below [r] keeps the row invariant and moves strictly
    upward, to a node not above [r]. *)
Lemma in_row_stepped n r c w :
  in_row n r w → 0 ≤ c < r →
  in_row n r (stepped r c w) ∧
  c < rd (parent (stepped r c w)) c ≤ r.
Proof.
  intros [Hs Hr Hp Ht Hst Hsp] Hc.
  assert (Hcn : 0 ≤ c < n) by lia.
  split; [split|].
  - by apply sized_stepped.
  - done.
  - intros v Hv. rewrite (rd_parent_stepped n) by (done || lia).
    case_decide as E; [lia|]. by apply Hp.
  - intros v Hv. rewrite (rd_tags_stepped n) by (done || lia).
    case_decide; [lia|]. by apply Ht.
  - rewrite (rd_tags_stepped n) by (done || lia).
    by rewrite decide_False by lia.
  - rewrite (rd_parent_stepped n) by (done || lia).
    by rewrite decide_False by lia.
  - rewrite (rd_parent_stepped n) by (done || lia).
    destruct (Hp c Hc) as [E|E].
    + rewrite decide_True by done. lia.
    + rewrite decide_False by lia. lia.
Qed.

Lemma walk_unfold fuel r c w :
  walk fuel r c w =
    (t ← load ATags (tags w) c;
     if decide (t = r) then Ok w
     else match fuel with
          | O => Err OutOfFuel
          | S fuel' => cw ← walk_body r c w; walk fuel' r cw.1 cw.2
          end).
Proof. by destruct fuel. Qed.

Section walk.
Context (n r : Z).

(** The walk returns when it has at least as much fuel as there are nodes
    between its start and [r], and it returns locals that satisfy every
    property [I] of (node, locals) that one step preserves. *)
Lemma walk_total (I : Z → work → Prop) fuel c w :
  (∀ c w, in_row n r w → 0 ≤ c < r → rd (tags w) c ≠ r → I c w →
          I (rd (parent (stepped r c w)) c) (stepped r c w)) →
  in_row n r w → 0 ≤ c ≤ r → r - c ≤ Z.of_nat fuel → I c w →
  ∃ c' w', walk fuel r c w = Ok w' ∧ in_row n r w' ∧
           c ≤ c' ≤ r ∧ rd (tags w') c' = r ∧ I c' w'.
Proof.
  intros Hstep. revert c w.
  induction fuel as [|fuel IH]; intros c w Hin Hc Hfuel HI.
  - assert (c = r) as -> by lia. exists r, w.
    rewrite walk_unfold, load_inb; simpl.
    + rewrite decide_True by apply Hin. split_and!; (done || lia || apply Hin).
    + destruct Hin as [[] ?]; unfold inb; lia.
  - rewrite walk_unfold.
    assert (Hs := ir_sized _ _ _ Hin). assert (Hr := ir_range _ _ _ Hin).
    rewrite load_inb by (destruct Hs; unfold inb; lia). simpl.
    case_decide as Et.
    + exists c, w. split_and!; (done || lia).
    + assert (c ≠ r) by (intros ->; by rewrite (ir_self_tag _ _ _ Hin) in Et).
      assert (Hc' : 0 ≤ c < r) by lia.
      rewrite (walk_body_stepped n) by (done || lia). simpl.
      destruct (in_row_stepped n r c w Hin Hc') as [Hin' Hup].
      destruct (IH (rd (parent (stepped r c w)) c) (stepped r c w))
        as (c2 & w2 & Hw & ? & ? & ? & ?); [done|lia|lia|by apply Hstep|].
      exists c2, w2. split_and!; (done || lia).
Qed.
End walk.

(** ** Rows *)

Lemma between_rows_fresh n : 0 ≤ n → between_rows n 0 (fresh_work n).
Proof.
  intros Hn. split; [split|..]; simpl; rewrite ?length_replicate; lia.
Qed.

Lemma in_row_initialised n r w :
  between_rows n r w → r < n → in_row n r (initialised r w).
Proof.
  intros [Hs Hr Hp Ht] Hrn. assert (Hs' := Hs). destruct Hs' as [Lp Ln Lt].
  split; simpl.
  - by apply sized_initialised.
  - lia.
  - intros v Hv. rewrite rd_upd_ne by lia. destruct (Hp v Hv); [by left|right; lia].
  - intros v Hv. rewrite rd_upd_ne by lia. specialize (Ht v Hv). lia.
  - apply rd_upd_eq. unfold inb. lia.
  - apply rd_upd_eq. unfold inb. lia.
Qed.

Lemma between_rows_next n r w : in_row n r w → between_rows n (r + 1) w.
Proof.
  intros [Hs Hr Hp Ht Hst Hsp]. split; [done|lia|..].
  - intros v Hv. destruct (decide (v = r)) as [->|Hne]; [by left|].
    destruct (Hp v) as [E|E]; [lia|by left|right; lia].
  - intros v Hv. destruct (decide (v = r)) as [->|Hne]; [lia|].
    specialize (Ht v). lia.
Qed.

Section scan.
Context (n r : Z) (I : work → Prop).
Hypothesis I_step : ∀ c w,
  in_row n r w → 0 ≤ c < r → rd (tags w) c ≠ r → I w → I (stepped r c w).

Lemma visit_total fuel c w :
  in_row n r w → 0 ≤ c → r ≤ Z.of_nat fuel → I w →
  ∃ w', visit fuel r w c = Ok w' ∧ in_row n r w' ∧ I w' ∧
        (c < r → rd (tags w') c = r) ∧
        (∀ v, 0 ≤ v < r → rd (tags w) v = r → rd (tags w') v = r).
Proof.
  intros Hin Hc Hfuel HI. unfold visit. case_decide as Hlt.
  - destruct (walk_total n r (λ c' w',
                I w' ∧ (c' = c ∨ rd (tags w') c = r) ∧
                ∀ v, 0 ≤ v < r → rd (tags w) v = r → rd (tags w') v = r)
                fuel c w)
      as (c' & w' & Hw & Hin' & Hcc & Ht & HI' & Hcov & Hmono);
      [|done|lia|lia|by split_and!; [|left|]|].
    + intros c1 w1 Hin1 Hc1 Ht1 (HI1 & Hcov & Hmono).
      assert (Hr1 := ir_range _ _ _ Hin1).
      split_and!; [by apply I_step| |].
      * right. rewrite (rd_tags_stepped n) by (apply Hin1 || lia).
        case_decide; [done|]. by destruct Hcov.
      * intros v Hv Htv. rewrite (rd_tags_stepped n) by (apply Hin1 || lia).
        case_decide; [done|]. by apply Hmono.
    + exists w'. split_and!; try done.
      intros _. by destruct Hcov as [->|?].
  - exists w. split_and!; done.
Qed.

(** Scanning the columns of a row returns; afterwards every column left
    of the diagonal carries the tag of the row. *)
Lemma scan_total fuel cs w :
  Forall (λ c, 0 ≤ c) cs → in_row n r w → r ≤ Z.of_nat fuel → I w →
  ∃ w', forM (visit fuel r) w cs = Ok w' ∧ in_row n r w' ∧ I w' ∧
        (∀ c, c ∈ cs → c < r → rd (tags w') c = r) ∧
        (∀ v, 0 ≤ v < r → rd (tags w) v = r → rd (tags w') v = r).
Proof.
  intros Hcs. revert w. induction Hcs as [|c cs Hc Hcs IH]; intros w Hin Hf HI.
  - exists w. split_and!; try done. by intros c ?%elem_of_nil.
  - destruct (visit_total fuel c w) as (w1 & Hw1 & Hin1 & HI1 & Hc1 & Hm1);
      [done..|].
    destruct (IH w1) as (w2 & Hw2 & ? & ? & Hcov & Hm2); [done..|].
    exists w2. simpl. rewrite Hw1. split_and!; try done.
    + intros c' [->|Hc']%elem_of_cons Hlt; [|by apply Hcov].
      apply Hm2; [lia|by apply Hc1].
    + intros v Hv Htv. by apply Hm2, Hm1.
Qed.
End scan.

Section analyse.
Context (n : Z) (pat : Z → list Z).
Context (B I : Z → work → Prop).
Hypothesis pat_nonneg : ∀ r, 0 ≤ r < n → Forall (λ c, 0 ≤ c) (pat r).
Hypothesis B_I : ∀ r w,
  between_rows n r w → r < n → B r w → I r (initialised r w).
Hypothesis I_step : ∀ r c w,
  in_row n r w → 0 ≤ c < r → rd (tags w) c ≠ r → I r w → I r (stepped r c w).
Hypothesis I_B : ∀ r w,
  in_row n r w → I r w →
  (∀ c, c ∈ pat r → c < r → rd (tags w) c = r) → B (r + 1) w.

Lemma process_cols_total fuel r w :
  between_rows n r w → r < n → r ≤ Z.of_nat fuel → B r w →
  ∃ w', process_cols fuel r w (pat r) = Ok w' ∧
        between_rows n (r + 1) w' ∧ B (r + 1) w'.
Proof.
  intros Hb Hr Hf HB. unfold process_cols.
  assert (0 ≤ r) by apply Hb.
  rewrite (init_row_initialised n) by (apply Hb || lia). simpl.
  destruct (scan_total n r (I r) (I_step r) fuel (pat r) (initialised r w))
    as (w' & Hw' & Hin & HI & Hcov & _);
    [apply pat_nonneg; lia|by apply in_row_initialised|done|by apply B_I|].
  exists w'. split_and!; [done|by apply between_rows_next|by apply I_B].
Qed.

Lemma rows_total fuel k r w :
  Z.of_nat k = n - r → between_rows n r w → n ≤ Z.of_nat fuel → B r w →
  ∃ w', forM (λ w r, process_cols fuel r w (pat r)) w (seqZ r (n - r)) = Ok w'
        ∧ between_rows n n w' ∧ B n w'.
Proof.
  revert r w. induction k as [|k IH]; intros r w Hk Hb Hf HB.
  - assert (r = n) as -> by lia. rewrite seqZ_nil by lia. by exists w.
  - rewrite seqZ_cons by lia. simpl.
    destruct (process_cols_total fuel r w) as (w1 & Hw1 & Hb1 & HB1);
      [done|lia|lia|done|].
    rewrite Hw1. simpl.
    replace (Z.succ r) with (r + 1) by lia.
    replace (Z.pred (n - r)) with (n - (r + 1)) by lia.
    apply IH; (done || lia).
Qed.

(** The analysis returns, and its result satisfies every property that
    holds initially and is kept by the row prologue and by the steps. *)
Lemma analyse_total fuel :
  0 ≤ n → n ≤ Z.of_nat fuel → B 0 (fresh_work n) →
  ∃ w, analyse fuel n pat = Ok w ∧ between_rows n n w ∧ B n w.
Proof.
  intros Hn Hf HB. unfold analyse.
  replace (seqZ 0 n) with (seqZ 0 (n - 0)) by (f_equal; lia).
  apply (rows_total fuel (Z.to_nat n)); [lia|by apply between_rows_fresh|done..].
Qed.
End analyse.

(** ** From the compressed rows to the analysis *)

Lemma row_ptr_mono m a b :
  valid_csr m → 0 ≤ a ≤ b → b ≤ rows m →
  rd (row_ptr m) a ≤ rd (row_ptr m) b.
Proof.
  intros (_ & _ & _ & Hmono & _) Hab Hb.
  rewrite Forall_seqZ in Hmono.
  replace b with (a + Z.of_nat (Z.to_nat (b - a))) by lia.
  induction (Z.to_nat (b - a)) as [|k IH] eqn:E in b, Hab, Hb |- *.
  - by rewrite Z.add_0_r.
  - etrans; [apply (IH (b - 1)); lia|].
    replace (a + Z.of_nat (S k)) with (a + Z.of_nat k + 1) by lia.
    apply Hmono. lia.
Qed.

Lemma row_cols_range m r c :
  valid_csr m → 0 ≤ r < rows m → c ∈ row_cols m r → 0 ≤ c < rows m.
Proof.
  intros Hv Hr. unfold row_cols. rewrite list_elem_of_fmap.
  intros (i & -> & Hi). apply elem_of_seqZ in Hi.
  assert (rd (row_ptr m) 0 ≤ rd (row_ptr m) r) by (apply row_ptr_mono; (done || lia)).
  assert (rd (row_ptr m) (r + 1) ≤ rd (row_ptr m) (rows m))
    by (apply row_ptr_mono; (done || lia)).
  destruct Hv as (_ & _ & Hlo & _ & Hhi & Hcols).
  rewrite Forall_forall in Hcols. apply Hcols.
  unfold rd. apply list_elem_of_lookup_total_2. lia.
Qed.

Lemma scan_entry_visit fuel m r w i :
  inb (col_idx m) i →
  scan_entry fuel r {| mat := m; locals := w |} i =
    (w' ← visit fuel r w (rd (col_idx m) i); Ok {| mat := m; locals := w' |}).
Proof. intros Hi. unfold scan_entry. simpl. by rewrite load_inb. Qed.

Lemma scan_entries_cols fuel m r w start len :
  0 ≤ start → start + len ≤ Z.of_nat (length (col_idx m)) →
  forM (scan_entry fuel r) {| mat := m; locals := w |} (seqZ start len) =
    (w' ← forM (visit fuel r) w ((λ i, rd (col_idx m) i) <$> seqZ start len);
     Ok {| mat := m; locals := w' |}).
Proof.
  intros Hs He.
  destruct (decide (len ≤ 0)) as [Hl|Hl]; [by rewrite seqZ_nil|].
  replace len with (Z.of_nat (Z.to_nat len)) in * by lia.
  induction (Z.to_nat len) as [|k IH] in start, w, Hs, He |- *; [done|].
  rewrite seqZ_cons by lia. rewrite fmap_cons. cbn [forM].
  rewrite scan_entry_visit by (unfold inb; lia).
  destruct (visit fuel r w (rd (col_idx m) start)) as [w1|e]; simpl; [|done].
  replace (Z.pred (Z.of_nat (S k))) with (Z.of_nat k) by lia.
  destruct k as [|k]; [by rewrite seqZ_nil|].
  apply IH; lia.
Qed.

Lemma process_row_cols fuel m r w :
  valid_csr m → 0 ≤ r < rows m →
  process_row fuel {| mat := m; locals := w |} r =
    (w' ← process_cols fuel r w (row_cols m r); Ok {| mat := m; locals := w' |}).
Proof.
  intros Hv Hr. unfold process_row, process_cols. simpl.
  destruct (init_row r w) as [w1|e]; simpl; [|done].
  assert (rd (row_ptr m) 0 ≤ rd (row_ptr m) r) by (apply row_ptr_mono; (done || lia)).
  assert (rd (row_ptr m) r ≤ rd (row_ptr m) (r + 1)) by (apply row_ptr_mono; (done || lia)).
  assert (rd (row_ptr m) (r + 1) ≤ rd (row_ptr m) (rows m))
    by (apply row_ptr_mono; (done || lia)).
  destruct Hv as (_ & Hlen & Hlo & _ & Hhi & _).
  rewrite !load_inb by (unfold inb; lia). simpl.
  apply scan_entries_cols; lia.
Qed.

Lemma rows_analyse fuel m w r k :
  valid_csr m → 0 ≤ r → Z.of_nat k = rows m - r →
  forM (process_row fuel) {| mat := m; locals := w |} (seqZ r (rows m - r)) =
    (w' ← forM (λ w r, process_cols fuel r w (row_cols m r)) w
              (seqZ r (rows m - r));
     Ok {| mat := m; locals := w' |}).
Proof.
  intros Hv. revert r w. induction k as [|k IH]; intros r w Hr Hk.
  - by rewrite seqZ_nil by lia.
  - rewrite seqZ_cons by lia. simpl.
    rewrite process_row_cols by (done || lia).
    destruct (process_cols fuel r w (row_cols m r)) as [w1|e]; simpl; [|done].
    replace (Z.succ r) with (r + 1) by lia.
    replace (Z.pred (rows m - r)) with (rows m - (r + 1)) by lia.
    apply IH; lia.
Qed.

(** On a valid matrix the call is the analysis of its rows, and the matrix
    it can reach at the end is the one it was given. *)
Lemma count_nnz_fillin_run_analyse fuel m :
  valid_csr m →
  count_nnz_fillin_run fuel m =
    (w ← analyse fuel (rows m) (row_cols m);
     Ok (2 * nnz w + rows m, {| mat := m; locals := w |})).
Proof.
  intros Hv. unfold count_nnz_fillin_run, analyse.
  assert (0 ≤ rows m) by apply Hv. rewrite decide_False by lia.
  replace (seqZ 0 (rows m)) with (seqZ 0 (rows m - 0)) by (f_equal; lia).
  rewrite (rows_analyse fuel m _ 0 (Z.to_nat (rows m))) by (done || lia).
  by destruct (forM _ _ _).
Qed.

(** ** The symbolic route: termination, bounds, result *)

Lemma row_cols_nonneg m :
  valid_csr m → ∀ r, 0 ≤ r < rows m → Forall (λ c, 0 ≤ c) (row_cols m r).
Proof.
  intros Hv r Hr. apply Forall_forall. intros c Hc.
  by apply (row_cols_range m r c Hv Hr).
Qed.

(** The call on a valid matrix, for every property of the locals kept by
    the row prologue and by the steps of the walk. *)
Lemma count_nnz_fillin_run_total (B I : Z → work → Prop) fuel m :
  valid_csr m → rows m ≤ Z.of_nat fuel →
  (∀ r w, between_rows (rows m) r w → r < rows m → B r w →
          I r (initialised r w)) →
  (∀ r c w, in_row (rows m) r w → 0 ≤ c < r → rd (tags w) c ≠ r → I r w →
            I r (stepped r c w)) →
  (∀ r w, in_row (rows m) r w → I r w →
          (∀ c, c ∈ row_cols m r → c < r → rd (tags w) c = r) → B (r + 1) w) →
  B 0 (fresh_work (rows m)) →
  ∃ w, count_nnz_fillin_run fuel m =
         Ok (2 * nnz w + rows m, {| mat := m; locals := w |}) ∧
       between_rows (rows m) (rows m) w ∧ B (rows m) w.
Proof.
  intros Hv Hf HBI HI HIB HB.
  destruct (analyse_total (rows m) (row_cols m) B I (row_cols_nonneg m Hv)
              HBI HI HIB fuel) as (w & Hw & Hb & HBw); [apply Hv|done..|].
  exists w. rewrite count_nnz_fillin_run_analyse, Hw by done. done.
Qed.

Lemma valid_csr_listed m : valid_csr m → listed_csr m.
Proof. intros (? & ? & ? & ? & ? & ?). by split_and!. Qed.

(** The scan of a row under the listed invariants alone: nothing but a
    read outside [col_idx] can go wrong. *)
Lemma scan_entries_safe fuel m r w l :
  Forall (λ c, 0 ≤ c < rows m) (col_idx m) →
  in_row (rows m) r w → r ≤ Z.of_nat fuel →
  unless_col_idx_fault (λ s, mat s = m ∧ in_row (rows m) r (locals s))
    (forM (scan_entry fuel r) {| mat := m; locals := w |} l).
Proof.
  intros Hcols. rewrite Forall_forall in Hcols. revert w.
  induction l as [|i l IH]; intros w Hin Hf; [done|].
  cbn [forM]. unfold scan_entry at 2. simpl. unfold load at 1.
  destruct (decide (0 ≤ i)); [|done].
  destruct (col_idx m !! Z.to_nat i) as [c|] eqn:E; [|done]. simpl.
  assert (Hc : 0 ≤ c < rows m) by (apply Hcols; by eapply list_elem_of_lookup_2).
  destruct (visit_total (rows m) r (λ _, True) (λ _ _ _ _ _ _, I) fuel c w)
    as (w1 & Hw1 & Hin1 & _); [done|lia|done|done|].
  rewrite Hw1. simpl. by apply IH.
Qed.

Lemma process_row_safe fuel m r w :
  listed_csr m → between_rows (rows m) r w → r < rows m →
  rows m ≤ Z.of_nat fuel →
  unless_col_idx_fault
    (λ s, mat s = m ∧ between_rows (rows m) (r + 1) (locals s))
    (process_row fuel {| mat := m; locals := w |} r).
Proof.
  intros (Hn & Hlen & Hmono & Hcols) Hb Hr Hf. unfold process_row. simpl.
  assert (0 ≤ r) by apply Hb.
  rewrite (init_row_initialised (rows m)) by (apply Hb || lia). simpl.
  rewrite !load_inb by (unfold inb; lia). simpl.
  assert (Hs := scan_entries_safe fuel m r (initialised r w)
                  (seqZ (rd (row_ptr m) r)
                        (rd (row_ptr m) (r + 1) - rd (row_ptr m) r))
                  Hcols (in_row_initialised _ _ _ Hb Hr)).
  destruct (forM _ _ _) as [s|[[] i| | |]]; simpl in *; try (apply Hs; lia).
  destruct Hs as [Hm Hin]; [lia|]. split; [done|]. by apply between_rows_next.
Qed.

Lemma rows_safe fuel m k r w :
  listed_csr m → Z.of_nat k = rows m - r → between_rows (rows m) r w →
  rows m ≤ Z.of_nat fuel →
  unless_col_idx_fault
    (λ s, mat s = m ∧ between_rows (rows m) (rows m) (locals s))
    (forM (process_row fuel) {| mat := m; locals := w |}
          (seqZ r (rows m - r))).
Proof.
  intros Hl. revert r w. induction k as [|k IH]; intros r w Hk Hb Hf.
  - assert (r = rows m) as -> by lia. rewrite seqZ_nil by lia. by simpl.
  - rewrite seqZ_cons by lia. cbn [forM].
    assert (Hs := process_row_safe fuel m r w Hl Hb).
    destruct (process_row fuel _ r) as [[m1 w1]|[[] i| | |]]; simpl in *;
      try (apply Hs; lia).
    destruct Hs as [-> Hb1]; [lia..|].
    replace (Z.succ r) with (r + 1) by lia.
    replace (Z.pred (rows m - r)) with (rows m - (r + 1)) by lia.
    apply IH; (done || lia).
Qed.

(** C10. Let [row_ptr] be non-decreasing with [rows + 1] entries and every
    entry of [col_idx] lie in [0, rows).  With [rows] iterations allowed per
    walk, the call never runs out of iterations and never reads or writes
    [parent], [tags] or [nonZerosPerCol] at -1 or at or beyond [rows]: it
    returns, with every parent pointer unknown or above its node, unless
    [row_ptr] sends it outside [col_idx], which the compressed-row
    invariants rule out. *)
Theorem walk_terminates_in_bounds m fuel :
  listed_csr m → rows m ≤ Z.of_nat fuel →
  match count_nnz_fillin_run fuel m with
  | Ok (v, s) =>
      v = 2 * nnz (locals s) + rows m ∧
      ∀ x, 0 ≤ x < rows m →
        rd (parent (locals s)) x = -1 ∨
        x < rd (parent (locals s)) x < rows m
  | Err (OutOfBounds AColIdx i) => ¬ valid_csr m
  | Err _ => False
  end.
Proof.
  intros Hl Hf. assert (Hn : 0 ≤ rows m) by apply Hl.
  destruct (count_nnz_fillin_run fuel m) as [[v s]|e] eqn:E.
  - unfold count_nnz_fillin_run in E. rewrite decide_False in E by lia.
    apply bind_Ok in E as (s1 & Hs1 & [= <- <-]).
    assert (Hs := rows_safe fuel m (Z.to_nat (rows m)) 0
                    (fresh_work (rows m)) Hl).
    rewrite Z.sub_0_r, Hs1 in Hs. simpl in Hs.
    destruct Hs as [Hm Hb]; [lia|by apply between_rows_fresh|done|].
    rewrite Hm. split; [done|]. intros x Hx.
    destruct (br_parent _ _ _ Hb x Hx); [by left|right; lia].
  - assert (Hsafe : match e with OutOfBounds AColIdx _ => True | _ => False end).
    { unfold count_nnz_fillin_run in E. rewrite decide_False in E by lia.
      assert (Hs := rows_safe fuel m (Z.to_nat (rows m)) 0
                      (fresh_work (rows m)) Hl).
      rewrite Z.sub_0_r in Hs.
      destruct (forM _ _ _) as [s1|e1]; simpl in *; [done|].
      injection E as <-. apply Hs; [lia|by apply between_rows_fresh|done]. }
    destruct e as [[] i| | |]; try done.
    intros Hv.
    destruct (count_nnz_fillin_run_total (λ _ _, True) (λ _ _, True) fuel m)
      as (w & Hw & _); try done.
    by rewrite Hw in E.
Qed.

Lemma walk_terminates_in_bounds_witness :
  match count_nnz_fillin_run 4 arrow4 with
  | Ok (v, s) =>
      v = 2 * nnz (locals s) + rows arrow4 ∧
      ∀ x, 0 ≤ x < rows arrow4 →
        rd (parent (locals s)) x = -1 ∨
        x < rd (parent (locals s)) x < rows arrow4
  | Err (OutOfBounds AColIdx i) => ¬ valid_csr arrow4
  | Err _ => False
  end.
Proof.
  apply (walk_terminates_in_bounds arrow4 4).
  - refine (bool_decide_unpack _ _). vm_compute. exact I.
  - simpl. lia.
Defined.

(** The marks made by the walks: as many as [nnz] counts, pairwise
    different, and among them every stored position left of the diagonal. *)
Lemma analyse_marks fuel n pat :
  0 ≤ n → n ≤ Z.of_nat fuel →
  (∀ r, 0 ≤ r < n → Forall (λ c, 0 ≤ c) (pat r)) →
  ∃ w, analyse fuel n pat = Ok w ∧
       nnz w = Z.of_nat (length (walk_marks w)) ∧ NoDup (walk_marks w) ∧
       ∀ r c, 0 ≤ r < n → c ∈ pat r → c < r → (r, c) ∈ walk_marks w.
Proof.
  intros Hn Hf Hpat.
  set (I := λ (r : Z) (w : work),
         nnz w = Z.of_nat (length (walk_marks w)) ∧ NoDup (walk_marks w) ∧
         (∀ p, p ∈ walk_marks w → p.1 < r ∨ p.1 = r ∧ rd (tags w) p.2 = r
                                           ∧ 0 ≤ p.2 < r) ∧
         (∀ r' c, 0 ≤ r' < r → c ∈ pat r' → c < r' → (r', c) ∈ walk_marks w) ∧
         (∀ v, 0 ≤ v < r → rd (tags w) v = r → (r, v) ∈ walk_marks w)).
  set (B := λ (r : Z) (w : work),
         nnz w = Z.of_nat (length (walk_marks w)) ∧ NoDup (walk_marks w) ∧
         (∀ p, p ∈ walk_marks w → p.1 < r) ∧
         (∀ r' c, 0 ≤ r' < r → c ∈ pat r' → c < r' → (r', c) ∈ walk_marks w)).
  destruct (analyse_total n pat B I Hpat) with (fuel := fuel)
    as (w & Hw & Hb & HB & HN & _ & Hcov); try done.
  - intros r w Hb Hr (Hlen & Hnd & Hlt & Hcov). split_and!; [done..| | |].
    + intros p Hp. left. by apply Hlt.
    + done.
    + intros v Hv. simpl. rewrite rd_upd_ne by lia.
      intros E. assert (Hlt' := br_tags _ _ _ Hb v Hv). lia.
  - intros r c w Hin Hc Ht (Hlen & Hnd & Hm & Hcov & Htag).
    assert (Hr := ir_range _ _ _ Hin). split_and!; simpl.
    + rewrite length_app. simpl. lia.
    + apply NoDup_app. split_and!; [done| |apply NoDup_singleton].
      intros p Hp ->%list_elem_of_singleton.
      destruct (Hm _ Hp) as [?|(_ & ? & _)]; simpl in *; [lia|done].
    + intros p [Hp| ->%list_elem_of_singleton]%elem_of_app.
      * destruct (Hm _ Hp) as [?|(? & Hpt & ?)]; [by left|right].
        split_and!; try (done || lia).
        rewrite rd_upd by (destruct Hin as [[] ?]; unfold inb; lia).
        by case_decide.
      * right. simpl. split_and!; try (done || lia).
        apply rd_upd_eq. destruct Hin as [[] ?]; unfold inb; lia.
    + intros r' c' Hr' Hc' Hlt. apply elem_of_app. left. by apply Hcov.
    + intros v Hv.
      rewrite rd_upd by (destruct Hin as [[] ?]; unfold inb; lia).
      destruct (decide (c = v)) as [->|Hne]; intros Htv; apply elem_of_app.
      * right. by apply list_elem_of_singleton.
      * left. by apply Htag.
  - intros r w Hin (Hlen & Hnd & Hm & Hcov & Htag) Hcols.
    assert (Hr := ir_range _ _ _ Hin). split_and!; [done..| |].
    + intros p Hp. destruct (Hm _ Hp) as [?|(? & _)]; lia.
    + intros r' c Hr' Hc Hlt. destruct (decide (r' = r)) as [->|Hne].
      * apply Htag; [|by apply Hcols].
        specialize (Hpat r Hr). rewrite Forall_forall in Hpat.
        specialize (Hpat c Hc). lia.
      * apply Hcov; (done || lia).
  - split_and!; [done|apply NoDup_nil_2| |].
    + by intros p ?%elem_of_nil.
    + intros r' c Hr'. lia.
  - exists w. by split_and!.
Qed.

(** ** The range of the result *)

Lemma length_lower_triangle (k : nat) :
  2 * Z.of_nat (length (lower_triangle (Z.of_nat k)))
    = Z.of_nat k * (Z.of_nat k - 1).
Proof.
  unfold lower_triangle. induction k as [|k IH]; [done|].
  rewrite seqZ_S, bind_app, length_app. simpl.
  rewrite app_nil_r, length_fmap, length_seqZ. lia.
Qed.

Lemma elem_of_lower_triangle n r c :
  (r, c) ∈ lower_triangle n ↔ 0 ≤ c < r ∧ r < n.
Proof.
  unfold lower_triangle. rewrite list_elem_of_bind. split.
  - intros (r' & (c' & [= -> ->] & Hc)%list_elem_of_fmap & Hr).
    apply elem_of_seqZ in Hc. apply elem_of_seqZ in Hr. lia.
  - intros [Hc Hr]. exists r. split; [|apply elem_of_seqZ; lia].
    apply list_elem_of_fmap. exists c. split; [done|]. apply elem_of_seqZ. lia.
Qed.

(** ** Diagonal patterns *)

Lemma rd_seqZ a len i : 0 ≤ i < len → rd (seqZ a len) i = a + i.
Proof.
  intros Hi. unfold rd. rewrite lookup_total_seqZ_lt by lia. lia.
Qed.

Lemma valid_csr_diagonal n : 0 ≤ n → valid_csr (diagonal n).
Proof.
  intros Hn. unfold valid_csr. simpl. rewrite !length_seqZ.
  split_and!; try lia.
  - rewrite rd_seqZ; lia.
  - apply Forall_seqZ. intros r Hr. rewrite !rd_seqZ; lia.
  - rewrite rd_seqZ; lia.
  - apply Forall_seqZ. lia.
Qed.

Lemma row_cols_diagonal n r : 0 ≤ r < n → row_cols (diagonal n) r = [r].
Proof.
  intros Hr. unfold row_cols. simpl. rewrite !rd_seqZ by lia.
  replace (0 + (r + 1) - (0 + r)) with 1 by lia.
  rewrite (Z.add_0_l r).
  rewrite (seqZ_cons r 1), (seqZ_nil (Z.succ r)) by lia.
  simpl. by rewrite rd_seqZ by lia.
Qed.

Lemma visit_skip fuel r w c : ¬ c < r → visit fuel r w c = Ok w.
Proof. intros H. unfold visit. by rewrite decide_False. Qed.

(** Rows without an entry left of the diagonal start no walk. *)
Lemma scan_no_lower fuel r w cs :
  Forall (λ c, ¬ c < r) cs → forM (visit fuel r) w cs = Ok w.
Proof.
  induction 1 as [|c cs Hc _ IH]; [done|].
  cbn [forM]. rewrite visit_skip by done. apply IH.
Qed.

Lemma process_cols_no_lower fuel n r w cs :
  sized n w → 0 ≤ r < n → Forall (λ c, ¬ c < r) cs →
  process_cols fuel r w cs = Ok (initialised r w).
Proof.
  intros Hs Hr Hcs. unfold process_cols.
  rewrite (init_row_initialised n) by done. simpl. by apply scan_no_lower.
Qed.

Lemma rows_no_lower fuel n pat k r w :
  (∀ r, 0 ≤ r < n → Forall (λ c, ¬ c < r) (pat r)) →
  Z.of_nat k = n - r → 0 ≤ r → sized n w →
  ∃ w', forM (λ w r, process_cols fuel r w (pat r)) w (seqZ r (n - r)) = Ok w'
        ∧ sized n w' ∧ nnz w' = nnz w ∧ walk_marks w' = walk_marks w.
Proof.
  intros Hpat. revert r w. induction k as [|k IH]; intros r w Hk Hr Hs.
  - rewrite seqZ_nil by lia. by exists w.
  - rewrite seqZ_cons by lia. cbn [forM].
    rewrite (process_cols_no_lower fuel n) by (done || lia || apply Hpat; lia).
    simpl.
    replace (Z.succ r) with (r + 1) by lia.
    replace (Z.pred (n - r)) with (n - (r + 1)) by lia.
    destruct (IH (r + 1) (initialised r w)) as (w' & Hw' & ? & ? & ?);
      [lia|lia|by apply sized_initialised|].
    by exists w'.
Qed.

(** C5. On the [n]-by-[n] pattern whose only stored entries are the [n]
    diagonal ones, the symbolic route returns [n]. *)
Theorem diagonal_count (n : nat) :
  count_nnz_fillin (diagonal (Z.of_nat n)) = Ok (Z.of_nat n).
Proof.
  unfold count_nnz_fillin, count_nnz_fillin_fuel.
  rewrite count_nnz_fillin_run_analyse by (apply valid_csr_diagonal; lia).
  unfold analyse. simpl rows.
  destruct (rows_no_lower (Z.to_nat (Z.of_nat n)) (Z.of_nat n)
              (row_cols (diagonal (Z.of_nat n))) n 0
              (fresh_work (Z.of_nat n)))
    as (w & Hw & _ & Hn & _).
  - intros r Hr. rewrite row_cols_diagonal by done.
    apply Forall_singleton. lia.
  - lia.
  - done.
  - split; simpl; rewrite length_replicate; lia.
  - rewrite Z.sub_0_r in Hw. rewrite Hw. simpl. rewrite Hn. simpl.
    f_equal.
Qed.

(** ** The history of [parent] *)

Lemma writes_at_initialised x r w :
  writes_at x (initialised r w) =
    writes_at x w ++ (if decide (r = x) then [-1] else []).
Proof.
  unfold writes_at. simpl. rewrite filter_app, fmap_app. f_equal.
  case_decide as E.
  - by rewrite filter_cons_True.
  - by rewrite filter_cons_False.
Qed.

Lemma writes_at_stepped x r c w :
  writes_at x (stepped r c w) =
    writes_at x w ++
      (if decide (c = x ∧ rd (parent w) c = -1) then [r] else []).
Proof.
  unfold writes_at. simpl. rewrite filter_app, fmap_app. f_equal.
  case_bool_decide as Ep.
  - destruct (decide (c = x)) as [->|Hne].
    + rewrite filter_cons_True by done. by rewrite decide_True.
    + rewrite filter_cons_False by done. rewrite decide_False; [done|].
      by intros [? _].
  - rewrite decide_False; [done|]. by intros [_ ?].
Qed.

Lemma marks_at_stepped x r c w :
  marks_at x (stepped r c w) =
    marks_at x w ++ (if decide (c = x) then [r] else []).
Proof.
  unfold marks_at. simpl. rewrite filter_app, fmap_app. f_equal.
  case_decide as E.
  - by rewrite filter_cons_True.
  - by rewrite filter_cons_False.
Qed.

(** C8. During one call on a valid matrix, [parent[x]] is stored -1 by the
    prologue of row [x] and after that at most once: either it stays -1 to
    the end and no walk ever reached [x] ([x] is a root), or the only later
    store puts the row [p > x] of the first walk that reached [x], and [p] is
    what [parent[x]] holds at the end. *)
Theorem parent_written_once m :
  valid_csr m →
  ∃ v s, count_nnz_fillin_run (Z.to_nat (rows m)) m = Ok (v, s) ∧
    ∀ x, 0 ≤ x < rows m →
      let p := rd (parent (locals s)) x in
      (p = -1 ∧ writes_at x (locals s) = [-1] ∧ marks_at x (locals s) = []) ∨
      (x < p < rows m ∧ writes_at x (locals s) = [-1; p] ∧
       ∃ rest, marks_at x (locals s) = p :: rest).
Proof.
  intros Hv.
  set (B := λ (r : Z) (w : work), ∀ x, 0 ≤ x < rows m →
         (x < r → node_history x w) ∧
         (r ≤ x → writes_at x w = [] ∧ marks_at x w = [])).
  set (I := λ (r : Z) (w : work), ∀ x, 0 ≤ x < rows m →
         (x ≤ r → node_history x w) ∧
         (r < x → writes_at x w = [] ∧ marks_at x w = [])).
  destruct (count_nnz_fillin_run_total B I (Z.to_nat (rows m)) m Hv)
    as (w & Hw & Hb & HB).
  - destruct Hv. lia.
  - intros r w Hb Hr HBw x Hx. destruct (HBw x Hx) as [Hlt Hge].
    assert (Hr0 : 0 ≤ r) by apply Hb.
    assert (Hlen : inb (parent w) r) by (destruct Hb as [[] ?]; unfold inb; lia).
    unfold node_history. rewrite writes_at_initialised.
    change (marks_at x (initialised r w)) with (marks_at x w).
    change (parent (initialised r w)) with (upd (parent w) r (-1)).
    split.
    + intros Hle. destruct (decide (r = x)) as [->|Hne].
      * left. rewrite rd_upd_eq by done. destruct Hge as [-> ->]; [lia|]. done.
      * rewrite rd_upd_ne, app_nil_r by lia. apply Hlt. lia.
    + intros Hgt. rewrite decide_False by lia. rewrite app_nil_r. apply Hge. lia.
  - intros r c w Hin Hc Ht HIw x Hx. destruct (HIw x Hx) as [Hle Hgt].
    assert (Hr := ir_range _ _ _ Hin).
    unfold node_history.
    rewrite writes_at_stepped, marks_at_stepped.
    rewrite (rd_parent_stepped (rows m)) by (apply Hin || lia).
    split.
    + intros Hxr. specialize (Hle Hxr). unfold node_history in Hle.
      destruct (decide (c = x)) as [->|Hne].
      * destruct Hle as [(Ep & Ewr & Em)|(Ep & Ewr & rest & Em)].
        -- right. rewrite !decide_True by done. rewrite Ewr, Em.
           split_and!; [lia|done|by eexists].
        -- right. rewrite !decide_False by (by intros [_ ?]).
           rewrite app_nil_r, Em. split_and!; [done..|by eexists].
      * rewrite !decide_False by (by intros [? _]).
        rewrite !app_nil_r. done.
    + intros Hxr. rewrite !decide_False by lia.
      rewrite !app_nil_r. by apply Hgt.
  - intros r w Hin HIw _ x Hx. destruct (HIw x Hx) as [Hle Hgt].
    split; intros ?; [apply Hle|apply Hgt]; lia.
  - intros x Hx. split; [lia|done].
  - exists (2 * nnz w + rows m), {| mat := m; locals := w |}.
    split; [done|]. simpl. intros x Hx.
    destruct (HB x Hx) as [Hh _]. specialize (Hh (proj2 Hx)).
    destruct Hh as [?|(Ep & Ewr & Hrest)]; [by left|right].
    split_and!; try done; destruct (br_parent _ _ _ Hb x Hx); lia.
Qed.

Lemma parent_written_once_witness :
  valid_csr arrow4 ∧
  ∃ v s, count_nnz_fillin_run (Z.to_nat (rows arrow4)) arrow4 = Ok (v, s) ∧
    ∀ x, 0 ≤ x < rows arrow4 →
      let p := rd (parent (locals s)) x in
      (p = -1 ∧ writes_at x (locals s) = [-1] ∧ marks_at x (locals s) = []) ∨
      (x < p < rows arrow4 ∧ writes_at x (locals s) = [-1; p] ∧
       ∃ rest, marks_at x (locals s) = p :: rest).
Proof.
  assert (Hv : valid_csr arrow4)
    by (refine (bool_decide_unpack _ _); vm_compute; exact I).
  exact (conj Hv (parent_written_once arrow4 Hv)).
Defined.

(** ** Properties of every run that returns *)

Lemma forM_invariant {A S} (P : S → Prop) (body : S → A → result S) l s s' :
  (∀ s x s', P s → body s x = Ok s' → P s') →
  P s → forM body s l = Ok s' → P s'.
Proof.
  intros Hbody. revert s. induction l as [|x l IH]; intros s HP; simpl.
  - by intros [= <-].
  - intros (s1 & Hs1 & H)%bind_Ok. eapply IH; [|done]. by eapply Hbody.
Qed.

Section preserved.
Context (P : work → Prop).
Hypothesis P_initialised : ∀ r w, P w → P (initialised r w).
Hypothesis P_stepped : ∀ r c w, P w → P (stepped r c w).

Lemma walk_preserves fuel r c w w' :
  P w → walk fuel r c w = Ok w' → P w'.
Proof.
  revert c w. induction fuel as [|fuel IH]; intros c w HP;
    rewrite walk_unfold; intros (t & _ & H)%bind_Ok;
    case_decide; try done; try by injection H as <-.
  apply bind_Ok in H as ([c1 w1] & Hb & H).
  apply walk_body_Ok in Hb as (_ & _ & _ & -> & _).
  eapply IH; [|done]. by apply P_stepped.
Qed.

Lemma visit_preserves fuel r w c w' :
  P w → visit fuel r w c = Ok w' → P w'.
Proof.
  unfold visit. case_decide; [apply walk_preserves|]. by intros ? [= <-].
Qed.

Lemma process_cols_preserves fuel r w cs w' :
  P w → process_cols fuel r w cs = Ok w' → P w'.
Proof.
  unfold process_cols. intros HP (w1 & Hw1 & H)%bind_Ok.
  apply init_row_Ok in Hw1 as (_ & _ & _ & ->).
  eapply (forM_invariant P); [|by apply P_initialised|done].
  intros ????. by apply visit_preserves.
Qed.

Lemma analyse_preserves fuel n pat w :
  P (fresh_work n) → analyse fuel n pat = Ok w → P w.
Proof.
  unfold analyse. apply (forM_invariant P).
  intros ????. by apply process_cols_preserves.
Qed.
End preserved.

Lemma sumZ_succ_nonneg l : Forall (λ k, 0 ≤ k) l → 0 ≤ sumZ ((λ k, k + 1) <$> l).
Proof.
  induction 1 as [|x l Hx _ IH]; [done|].
  rewrite fmap_cons. unfold sumZ in *. simpl. lia.
Qed.

Lemma analyzePattern_nonneg m k : analyzePattern m = Ok k → 0 ≤ k.
Proof.
  unfold analyzePattern. intros (w & Hw & [= <-])%bind_Ok.
  apply sumZ_succ_nonneg.
  eapply (analyse_preserves (λ w, Forall (λ k, 0 ≤ k) (nonZerosPerCol w)));
    [| |by apply Forall_replicate|done].
  - intros r w0 H0. simpl. by apply Forall_insert.
  - intros r c w0 H0. simpl. apply Forall_insert; [done|].
    unfold rd. destruct (nonZerosPerCol w0 !! Z.to_nat c) as [x|] eqn:E.
    + rewrite (list_lookup_total_correct _ _ _ E).
      rewrite Forall_forall in H0.
      assert (0 ≤ x) by (apply H0; by eapply list_elem_of_lookup_2). lia.
    + rewrite list_lookup_total_alt, E. simpl. done.
Qed.

(** ** Neither route writes to its arguments *)

Lemma scan_entry_mat fuel r s i s' :
  scan_entry fuel r s i = Ok s' → mat s' = mat s.
Proof.
  unfold scan_entry. intros (c & _ & H)%bind_Ok.
  apply bind_Ok in H as (w & _ & [= <-]). done.
Qed.

Lemma process_row_mat fuel s r s' :
  process_row fuel s r = Ok s' → mat s' = mat s.
Proof.
  unfold process_row. intros (w & _ & H)%bind_Ok.
  apply bind_Ok in H as (start & _ & H).
  apply bind_Ok in H as (end_ & _ & H).
  eapply (forM_invariant (λ s', mat s' = mat s)) in H; [done| |done].
  intros s1 i s2 E1 E2. rewrite <- E1. by eapply scan_entry_mat.
Qed.

(** C9. The symbolic route ends with the matrix it was given, whatever the
    matrix and however long the walks are allowed to run; the
    permutation-taking route ends with the matrix and the permutation
    vector it was given. *)
Theorem inputs_not_mutated :
  (∀ fuel m v s, count_nnz_fillin_run fuel m = Ok (v, s) → mat s = m) ∧
  (∀ lib a v a' tr,
     count_nnz_fillin_perm lib a = Ok (v, a', tr) →
     eigen_mat a' = eigen_mat a ∧ h_permute a' = h_permute a).
Proof.
  split.
  - intros fuel m v s. unfold count_nnz_fillin_run. case_decide; [done|].
    intros (s1 & Hs1 & [= <- <-])%bind_Ok.
    eapply (forM_invariant (λ s', mat s' = m)) in Hs1; [done| |done].
    intros s2 r s3 E2 E3. rewrite <- E2. by eapply process_row_mat.
  - intros lib a v a' tr. unfold count_nnz_fillin_perm.
    case_decide as Hlen; [|done].
    intros (perm & _ & H)%bind_Ok.
    apply bind_Ok in H as (pm & _ & H).
    apply bind_Ok in H as (k & _ & H).
    simpl in H. case_decide as Hinfo; by injection H as <- <- <-.
Qed.

Lemma inputs_not_mutated_witness :
  (∃ v s, count_nnz_fillin_run 4 arrow4 = Ok (v, s) ∧ mat s = arrow4) ∧
  (∃ v a' tr,
     count_nnz_fillin_perm (eigen always_succeeds) path4_args
       = Ok (v, a', tr) ∧
     eigen_mat a' = eigen_mat path4_args ∧
     h_permute a' = h_permute path4_args).
Proof.
  split.
  - eexists _, _. split; [vm_compute; reflexivity|].
    eapply (proj1 inputs_not_mutated 4%nat arrow4). vm_compute. reflexivity.
  - exists 8, path4_args, [ReadFactor]. split; [vm_compute; reflexivity|].
    apply (proj2 inputs_not_mutated (eigen always_succeeds) path4_args 8
             path4_args [ReadFactor]).
    vm_compute. reflexivity.
Defined.

(** ** Sums over arrays *)

Lemma sumZ_app l1 l2 : sumZ (l1 ++ l2) = sumZ l1 + sumZ l2.
Proof. unfold sumZ. induction l1 as [|x l1 IH]; simpl; lia. Qed.

Lemma sumZ_upd l i v : inb l i → sumZ (upd l i v) = sumZ l - rd l i + v.
Proof.
  intros [Hi Hlt]. unfold upd, rd.
  destruct (lookup_lt_is_Some_2 l (Z.to_nat i)) as [x Hx]; [lia|].
  rewrite (list_lookup_total_correct _ _ _ Hx).
  rewrite insert_take_drop by lia.
  rewrite <- (take_drop_middle l (Z.to_nat i) x Hx) at 3.
  rewrite !sumZ_app. unfold sumZ. simpl. lia.
Qed.

Lemma sumZ_replicate_0 k : sumZ (replicate k 0) = 0.
Proof. unfold sumZ. induction k; simpl; lia. Qed.

Lemma sumZ_succ l : sumZ ((λ k, k + 1) <$> l) = sumZ l + Z.of_nat (length l).
Proof.
  unfold sumZ. induction l as [|x l IH]; [done|].
  rewrite fmap_cons. simpl length. simpl foldr. lia.
Qed.

(** ** The scan of a row does not depend on the order of its columns *)

Lemma marked_stepped n r c w v :
  sized n w → 0 ≤ c < n → 0 ≤ v → c < r →
  marked r (stepped r c w) v ↔ v = c ∨ marked r w v.
Proof.
  intros Hs Hc Hv Hcr. unfold marked.
  rewrite (rd_tags_stepped n) by done.
  destruct (decide (v = c)) as [->|Hne].
  - split; [by left|]. intros _. by split.
  - split; [intros ?; by right|]. by intros [?|?].
Qed.

Section row_closure.
Context (n r : Z) (w0 : work).
Hypothesis H0 : in_row n r w0.
Hypothesis Hfresh : ∀ v, 0 ≤ v < r → rd (tags w0) v ≠ r.
Hypothesis Hpar : ∀ v, 0 ≤ v < r →
  rd (parent w0) v = -1 ∨ v < rd (parent w0) v < r.

Lemma row_progress_start : row_progress n r w0 w0.
Proof.
  split.
  - intros v Hv. by right.
  - intros v Hv. case_decide as E; [|done].
    destruct E as [[Hlt Ht] _]. destruct (Hfresh v); [lia|done].
  - intros v Hv. case_decide as E; [|lia].
    destruct E as [Hlt Ht]. destruct (Hfresh v); [lia|done].
  - done.
Qed.

Lemma closed_upward_start : closed_upward r w0 w0.
Proof. intros v Hv Ht. by destruct (Hfresh v). Qed.

Lemma row_progress_stepped c w :
  in_row n r w → row_progress n r w0 w → 0 ≤ c < r → rd (tags w) c ≠ r →
  row_progress n r w0 (stepped r c w).
Proof.
  intros Hin [Ht Hp Hk Hn] Hc Hct.
  assert (Hs := ir_sized _ _ _ Hin). assert (Hr := ir_range _ _ _ Hin).
  assert (Hcn : 0 ≤ c < n) by lia.
  assert (Hnm : ¬ marked r w c) by (by intros [_ ?]).
  assert (Hpc : rd (parent w) c = rd (parent w0) c).
  { rewrite Hp by done. rewrite decide_False; [done|]. by intros [? _]. }
  split.
  - intros v Hv. destruct (decide (v = c)) as [->|Hne].
    + left. apply (marked_stepped n); (done || lia || by left).
    + rewrite (rd_tags_stepped n), decide_False by (done || lia).
      destruct (Ht v Hv) as [Hm|Hm]; [left|by right].
      apply (marked_stepped n); (done || lia || by right).
  - intros v Hv. rewrite (rd_parent_stepped n) by (done || lia).
    destruct (decide (v = c)) as [->|Hne].
    + rewrite Hpc. destruct (decide (rd (parent w0) c = -1)) as [E|E].
      * rewrite !decide_True; [done| |done]. split; [|done].
        apply (marked_stepped n); (done || lia || by left).
      * rewrite !decide_False; [done|by intros [_ ?]|by intros [_ ?]].
    + rewrite decide_False by (by intros [? _]). rewrite Hp by done.
      apply decide_ext. rewrite (marked_stepped n) by (done || lia).
      tauto.
  - intros v Hv. rewrite (rd_nonZerosPerCol_stepped n) by (done || lia).
    destruct (decide (v = c)) as [->|Hne].
    + rewrite Hk by done. rewrite (decide_False (P := marked r w c)) by done.
      rewrite decide_True; [lia|].
      apply (marked_stepped n); (done || lia || by left).
    + rewrite Hk by done. f_equal.
      apply decide_ext. rewrite (marked_stepped n) by (done || lia).
      tauto.
  - simpl. rewrite sumZ_upd by (destruct Hs; unfold inb; lia). lia.
Qed.

(** One column: the walk marks its path up to the first marked node, and
    what lies above that node is marked already. *)
Lemma visit_closure fuel c w :
  in_row n r w → row_progress n r w0 w → closed_upward r w0 w →
  0 ≤ c → r ≤ Z.of_nat fuel →
  ∃ w', visit fuel r w c = Ok w' ∧ in_row n r w' ∧
        row_progress n r w0 w' ∧ closed_upward r w0 w' ∧
        (c < r → rd (tags w') c = r) ∧
        (∀ v, 0 ≤ v < r → rd (tags w) v = r → rd (tags w') v = r) ∧
        (∀ v, 0 ≤ v < r → rd (tags w') v = r →
              rd (tags w) v = r ∨ c < r ∧ reach (parent w0) c v).
Proof.
  intros Hin Hrp Hcl Hc Hfuel. unfold visit. case_decide as Hlt.
  - destruct (walk_total n r (λ c' w',
        row_progress n r w0 w' ∧
        (c' = r ∨ c' < r ∧ reach (parent w0) c c') ∧
        (c' = c ∨ rd (tags w') c = r) ∧
        (∀ v, 0 ≤ v < r → rd (tags w) v = r → rd (tags w') v = r) ∧
        (∀ v, 0 ≤ v < r → rd (tags w') v = r →
              rd (tags w) v = r ∨ reach (parent w0) c v) ∧
        (∀ v, 0 ≤ v < r → rd (tags w') v = r → rd (parent w0) v ≠ -1 →
              rd (tags w') (rd (parent w0) v) = r ∨ rd (parent w0) v = c'))
        fuel c w)
      as (c' & w' & Hw & Hin' & Hcc & Ht' & Hrp' & Hcur & Hcov & Hmono & Hsnd & Hcl');
      [|done|lia|lia| |].
    + intros c1 w1 Hin1 Hc1 Ht1 (Hrp1 & Hcur1 & Hcov1 & Hmono1 & Hsnd1 & Hcl1).
      assert (Hs1 := ir_sized _ _ _ Hin1). assert (Hr1 := ir_range _ _ _ Hin1).
      assert (Hreach : reach (parent w0) c c1) by (destruct Hcur1 as [?|[_ ?]]; [lia|done]).
      assert (Hpc : rd (parent w1) c1 = rd (parent w0) c1).
      { rewrite (rp_parent _ _ _ _ Hrp1) by lia.
        rewrite decide_False; [done|]. by intros [[_ ?] _]. }
      assert (Hnext : rd (parent (stepped r c1 w1)) c1 =
                        if decide (rd (parent w0) c1 = -1) then r
                        else rd (parent w0) c1).
      { rewrite (rd_parent_stepped n) by (done || lia). rewrite Hpc.
        destruct (decide (rd (parent w0) c1 = -1)) as [E|E].
        - by rewrite decide_True.
        - rewrite decide_False; [done|]. by intros [_ ?]. }
      split_and!.
      * by apply row_progress_stepped.
      * rewrite Hnext.
        destruct (decide (rd (parent w0) c1 = -1)) as [E|E]; [by left|right].
        destruct (Hpar c1 Hc1) as [?|?]; [done|].
        split; [lia|]. by apply reach_next.
      * right. rewrite (rd_tags_stepped n) by (done || lia).
        destruct (decide (c = c1)); [done|]. by destruct Hcov1.
      * intros v Hv Htv. rewrite (rd_tags_stepped n) by (done || lia).
        destruct (decide (v = c1)); [done|]. by apply Hmono1.
      * intros v Hv. rewrite (rd_tags_stepped n) by (done || lia).
        destruct (decide (v = c1)) as [->|E]; [by right|]. by apply Hsnd1.
      * intros v Hv. rewrite (rd_tags_stepped n) by (done || lia).
        intros Htv Hpv. rewrite Hnext.
        destruct (Hpar v Hv) as [?|Hpr]; [done|].
        rewrite (rd_tags_stepped n) by (done || lia).
        destruct (decide (v = c1)) as [->|Hne].
        -- right. by rewrite decide_False.
        -- left. destruct (decide (rd (parent w0) v = c1)); [done|].
           destruct (Hcl1 v Hv Htv Hpv) as [?|?]; done.
    + split_and!; try done.
      * right. split; [lia|constructor].
      * by left.
      * intros v Hv Htv. by left.
      * intros v Hv Htv Hpv. left. by apply Hcl.
    + exists w'. split_and!; try done.
      * intros v Hv Htv Hpv.
        destruct (Hcl' v Hv Htv Hpv) as [?|E]; [done|]. by rewrite E.
      * intros _. by destruct Hcov as [->|?].
      * intros v Hv Htv. destruct (Hsnd v Hv Htv); [by left|by right].
  - exists w. split_and!; try done. intros v Hv Htv. by left.
Qed.

Lemma reach_range c v :
  0 ≤ c < r → reach (parent w0) c v → 0 ≤ v < r.
Proof.
  intros Hc. induction 1 as [|u Hu IH Hp]; [done|].
  destruct (Hpar u IH); [done|lia].
Qed.

Lemma scan_closure fuel cs w :
  Forall (λ c, 0 ≤ c) cs → in_row n r w → row_progress n r w0 w →
  closed_upward r w0 w → r ≤ Z.of_nat fuel →
  ∃ w', forM (visit fuel r) w cs = Ok w' ∧ in_row n r w' ∧
        row_progress n r w0 w' ∧ closed_upward r w0 w' ∧
        (∀ c, c ∈ cs → c < r → rd (tags w') c = r) ∧
        (∀ v, 0 ≤ v < r → rd (tags w) v = r → rd (tags w') v = r) ∧
        (∀ v, 0 ≤ v < r → rd (tags w') v = r →
              rd (tags w) v = r ∨ reached (parent w0) r cs v).
Proof.
  intros Hcs. revert w.
  induction Hcs as [|c cs Hc Hcs IH]; intros w Hin Hrp Hcl Hf.
  - exists w. split_and!; try done.
    + by intros c ?%elem_of_nil.
    + intros v Hv Htv. by left.
  - destruct (visit_closure fuel c w)
      as (w1 & Hw1 & Hin1 & Hrp1 & Hcl1 & Hc1 & Hm1 & Hs1); [done..|].
    destruct (IH w1) as (w2 & Hw2 & Hin2 & Hrp2 & Hcl2 & Hc2 & Hm2 & Hs2);
      [done..|].
    exists w2. cbn [forM]. rewrite Hw1. split_and!; [exact Hw2|done..| | |].
    + intros c' [->|Hc']%elem_of_cons Hlt; [|by apply Hc2].
      apply Hm2; [lia|by apply Hc1].
    + intros v Hv Htv. by apply Hm2, Hm1.
    + intros v Hv Htv. destruct (Hs2 v Hv Htv) as [Htv1|(c' & ? & ? & ?)].
      * destruct (Hs1 v Hv Htv1) as [?|[? ?]]; [by left|right].
        exists c. split_and!; [by left|lia|lia|done].
      * right. exists c'. split_and!; [by right|lia|lia|done].
Qed.

(** The nodes marked by the scan of a row are the nodes on the paths of its
    columns: a set that does not depend on the order of the columns. *)
Lemma scan_marks fuel cs :
  Forall (λ c, 0 ≤ c) cs → r ≤ Z.of_nat fuel →
  ∃ w', forM (visit fuel r) w0 cs = Ok w' ∧ in_row n r w' ∧
        row_progress n r w0 w' ∧
        ∀ v, 0 ≤ v < r →
          rd (tags w') v = r ↔ reached (parent w0) r cs v.
Proof.
  intros Hcs Hf.
  destruct (scan_closure fuel cs w0 Hcs H0 row_progress_start
              closed_upward_start Hf)
    as (w' & Hw' & Hin & Hrp & Hcl & Hcov & _ & Hsnd).
  exists w'. split_and!; try done. intros v Hv. split.
  - intros Htv. destruct (Hsnd v Hv Htv) as [?|?]; [|done].
    by destruct (Hfresh v).
  - intros (c & Hc & Hcr & Hreach). clear Hv.
    induction Hreach as [|u Hu IH Hp]; [apply Hcov; (done || lia)|].
    apply Hcl; [by eapply reach_range|done..].
Qed.
End row_closure.

Lemma row_progress_core n r w0 w0' w1 w1' :
  core w0 = core w0' → sized n w1 → sized n w1' →
  row_progress n r w0 w1 → row_progress n r w0' w1' →
  (∀ v, 0 ≤ v < r → rd (tags w1) v = r ↔ rd (tags w1') v = r) →
  core w1 = core w1'.
Proof.
  intros [= Ep En Et Ez] [Lp Ln Lt] [Lp' Ln' Lt'] [Ht Hp Hk Hz] [Ht' Hp' Hk' Hz'] Hm.
  assert (Hmk : ∀ v, 0 ≤ v < n → marked r w1 v ↔ marked r w1' v).
  { intros v Hv. unfold marked. split; intros [Hlt E]; (split; [done|]);
      apply Hm; (done || lia). }
  assert (Enpc : nonZerosPerCol w1 = nonZerosPerCol w1').
  { apply array_ext; [lia|]. intros v Hv. unfold inb in Hv.
    rewrite Hk, Hk', En by lia. f_equal. apply decide_ext, Hmk. lia. }
  unfold core. f_equal; [f_equal; [f_equal|]|].
  - apply array_ext; [lia|]. intros v Hv. unfold inb in Hv.
    rewrite Hp, Hp', Ep by lia. apply decide_ext.
    rewrite (Hmk v) by lia. done.
  - done.
  - apply array_ext; [lia|]. intros v Hv. unfold inb in Hv.
    destruct (Ht v) as [M|E]; [lia| |].
    + assert (M' : marked r w1' v) by (apply Hmk; (done || lia)).
      destruct M as [_ ->]. by destruct M' as [_ ->].
    + destruct (Ht' v) as [M'|E']; [lia| |].
      * assert (M : marked r w1 v) by (apply Hmk; (done || lia)).
        destruct M as [_ ->]. by destruct M' as [_ ->].
      * by rewrite E, E', Et.
  - rewrite Enpc, En, Ez in Hz. lia.
Qed.

Lemma reached_ext p0 r cs cs' v :
  (∀ c, 0 ≤ c < r → c ∈ cs ↔ c ∈ cs') →
  reached p0 r cs v → reached p0 r cs' v.
Proof.
  intros Hcs (c & Hc & Hcr & Hreach). exists c.
  split_and!; [by apply Hcs|lia|lia|done].
Qed.

(** A row processed from locals that agree on what the code computes with,
    for two column lists with the same columns left of the diagonal: the
    resulting locals agree again. *)
Lemma process_cols_ext fuel fuel' n r w w' cs cs' :
  between_rows n r w → between_rows n r w' → core w = core w' →
  r < n → r ≤ Z.of_nat fuel → r ≤ Z.of_nat fuel' →
  Forall (λ c, 0 ≤ c) cs → Forall (λ c, 0 ≤ c) cs' →
  (∀ c, 0 ≤ c < r → c ∈ cs ↔ c ∈ cs') →
  ∃ w1 w1', process_cols fuel r w cs = Ok w1 ∧
            process_cols fuel' r w' cs' = Ok w1' ∧
            between_rows n (r + 1) w1 ∧ between_rows n (r + 1) w1' ∧
            core w1 = core w1'.
Proof.
  intros Hb Hb' Ecore Hr Hf Hf' Hcs Hcs' Hsame.
  assert (Hr0 : 0 ≤ r) by apply Hb.
  assert (Efresh : ∀ w, between_rows n r w →
            ∀ v, 0 ≤ v < r → rd (tags (initialised r w)) v ≠ r).
  { intros w2 Hb2 v Hv. simpl. rewrite rd_upd_ne by lia.
    assert (H2 := br_tags _ _ _ Hb2 v Hv). lia. }
  assert (Epar : ∀ w, between_rows n r w → ∀ v, 0 ≤ v < r →
            rd (parent (initialised r w)) v = -1 ∨
            v < rd (parent (initialised r w)) v < r).
  { intros w2 Hb2 v Hv. simpl. rewrite rd_upd_ne by lia.
    apply (br_parent _ _ _ Hb2 v Hv). }
  assert (Ecore0 : core (initialised r w) = core (initialised r w')).
  { injection Ecore as Ep En Et Ez. unfold core. simpl.
    by rewrite Ep, En, Et, Ez. }
  destruct (scan_marks n r (initialised r w)
              (in_row_initialised n r w Hb Hr) (Efresh w Hb) (Epar w Hb)
              fuel cs Hcs Hf) as (w1 & Hw1 & Hin1 & Hrp1 & Hm1).
  destruct (scan_marks n r (initialised r w')
              (in_row_initialised n r w' Hb' Hr) (Efresh w' Hb') (Epar w' Hb')
              fuel' cs' Hcs' Hf') as (w1' & Hw1' & Hin1' & Hrp1' & Hm1').
  exists w1, w1'. unfold process_cols.
  rewrite !(init_row_initialised n) by (apply Hb || apply Hb' || lia).
  simpl. split_and!; [done|done|by apply between_rows_next..|].
  apply (row_progress_core n r (initialised r w) (initialised r w'));
    [done|apply Hin1|apply Hin1'|done|done|].
  intros v Hv. rewrite Hm1, Hm1' by done.
  assert (Ep : parent (initialised r w) = parent (initialised r w'))
    by (by injection Ecore0).
  rewrite Ep. split; apply reached_ext; [done|]. intros c Hc. by rewrite Hsame.
Qed.

Lemma rows_ext fuel fuel' n pat pat' k r w w' :
  (∀ r, 0 ≤ r < n → Forall (λ c, 0 ≤ c) (pat r)) →
  (∀ r, 0 ≤ r < n → Forall (λ c, 0 ≤ c) (pat' r)) →
  (∀ r c, 0 ≤ c < r → r < n → c ∈ pat r ↔ c ∈ pat' r) →
  Z.of_nat k = n - r → n ≤ Z.of_nat fuel → n ≤ Z.of_nat fuel' →
  between_rows n r w → between_rows n r w' → core w = core w' →
  ∃ w1 w1',
    forM (λ w r, process_cols fuel r w (pat r)) w (seqZ r (n - r)) = Ok w1 ∧
    forM (λ w r, process_cols fuel' r w (pat' r)) w' (seqZ r (n - r)) = Ok w1' ∧
    core w1 = core w1'.
Proof.
  intros Hpat Hpat' Hsame. revert r w w'.
  induction k as [|k IH]; intros r w w' Hk Hf Hf' Hb Hb' Ecore.
  - rewrite seqZ_nil by lia. by exists w, w'.
  - assert (0 ≤ r) by apply Hb.
    rewrite seqZ_cons by lia. cbn [forM].
    destruct (process_cols_ext fuel fuel' n r w w' (pat r) (pat' r))
      as (w1 & w1' & Hw1 & Hw1' & Hb1 & Hb1' & Ecore1);
      [done|done|done|lia|lia|lia|apply Hpat; lia|apply Hpat'; lia| |].
    { intros c Hc. apply Hsame; lia. }
    rewrite Hw1, Hw1'. simpl.
    replace (Z.succ r) with (r + 1) by lia.
    replace (Z.pred (n - r)) with (n - (r + 1)) by lia.
    apply IH; (done || lia).
Qed.

(** The analysis of a pattern depends on the set of columns left of the
    diagonal in each row only, not on their order or multiplicity, nor on
    the fuel once there is enough of it. *)
Lemma analyse_ext fuel fuel' n pat pat' :
  0 ≤ n → n ≤ Z.of_nat fuel → n ≤ Z.of_nat fuel' →
  (∀ r, 0 ≤ r < n → Forall (λ c, 0 ≤ c) (pat r)) →
  (∀ r, 0 ≤ r < n → Forall (λ c, 0 ≤ c) (pat' r)) →
  (∀ r c, 0 ≤ c < r → r < n → c ∈ pat r ↔ c ∈ pat' r) →
  ∃ w w', analyse fuel n pat = Ok w ∧ analyse fuel' n pat' = Ok w' ∧
          core w = core w'.
Proof.
  intros Hn Hf Hf' Hpat Hpat' Hsame. unfold analyse.
  replace (seqZ 0 n) with (seqZ 0 (n - 0)) by (f_equal; lia).
  apply (rows_ext fuel fuel' n pat pat' (Z.to_nat n)); try done; try lia;
    by apply between_rows_fresh.
Qed.

(** More iterations than [rows] per walk change nothing. *)
Lemma count_nnz_fillin_fuel_enough fuel m :
  valid_csr m → rows m ≤ Z.of_nat fuel →
  count_nnz_fillin_fuel fuel m = count_nnz_fillin m.
Proof.
  intros Hv Hf. assert (0 ≤ rows m) by apply Hv.
  unfold count_nnz_fillin, count_nnz_fillin_fuel.
  rewrite !count_nnz_fillin_run_analyse by done.
  destruct (analyse_ext fuel (Z.to_nat (rows m)) (rows m)
              (row_cols m) (row_cols m))
    as (w & w' & -> & -> & Ecore);
    [done|done|lia|by apply row_cols_nonneg..|done|].
  injection Ecore as _ _ _ Ez. simpl. by rewrite Ez.
Qed.

(** ** The column counts add up to [nnz] *)

Lemma analyse_sum fuel n pat :
  0 ≤ n → n ≤ Z.of_nat fuel →
  (∀ r, 0 ≤ r < n → Forall (λ c, 0 ≤ c) (pat r)) →
  ∃ w, analyse fuel n pat = Ok w ∧ sized n w ∧
       sumZ (nonZerosPerCol w) = nnz w.
Proof.
  intros Hn Hf Hpat.
  set (B := λ (r : Z) (w : work),
         sumZ (nonZerosPerCol w) = nnz w ∧
         ∀ x, r ≤ x < n → rd (nonZerosPerCol w) x = 0).
  set (I := λ (r : Z) (w : work),
         sumZ (nonZerosPerCol w) = nnz w ∧
         ∀ x, r < x < n → rd (nonZerosPerCol w) x = 0).
  destruct (analyse_total n pat B I Hpat) with (fuel := fuel)
    as (w & Hw & Hb & HB & _); try done.
  - intros r w Hb Hr [Hsum Hz]. assert (0 ≤ r) by apply Hb.
    assert (inb (nonZerosPerCol w) r) by (destruct Hb as [[] ?]; unfold inb; lia).
    split; simpl.
    + rewrite sumZ_upd by done. rewrite Hz by lia. lia.
    + intros x Hx. rewrite rd_upd_ne by lia. apply Hz. lia.
  - intros r c w Hin Hc _ [Hsum Hz]. assert (Hr := ir_range _ _ _ Hin).
    assert (inb (nonZerosPerCol w) c) by (destruct Hin as [[] ?]; unfold inb; lia).
    split; simpl.
    + rewrite sumZ_upd by done. lia.
    + intros x Hx. rewrite rd_upd_ne by lia. apply Hz. lia.
  - intros r w Hin [Hsum Hz] _. split; [done|]. intros x Hx. apply Hz. lia.
  - split; simpl; [apply sumZ_replicate_0|].
    intros x Hx. unfold rd. rewrite lookup_total_replicate_2; [done|lia].
  - exists w. split_and!; [done|apply Hb|done].
Qed.

(** ** The Permutation Applier *)

Lemma copy_indices_all h n :
  Z.of_nat (length h) = n → copy_indices h n = Ok h.
Proof.
  intros <-. unfold copy_indices.
  assert (G : ∀ k acc, (k ≤ length h)%nat →
            forM (λ perm i, v ← load APermute h i; Ok (perm ++ [v])) acc
                 (seqZ (Z.of_nat (length h - k)) (Z.of_nat k)) =
            Ok (acc ++ drop (length h - k) h)).
  { induction k as [|k IH]; intros acc Hk.
    - rewrite seqZ_nil by lia. simpl. rewrite drop_ge by lia.
      by rewrite app_nil_r.
    - rewrite seqZ_cons by lia. cbn [forM].
      rewrite load_inb by (unfold inb; lia). simpl.
      replace (Z.succ (Z.of_nat (length h - S k)))
        with (Z.of_nat (length h - k)) by lia.
      replace (Z.pred (Z.of_nat (S k))) with (Z.of_nat k) by lia.
      rewrite IH by lia. f_equal. rewrite <- app_assoc. f_equal. simpl.
      unfold rd. rewrite Nat2Z.id.
      destruct (lookup_lt_is_Some_2 h (length h - S k)) as [x Hx]; [lia|].
      rewrite (list_lookup_total_correct _ _ _ Hx).
      rewrite (drop_S _ _ _ Hx). do 2 f_equal. lia. }
  specialize (G (length h) []). rewrite Nat.sub_diag in G.
  simpl in G. by apply G.
Qed.

Lemma permute_entry_mirror perm acc e :
  inb perm e.1 → inb perm e.2 →
  permute_entry perm acc e = Ok (acc ++ mirror perm e).
Proof.
  intros H1 H2. unfold permute_entry, mirror.
  rewrite !load_inb by done. simpl.
  destruct (decide (e.1 = e.2)); [done|].
  destruct (decide (e.2 < e.1)); [done|]. by rewrite app_nil_r.
Qed.

Lemma permute_entries perm es acc :
  Forall (λ e, inb perm e.1 ∧ inb perm e.2) es →
  forM (permute_entry perm) acc es = Ok (acc ++ (es ≫= mirror perm)).
Proof.
  intros Hes. revert acc. induction Hes as [|e es [H1 H2] _ IH]; intros acc.
  - simpl. by rewrite app_nil_r.
  - cbn [forM]. rewrite permute_entry_mirror by done. simpl.
    by rewrite IH, <- app_assoc.
Qed.

Lemma permute_symm_to_fullsymm_total n m perm :
  well_formed n m → index_map n perm →
  permute_symm_to_fullsymm m perm =
    Ok {| e_rows := n; e_entries := e_entries m ≫= mirror perm |}.
Proof.
  intros (Hrows & Hn & Hes) [Hlen Hperm]. unfold permute_symm_to_fullsymm.
  rewrite permute_entries.
  - simpl. by rewrite Hrows.
  - eapply Forall_impl; [done|]. unfold inb. intros e ?. simpl in *. lia.
Qed.

Lemma rd_index_map n perm i : index_map n perm → 0 ≤ i < n → 0 ≤ rd perm i < n.
Proof.
  intros [Hlen Hperm] Hi. rewrite Forall_forall in Hperm. apply Hperm.
  unfold rd. apply list_elem_of_lookup_total_2. lia.
Qed.

Lemma symmetric_swap m r c :
  symmetric m → (r, c) ∈ e_entries m → (c, r) ∈ e_entries m.
Proof.
  unfold symmetric. rewrite Forall_forall. intros Hs Hin. by apply (Hs _ Hin).
Qed.

Lemma well_formed_range n m r c :
  well_formed n m → (r, c) ∈ e_entries m → (0 ≤ r < n) ∧ (0 ≤ c < n).
Proof.
  intros (_ & _ & Hes). rewrite Forall_forall in Hes. intros Hin.
  by apply (Hes _ Hin).
Qed.

(** On a symmetric pattern the Permutation Applier relabels the positions. *)
Lemma mirror_symmetric n m perm a b :
  well_formed n m → symmetric m →
  (a, b) ∈ e_entries m ≫= mirror perm ↔
  ∃ r c, (r, c) ∈ e_entries m ∧ a = rd perm r ∧ b = rd perm c.
Proof.
  intros Hwf Hsym. rewrite list_elem_of_bind. split.
  - intros ([r c] & Hab & Hin). unfold mirror in Hab. simpl in Hab.
    destruct (decide (r = c)) as [->|Hne].
    + apply list_elem_of_singleton in Hab as [= -> ->]. by exists c, c.
    + destruct (decide (c < r)); [|by apply elem_of_nil in Hab].
      apply elem_of_cons in Hab as [[= -> ->]|Hab]; [by exists r, c|].
      apply list_elem_of_singleton in Hab as [= -> ->].
      exists c, r. split; [by apply symmetric_swap|done].
  - intros (r & c & Hin & -> & ->).
    destruct (decide (r = c)) as [->|Hne];
      [|destruct (decide (c < r))].
    + exists (c, c). split; [|done]. unfold mirror. simpl.
      rewrite decide_True by done. by apply list_elem_of_singleton.
    + exists (r, c). split; [|done]. unfold mirror. simpl.
      rewrite decide_False, decide_True by done. by left.
    + exists (c, r). split; [|by apply symmetric_swap]. unfold mirror. simpl.
      rewrite decide_False, decide_True by (done || lia). right. by left.
Qed.

Lemma rd_identity n i : 0 ≤ i < n → rd (identity n) i = i.
Proof. intros Hi. unfold identity. rewrite rd_seqZ by done. lia. Qed.

Lemma index_map_identity n : 0 ≤ n → index_map n (identity n).
Proof.
  intros Hn. split; unfold identity.
  - rewrite length_seqZ. lia.
  - apply Forall_seqZ. lia.
Qed.

Lemma mirror_identity n m a b :
  well_formed n m → symmetric m →
  (a, b) ∈ e_entries m ≫= mirror (identity n) ↔ (a, b) ∈ e_entries m.
Proof.
  intros Hwf Hsym. rewrite (mirror_symmetric n) by done. split.
  - intros (r & c & Hin & -> & ->).
    destruct (well_formed_range n m r c Hwf Hin).
    by rewrite !rd_identity.
  - intros Hin. exists a, b.
    destruct (well_formed_range n m a b Hwf Hin).
    by rewrite !rd_identity.
Qed.

Lemma elem_of_lower_row m k c :
  c ∈ lower_row m k ↔ (k, c) ∈ e_entries m ∧ c ≤ k.
Proof.
  unfold lower_row. rewrite list_elem_of_fmap. split.
  - intros ([r c'] & -> & [[Hr Hc] Hin]%list_elem_of_filter). simpl in *.
    by subst r.
  - intros [Hin Hc]. exists (k, c). split; [done|].
    apply list_elem_of_filter. by split.
Qed.

(** ** The permutation-taking route: failure of the backend *)

(** C4. Let the vector have as many entries as the matrix has rows (the
    assertion of line 59), and let the library return the permuted matrix
    and allot a factor with [k] nonzeros, [k] being a value of [int].  Then
    the call returns: -1 exactly when the status of the numeric
    factorization is not [Success], and exactly then it has emitted a
    diagnostic, one, and has not read the factor; when the status is
    [Success] it returns [k], which is not negative, and has emitted no
    diagnostic.  This holds for every behaviour of the library. *)
Theorem backend_failure_sentinel lib a permuted_mat k :
  Z.of_nat (length (h_permute a)) = e_rows (eigen_mat a) →
  lib_permute lib (eigen_mat a) (h_permute a) = Ok permuted_mat →
  lib_analyzePattern lib permuted_mat = Ok k → 0 ≤ k < 2 ^ 31 →
  ∃ v tr, count_nnz_fillin_perm lib a = Ok (v, a, tr) ∧
    (v = -1 ↔ lib_compute lib permuted_mat ≠ Success) ∧
    ((∃ code, Diagnostic code ∈ tr) ↔ lib_compute lib permuted_mat ≠ Success) ∧
    (lib_compute lib permuted_mat ≠ Success →
       v = -1 ∧ tr = [Diagnostic (lib_compute lib permuted_mat)] ∧
       ReadFactor ∉ tr) ∧
    (lib_compute lib permuted_mat = Success →
       v = k ∧ 0 ≤ v ∧ tr = [ReadFactor]).
Proof.
  intros Hlen Hpm Hk Hrange. unfold count_nnz_fillin_perm.
  rewrite decide_True by done. rewrite copy_indices_all by done.
  cbn [mbind result_bind]. rewrite Hpm. cbn [mbind result_bind].
  rewrite Hk. cbn [mbind result_bind info nonZeros].
  destruct (decide (lib_compute lib permuted_mat ≠ Success)) as [Hinfo|Hinfo].
  - exists (-1), [Diagnostic (lib_compute lib permuted_mat)].
    split_and!; [done|done| | |done].
    + split; [done|]. intros _. eexists. by apply list_elem_of_singleton.
    + intros _. split_and!; [done..|]. by intros [=]%list_elem_of_singleton.
  - assert (lib_compute lib permuted_mat = Success)
      by by destruct (decide (lib_compute lib permuted_mat = Success)).
    exists k, [ReadFactor]. split_and!; [done| | |done|].
    + split; [lia|done].
    + split; [|done]. by intros (code & [=]%list_elem_of_singleton).
    + intros _. split_and!; [done|lia|done].
Qed.

Lemma backend_failure_sentinel_witness :
  let a := path4_args in
  let pm := permuted (eigen_mat a) (h_permute a) in
  let failing := eigen (λ _, NumericalIssue) in
  let succeeding := eigen always_succeeds in
  (∃ v tr, count_nnz_fillin_perm failing a = Ok (v, a, tr) ∧
    (v = -1 ↔ lib_compute failing pm ≠ Success) ∧
    ((∃ code, Diagnostic code ∈ tr) ↔ lib_compute failing pm ≠ Success) ∧
    (lib_compute failing pm ≠ Success →
       v = -1 ∧ tr = [Diagnostic (lib_compute failing pm)] ∧
       ReadFactor ∉ tr) ∧
    (lib_compute failing pm = Success →
       v = 8 ∧ 0 ≤ v ∧ tr = [ReadFactor])) ∧
  (∃ v tr, count_nnz_fillin_perm succeeding a = Ok (v, a, tr) ∧
    (v = -1 ↔ lib_compute succeeding pm ≠ Success) ∧
    ((∃ code, Diagnostic code ∈ tr) ↔ lib_compute succeeding pm ≠ Success) ∧
    (lib_compute succeeding pm ≠ Success →
       v = -1 ∧ tr = [Diagnostic (lib_compute succeeding pm)] ∧
       ReadFactor ∉ tr) ∧
    (lib_compute succeeding pm = Success →
       v = 8 ∧ 0 ≤ v ∧ tr = [ReadFactor])).
Proof.
  intros a pm failing succeeding. split.
  - apply (backend_failure_sentinel failing a pm 8);
      [vm_compute; reflexivity..|lia].
  - apply (backend_failure_sentinel succeeding a pm 8);
      [vm_compute; reflexivity..|lia].
Defined.

(** ** The value of the permutation-taking route *)

Lemma permute_symm_to_fullsymm_permuted n m perm :
  well_formed n m → index_map n perm →
  permute_symm_to_fullsymm m perm = Ok (permuted m perm).
Proof.
  intros Hwf Hperm. rewrite (permute_symm_to_fullsymm_total n) by done.
  unfold permuted. by rewrite (proj1 Hwf).
Qed.

Lemma well_formed_permuted n m perm :
  well_formed n m → index_map n perm → well_formed n (permuted m perm).
Proof.
  intros Hwf Hperm. assert (Hwf' := Hwf). destruct Hwf' as (Hrows & Hn & Hes).
  split_and!; [done..|]. simpl. apply Forall_forall.
  intros [a b] ([r c] & Hab & Hin)%list_elem_of_bind.
  destruct (well_formed_range n m r c Hwf Hin) as [Hr Hc].
  assert (Hpr := rd_index_map n perm r Hperm Hr).
  assert (Hpc := rd_index_map n perm c Hperm Hc).
  unfold mirror in Hab. simpl in Hab.
  destruct (decide (r = c)) as [->|Hne].
  - by apply list_elem_of_singleton in Hab as [= -> ->].
  - destruct (decide (c < r)); [|by apply elem_of_nil in Hab].
    apply elem_of_cons in Hab as [[= -> ->]|Hab]; [done|].
    by apply list_elem_of_singleton in Hab as [= -> ->].
Qed.

Lemma lower_row_nonneg n m :
  well_formed n m → ∀ r, 0 ≤ r < n → Forall (λ c, 0 ≤ c) (lower_row m r).
Proof.
  intros Hwf r Hr. apply Forall_forall. intros c [Hin _]%elem_of_lower_row.
  destruct (well_formed_range n m r c Hwf Hin). lia.
Qed.

(** The route on a well-formed matrix and an index map: -1 with a
    diagnostic when the numeric factorization fails, otherwise the count of
    the factor, which is [nnz + n] for the analysis of the permuted matrix. *)
Lemma count_nnz_fillin_perm_value numeric n a :
  well_formed n (eigen_mat a) → index_map n (h_permute a) →
  let Q := permuted (eigen_mat a) (h_permute a) in
  ∃ w, analyse (Z.to_nat n) n (lower_row Q) = Ok w ∧ sized n w ∧
       sumZ (nonZerosPerCol w) = nnz w ∧ 0 ≤ nnz w ∧
       count_nnz_fillin_perm (eigen numeric) a =
         if decide (numeric Q ≠ Success)
         then Ok (-1, a, [Diagnostic (numeric Q)])
         else Ok (nnz w + n, a, [ReadFactor]).
Proof.
  intros Hwf Hperm Q.
  assert (HQ : well_formed n Q) by by apply well_formed_permuted.
  destruct (analyse_sum (Z.to_nat n) n (lower_row Q))
    as (w & Hw & Hs & Hsum); [apply Hwf|lia|by apply (lower_row_nonneg n)|].
  exists w. split_and!; [done..| |].
  { eapply (analyse_preserves (λ w, 0 ≤ nnz w)); [| |by simpl|done];
      simpl; intros; lia. }
  unfold count_nnz_fillin_perm.
  rewrite decide_True by (rewrite (proj1 Hwf); apply Hperm).
  rewrite copy_indices_all by (rewrite (proj1 Hwf); apply Hperm). simpl.
  rewrite (permute_symm_to_fullsymm_permuted n) by done. simpl.
  fold Q. unfold analyzePattern. rewrite (proj1 HQ), Hw. simpl.
  rewrite sumZ_succ, Hsum, (len_nonZerosPerCol _ _ Hs).
  by destruct (decide (numeric Q ≠ Success)).
Qed.

Lemma success_branch {A} (i : ComputationInfo) (x y : A) :
  i = Success → (if decide (i ≠ Success) then x else y) = y.
Proof. intros ->. by rewrite decide_False by (by intros ?). Qed.

(** ** Cross-route agreement *)

(** C1. The two routes do not return the same count.  On the path
    0 - 1 - 2 - 3 relabelled by [1; 3; 0; 2] the backend succeeds and the
    permutation-taking route returns 8, the 4 entries of the factor below
    the diagonal plus its 4 diagonal entries (line 100), while the symbolic
    route on the relabelled pattern returns 12, the entries below the
    diagonal counted twice plus the diagonal (line 157).  The formula of
    line 157 is the one lines 103-111 of the permutation-taking route keep
    in a comment. *)
Lemma routes_disagree_relabelled_path :
  valid_csr path4_relabelled ∧
  same_pattern path4_relabelled
    (permuted (eigen_mat path4_args) (h_permute path4_args)) ∧
  symmetric (permuted (eigen_mat path4_args) (h_permute path4_args)) ∧
  count_nnz_fillin_perm (eigen always_succeeds) path4_args
    = Ok (8, path4_args, [ReadFactor]) ∧
  count_nnz_fillin path4_relabelled = Ok 12 ∧
  Int32.count_nnz_fillin path4_relabelled = Ok 12.
Proof.
  split_and!; try (vm_compute; reflexivity);
    refine (bool_decide_unpack _ _); vm_compute; exact I.
Qed.

(** ** Identity permutation *)

(** C2. With the identity permutation the two routes do not return the same
    count either: on the path 0 - 1 - 2 - 3 the backend succeeds and the
    permutation-taking route returns 7 (3 entries of the factor below the
    diagonal plus 4 diagonal entries), the symbolic route 10 (twice 3 plus
    4). *)
Lemma identity_route_disagrees_path :
  valid_csr path4 ∧ symmetric path4_eigen ∧ same_pattern path4 path4_eigen ∧
  count_nnz_fillin_perm (eigen always_succeeds)
      {| eigen_mat := path4_eigen; h_permute := identity 4 |}
    = Ok (7, {| eigen_mat := path4_eigen; h_permute := identity 4 |},
          [ReadFactor]) ∧
  count_nnz_fillin path4 = Ok 10 ∧
  Int32.count_nnz_fillin path4 = Ok 10.
Proof.
  split_and!; try (vm_compute; reflexivity);
    refine (bool_decide_unpack _ _); vm_compute; exact I.
Qed.

(** ** Relabelling *)

Lemma symmetric_permuted n m perm :
  well_formed n m → symmetric m → symmetric (permuted m perm).
Proof.
  intros Hwf Hsym. unfold symmetric. apply Forall_forall. intros [a b] Hab.
  simpl in *. apply (mirror_symmetric n) in Hab as (r & c & Hin & -> & ->);
    [|done..].
  apply (mirror_symmetric n); [done..|].
  exists c, r. split; [by apply symmetric_swap|done].
Qed.

(** Relabelling a symmetric pattern and relabelling it back gives the
    positions one started from. *)
Lemma permuted_inverse n m perm pinv a b :
  well_formed n m → symmetric m → index_map n perm →
  inverse_of n perm pinv →
  (a, b) ∈ e_entries (permuted (permuted m perm) pinv) ↔ (a, b) ∈ e_entries m.
Proof.
  intros Hwf Hsym Hperm Hinv. unfold inverse_of in Hinv.
  rewrite Forall_seqZ in Hinv. simpl.
  change (e_entries m ≫= mirror perm) with (e_entries (permuted m perm)).
  rewrite (mirror_symmetric n);
    [|by apply well_formed_permuted|by apply (symmetric_permuted n)].
  split.
  - intros (r' & c' & Hin' & -> & ->). simpl in Hin'.
    apply (mirror_symmetric n) in Hin' as (r & c & Hin & -> & ->); [|done..].
    destruct (well_formed_range n m r c Hwf Hin).
    by rewrite !Hinv by lia.
  - intros Hin. destruct (well_formed_range n m a b Hwf Hin).
    exists (rd perm a), (rd perm b). split_and!.
    + simpl. apply (mirror_symmetric n); [done..|]. by exists a, b.
    + by rewrite Hinv by lia.
    + by rewrite Hinv by lia.
Qed.

(** C7. Let [P] be a symmetric pattern, [pi] a permutation of its indices
    and [pinv] the inverse of [pi].  Relabel [P] by [pi] (with the
    Permutation Applier) and give the result to the permutation-taking
    route together with [pinv]; give [P] itself to the route together with
    the identity.  When the backend succeeds in both calls, both return the
    same count. *)
Theorem relabelling_invariance numeric n P pi pinv :
  well_formed n P → symmetric P →
  index_map n pi → index_map n pinv → inverse_of n pi pinv →
  numeric (permuted (permuted P pi) pinv) = Success →
  numeric (permuted P (identity n)) = Success →
  let a1 := {| eigen_mat := permuted P pi; h_permute := pinv |} in
  let a2 := {| eigen_mat := P; h_permute := identity n |} in
  permute_symm_to_fullsymm P pi = Ok (permuted P pi) ∧
  ∃ k, count_nnz_fillin_perm (eigen numeric) a1 = Ok (k, a1, [ReadFactor]) ∧
       count_nnz_fillin_perm (eigen numeric) a2 = Ok (k, a2, [ReadFactor]).
Proof.
  intros Hwf Hsym Hpi Hpinv Hinv Hok1 Hok2 a1 a2.
  split; [by apply (permute_symm_to_fullsymm_permuted n)|].
  assert (Hwf1 : well_formed n (permuted P pi)) by by apply well_formed_permuted.
  assert (Hid : index_map n (identity n)) by apply index_map_identity, Hwf.
  destruct (count_nnz_fillin_perm_value numeric n a1 Hwf1 Hpinv)
    as (w1 & Hw1 & _ & _ & _ & Hroute1).
  destruct (count_nnz_fillin_perm_value numeric n a2 Hwf Hid)
    as (w2 & Hw2 & _ & _ & _ & Hroute2).
  simpl in Hw1, Hw2, Hroute1, Hroute2.
  rewrite (success_branch _ _ _ Hok1) in Hroute1.
  rewrite (success_branch _ _ _ Hok2) in Hroute2.
  destruct (analyse_ext (Z.to_nat n) (Z.to_nat n) n
              (lower_row (permuted (permuted P pi) pinv))
              (lower_row (permuted P (identity n))))
    as (w1' & w2' & Hw1' & Hw2' & Ecore).
  - apply Hwf.
  - lia.
  - lia.
  - apply (lower_row_nonneg n). by apply well_formed_permuted.
  - apply (lower_row_nonneg n). by apply well_formed_permuted.
  - intros r c Hc Hr. rewrite !elem_of_lower_row.
    rewrite (permuted_inverse n) by done.
    change (e_entries (permuted P (identity n)))
      with (e_entries P ≫= mirror (identity n)).
    by rewrite (mirror_identity n).
  - rewrite Hw1 in Hw1'. rewrite Hw2 in Hw2'.
    injection Hw1' as <-. injection Hw2' as <-.
    injection Ecore as _ _ _ Ez.
    exists (nnz w1 + n). split; [done|]. by rewrite Ez.
Qed.

Lemma relabelling_invariance_witness :
  let a1 := {| eigen_mat := permuted path4_eigen [1; 3; 0; 2];
               h_permute := [2; 0; 3; 1] |} in
  let a2 := {| eigen_mat := path4_eigen; h_permute := identity 4 |} in
  permute_symm_to_fullsymm path4_eigen [1; 3; 0; 2]
    = Ok (permuted path4_eigen [1; 3; 0; 2]) ∧
  ∃ k, count_nnz_fillin_perm (eigen always_succeeds) a1 = Ok (k, a1, [ReadFactor]) ∧
       count_nnz_fillin_perm (eigen always_succeeds) a2 = Ok (k, a2, [ReadFactor]).
Proof.
  apply (relabelling_invariance always_succeeds 4 path4_eigen
           [1; 3; 0; 2] [2; 0; 3; 1]);
    try reflexivity;
    refine (bool_decide_unpack _ _); vm_compute; exact I.
Defined.

(** ** The count is at least the number of stored positions *)

Lemma elem_of_positions m r c :
  (r, c) ∈ positions m ↔ 0 ≤ r < rows m ∧ c ∈ row_cols m r.
Proof.
  unfold positions. rewrite elem_of_list_to_set, list_elem_of_bind. split.
  - intros (r' & Hc & Hr'). apply elem_of_seqZ in Hr'.
    apply list_elem_of_fmap in Hc as (c' & [= -> ->] & Hc'). split; [lia|done].
  - intros [Hr Hc]. exists r. split; [|apply elem_of_seqZ; lia].
    apply list_elem_of_fmap. by exists c.
Qed.




(** * Further properties of the code *)

(** ** The domain of the symbolic route *)

Lemma forM_Ok_each {A S} (P : S → Prop) (body : S → A → result S) l s s' x :
  (∀ s x s', P s → body s x = Ok s' → P s') →
  P s → forM body s l = Ok s' → x ∈ l →
  ∃ s1 s2, P s1 ∧ body s1 x = Ok s2.
Proof.
  intros Hbody. revert s. induction l as [|y l IH]; intros s HP H Hx.
  - by apply elem_of_nil in Hx.
  - cbn [forM] in H. apply bind_Ok in H as (s1 & Hs1 & H).
    apply elem_of_cons in Hx as [->|Hx]; [by eauto|].
    eapply IH; [|done..]. by eapply Hbody.
Qed.

Lemma walk_Ok_nonneg fuel r c w w' : walk fuel r c w = Ok w' → 0 ≤ c.
Proof.
  rewrite walk_unfold. intros (t & Ht & _)%bind_Ok.
  apply load_Ok in Ht as [[? _] _]. done.
Qed.

Lemma scan_entries_visit fuel m r w l :
  Forall (λ i, inb (col_idx m) i) l →
  forM (scan_entry fuel r) {| mat := m; locals := w |} l =
    (w' ← forM (visit fuel r) w ((λ i, rd (col_idx m) i) <$> l);
     Ok {| mat := m; locals := w' |}).
Proof.
  intros Hl. revert w. induction Hl as [|i l Hi _ IH]; intros w; [done|].
  rewrite fmap_cons. cbn [forM]. rewrite scan_entry_visit by done.
  destruct (visit fuel r w (rd (col_idx m) i)) as [w1|e]; simpl; [|done].
  apply IH.
Qed.

Lemma scannable_row m r :
  scannable m → 0 ≤ r < rows m →
  inb (row_ptr m) r ∧ inb (row_ptr m) (r + 1) ∧
  Forall (λ i, inb (col_idx m) i ∧ 0 ≤ rd (col_idx m) i) (row_range m r).
Proof.
  intros [_ Hrows] Hr. rewrite Forall_seqZ in Hrows. apply Hrows. lia.
Qed.

Lemma scannable_nonneg m :
  scannable m → ∀ r, 0 ≤ r < rows m → Forall (λ c, 0 ≤ c) (row_cols m r).
Proof.
  intros Hs r Hr. destruct (scannable_row m r Hs Hr) as (_ & _ & Hcols).
  unfold row_cols. apply Forall_fmap. eapply Forall_impl; [exact Hcols|].
  by intros i [_ ?].
Qed.

Lemma process_row_scannable fuel m r w :
  scannable m → 0 ≤ r < rows m →
  process_row fuel {| mat := m; locals := w |} r =
    (w' ← process_cols fuel r w (row_cols m r); Ok {| mat := m; locals := w' |}).
Proof.
  intros Hs Hr. destruct (scannable_row m r Hs Hr) as (H1 & H2 & Hcols).
  unfold process_row, process_cols. simpl.
  destruct (init_row r w) as [w1|e]; simpl; [|done].
  rewrite !load_inb by done. simpl.
  apply scan_entries_visit. eapply Forall_impl; [exact Hcols|]. by intros i [? _].
Qed.

Lemma rows_scannable fuel m w r k :
  scannable m → 0 ≤ r → Z.of_nat k = rows m - r →
  forM (process_row fuel) {| mat := m; locals := w |} (seqZ r (rows m - r)) =
    (w' ← forM (λ w r, process_cols fuel r w (row_cols m r)) w
              (seqZ r (rows m - r));
     Ok {| mat := m; locals := w' |}).
Proof.
  intros Hs. revert r w. induction k as [|k IH]; intros r w Hr Hk.
  - by rewrite seqZ_nil by lia.
  - rewrite seqZ_cons by lia. cbn [forM].
    rewrite process_row_scannable by (done || lia).
    destruct (process_cols fuel r w (row_cols m r)) as [w1|e]; simpl; [|done].
    replace (Z.succ r) with (r + 1) by lia.
    replace (Z.pred (rows m - r)) with (rows m - (r + 1)) by lia.
    apply IH; lia.
Qed.

(** On a scannable matrix the call is the analysis of its rows. *)
Lemma count_nnz_fillin_run_scannable fuel m :
  scannable m →
  count_nnz_fillin_run fuel m =
    (w ← analyse fuel (rows m) (row_cols m);
     Ok (2 * nnz w + rows m, {| mat := m; locals := w |})).
Proof.
  intros Hs. unfold count_nnz_fillin_run, analyse.
  assert (0 ≤ rows m) by apply Hs. rewrite decide_False by lia.
  replace (seqZ 0 (rows m)) with (seqZ 0 (rows m - 0)) by (f_equal; lia).
  rewrite (rows_scannable fuel m _ 0 (Z.to_nat (rows m))) by (done || lia).
  by destruct (forM _ _ _).
Qed.

Lemma valid_csr_scannable m : valid_csr m → scannable m.
Proof.
  intros Hv. assert (Hv' := Hv).
  destruct Hv' as (Hn & Hlen & Hlo & Hmono & Hhi & Hcols).
  split; [done|]. apply Forall_seqZ. intros r Hr.
  split_and!; [unfold inb; lia..|].
  assert (rd (row_ptr m) 0 ≤ rd (row_ptr m) r) by (apply row_ptr_mono; (done || lia)).
  assert (rd (row_ptr m) (r + 1) ≤ rd (row_ptr m) (rows m))
    by (apply row_ptr_mono; (done || lia)).
  apply Forall_seqZ. intros i Hi.
  assert (Hin : inb (col_idx m) i) by (unfold inb; lia).
  split; [done|]. rewrite Forall_forall in Hcols.
  assert (0 ≤ rd (col_idx m) i < rows m); [|lia].
  apply Hcols. unfold rd. apply list_elem_of_lookup_total_2.
  unfold inb in Hin. lia.
Qed.

(** Reading a run that returns backwards: every access it made was inside
    its array. *)
Lemma visit_Ok_nonneg fuel r w c w' :
  visit fuel r w c = Ok w' → 0 ≤ r → 0 ≤ c.
Proof.
  unfold visit. case_decide as Hlt; [|lia]. intros H _.
  by eapply walk_Ok_nonneg.
Qed.

Lemma process_row_Ok_scanned fuel m w r s' :
  process_row fuel {| mat := m; locals := w |} r = Ok s' → 0 ≤ r →
  inb (row_ptr m) r ∧ inb (row_ptr m) (r + 1) ∧
  Forall (λ i, inb (col_idx m) i ∧ 0 ≤ rd (col_idx m) i) (row_range m r).
Proof.
  unfold process_row. simpl. intros (w1 & _ & H)%bind_Ok Hr.
  apply bind_Ok in H as (start & Hstart & H).
  apply bind_Ok in H as (end_ & Hend & H).
  apply load_Ok in Hstart as [H1 ->]. apply load_Ok in Hend as [H2 ->].
  split_and!; [done..|]. apply Forall_forall. intros i Hi.
  assert (Hbody : ∀ s0 x s0', mat s0 = m → scan_entry fuel r s0 x = Ok s0' →
                    mat s0' = m).
  { intros s0 x s0' E0 E1. rewrite <- E0. by eapply scan_entry_mat. }
  destruct (forM_Ok_each (λ s, mat s = m) (scan_entry fuel r) _
              {| mat := m; locals := w1 |} _ i Hbody eq_refl H Hi)
    as (s1 & s2 & Hm & Hs).
  unfold scan_entry in Hs. rewrite Hm in Hs.
  apply bind_Ok in Hs as (c & Hc & Hs). apply load_Ok in Hc as [Hin ->].
  apply bind_Ok in Hs as (w2 & Hw2 & _).
  split; [done|]. by eapply visit_Ok_nonneg.
Qed.

(** X1. With [rows] iterations allowed per walk, the symbolic route returns
    exactly on the scannable matrices: [rows] is not negative and, for every
    row, the two entries of [row_ptr] exist, the positions between them
    exist in [col_idx] and hold no negative column.  A run that returns has
    made no access outside an array, and neither an unordered [row_ptr] nor a
    column at or beyond [rows] stops it. *)
Theorem returns_iff_scannable m fuel :
  rows m ≤ Z.of_nat fuel →
  (∃ v s, count_nnz_fillin_run fuel m = Ok (v, s)) ↔ scannable m.
Proof.
  intros Hf. split.
  - intros (v & s & H). unfold count_nnz_fillin_run in H.
    case_decide as Hn; [done|].
    apply bind_Ok in H as (s1 & Hs1 & _).
    split; [lia|]. apply Forall_forall. intros r Hr.
    assert (Hbody : ∀ s0 x s0', mat s0 = m →
                      process_row fuel s0 x = Ok s0' → mat s0' = m).
    { intros s0 x s0' E0 E1. rewrite <- E0. by eapply process_row_mat. }
    destruct (forM_Ok_each (λ s, mat s = m) (process_row fuel) _
                {| mat := m; locals := fresh_work (rows m) |} _ r
                Hbody eq_refl Hs1 Hr) as ([m0 w0] & s2 & Hm & Hs).
    simpl in Hm. subst m0. apply elem_of_seqZ in Hr.
    eapply process_row_Ok_scanned; [done|lia].
  - intros Hs. rewrite count_nnz_fillin_run_scannable by done.
    destruct (analyse_total (rows m) (row_cols m) (λ _ _, True) (λ _ _, True)
                (scannable_nonneg m Hs)) with (fuel := fuel)
      as (w & Hw & _); try done; [apply Hs|].
    rewrite Hw. simpl. by eauto.
Qed.

Lemma returns_iff_scannable_witness :
  (∃ v s, count_nnz_fillin_run 4 path4_shuffled = Ok (v, s))
  ↔ scannable path4_shuffled.
Proof. apply (returns_iff_scannable path4_shuffled 4). simpl. lia. Defined.

(** ** What the symbolic route looks at *)

(** X2. The value the symbolic route returns depends only on which columns
    left of the diagonal each row stores: two scannable matrices of the
    same dimension whose rows hold the same such columns get the same
    value, whatever the order of the columns, their repetitions, and what
    is stored on or above the diagonal. *)
Theorem count_depends_on_lower_sets m1 m2 :
  scannable m1 → scannable m2 → rows m1 = rows m2 →
  same_lower_columns m1 m2 →
  ∃ v, count_nnz_fillin m1 = Ok v ∧ count_nnz_fillin m2 = Ok v.
Proof.
  intros Hs1 Hs2 Hrows Hsame. assert (0 ≤ rows m1) by apply Hs1.
  unfold same_lower_columns in Hsame. rewrite Forall_seqZ in Hsame.
  assert (Hsame' : ∀ r c, 0 ≤ c < r → r < rows m1 →
            c ∈ row_cols m1 r ↔ c ∈ row_cols m2 r).
  { intros r c Hc Hr. specialize (Hsame r). rewrite Forall_seqZ in Hsame.
    apply Hsame; lia. }
  destruct (analyse_ext (Z.to_nat (rows m1)) (Z.to_nat (rows m2)) (rows m1)
              (row_cols m1) (row_cols m2))
    as (w1 & w2 & Hw1 & Hw2 & Ecore); [done|lia|lia| | |done|].
  - by apply scannable_nonneg.
  - rewrite Hrows. by apply scannable_nonneg.
  - injection Ecore as _ _ _ Ez. exists (2 * nnz w1 + rows m1).
    unfold count_nnz_fillin, count_nnz_fillin_fuel.
    rewrite !count_nnz_fillin_run_scannable by done.
    rewrite <- Hrows at 2. rewrite Hw1, Hw2. simpl.
    by rewrite Ez, Hrows.
Qed.

Lemma count_depends_on_lower_sets_witness :
  ∃ v, count_nnz_fillin path4 = Ok v ∧ count_nnz_fillin path4_shuffled = Ok v.
Proof.
  apply (count_depends_on_lower_sets path4 path4_shuffled);
    try reflexivity;
    refine (bool_decide_unpack _ _); vm_compute; exact I.
Defined.

(** ** The range of the value returned *)

(** On the integers the count lies between [rows] and [rows * rows]: every
    mark is a position left of the diagonal and no position is marked
    twice, so at most [rows * (rows - 1) / 2] marks are counted. *)
Lemma count_between_rows_and_square m :
  scannable m →
  ∃ v, count_nnz_fillin m = Ok v ∧ rows m ≤ v ≤ rows m * rows m.
Proof.
  intros Hs. assert (Hn : 0 ≤ rows m) by apply Hs.
  destruct (analyse_marks (Z.to_nat (rows m)) (rows m) (row_cols m))
    as (w & Hw & Hlen & Hnd & _); [done|lia|by apply scannable_nonneg|].
  set (P := λ (_ : Z) (w : work),
         ∀ p, p ∈ walk_marks w → 0 ≤ p.2 < p.1 ∧ p.1 < rows m).
  destruct (analyse_total (rows m) (row_cols m) P P (scannable_nonneg m Hs))
    with (fuel := Z.to_nat (rows m)) as (w' & Hw' & _ & Hrange);
    try done; try lia.
  - intros r c w0 Hin Hc _ HP p. simpl.
    intros [Hp| ->%list_elem_of_singleton]%elem_of_app; [by apply HP|].
    assert (Hr := ir_range _ _ _ Hin). simpl. lia.
  - by intros p ?%elem_of_nil.
  - rewrite Hw in Hw'. injection Hw' as <-.
    exists (2 * nnz w + rows m). split.
    { unfold count_nnz_fillin, count_nnz_fillin_fuel.
      by rewrite count_nnz_fillin_run_scannable, Hw by done. }
    assert (Hle : (length (walk_marks w)
                   ≤ length (lower_triangle (rows m)))%nat).
    { apply submseteq_length, NoDup_submseteq; [done|].
      intros [r c] Hp. apply elem_of_lower_triangle.
      destruct (Hrange _ Hp). simpl in *. lia. }
    assert (Htri := length_lower_triangle (Z.to_nat (rows m))).
    rewrite Z2Nat.id in Htri by done. nia.
Qed.

(** With at most 46340 rows the count fits [int]. *)
Lemma count_fits_int_small m :
  scannable m → rows m ≤ 46340 → count_fits_int m.
Proof.
  intros Hs Hn. destruct (count_between_rows_and_square m Hs) as (v & Hv & Hr).
  unfold count_fits_int. rewrite Hv. assert (0 ≤ rows m) by apply Hs.
  assert (rows m * rows m ≤ 46340 * 46340) by nia. lia.
Qed.

(** ** The symbolic route on 32-bit [int] *)

Lemma wrap_int_spec x : ∃ k, wrap_int x = x + k * 2 ^ 32.
Proof.
  exists (- ((x + 2 ^ 31) / 2 ^ 32)). unfold wrap_int.
  assert (H := Z.div_mod (x + 2 ^ 31) (2 ^ 32) ltac:(lia)). lia.
Qed.

Lemma wrap_int_shift x k : wrap_int (x + k * 2 ^ 32) = wrap_int x.
Proof.
  unfold wrap_int. f_equal.
  replace (x + k * 2 ^ 32 + 2 ^ 31) with (x + 2 ^ 31 + k * 2 ^ 32) by lia.
  apply Z_mod_plus_full.
Qed.

Lemma wrap_int_small x : - 2 ^ 31 ≤ x < 2 ^ 31 → wrap_int x = x.
Proof. intros Hx. unfold wrap_int. rewrite Z.mod_small; lia. Qed.

Lemma wrap_int_add_l a b : wrap_int (wrap_int a + b) = wrap_int (a + b).
Proof.
  destruct (wrap_int_spec a) as [k ->].
  replace (a + k * 2 ^ 32 + b) with (a + b + k * 2 ^ 32) by lia.
  apply wrap_int_shift.
Qed.

Lemma wrap_int_double a b :
  wrap_int (wrap_int (2 * wrap_int a) + b) = wrap_int (2 * a + b).
Proof.
  rewrite wrap_int_add_l. destruct (wrap_int_spec a) as [k ->].
  replace (2 * (a + k * 2 ^ 32) + b) with (2 * a + b + (2 * k) * 2 ^ 32) by lia.
  apply wrap_int_shift.
Qed.

Lemma load_fmap a (f : Z → Z) l i :
  load a (f <$> l) i = rmap f (load a l i).
Proof.
  unfold load. case_decide; [|done]. rewrite list_lookup_fmap.
  by destruct (l !! Z.to_nat i).
Qed.

Lemma store_fmap a (f : Z → Z) l i v :
  store a (f <$> l) i (f v) = rmap (fmap f) (store a l i v).
Proof.
  unfold store. rewrite length_fmap. case_decide; [|done]. simpl.
  by rewrite list_fmap_insert.
Qed.

Lemma store_parent_to_int c v w :
  store_parent c v (to_int w) = rmap to_int (store_parent c v w).
Proof.
  unfold store_parent. change (parent (to_int w)) with (parent w).
  by destruct (store AParent (parent w) c v).
Qed.

Lemma store_tags_to_int c v w :
  store_tags c v (to_int w) = rmap to_int (store_tags c v w).
Proof.
  unfold store_tags. change (tags (to_int w)) with (tags w).
  by destruct (store ATags (tags w) c v).
Qed.

Lemma store_nonZerosPerCol_to_int c v w :
  store_nonZerosPerCol c (wrap_int v) (to_int w)
    = rmap to_int (store_nonZerosPerCol c v w).
Proof.
  unfold store_nonZerosPerCol.
  change (nonZerosPerCol (to_int w)) with (wrap_int <$> nonZerosPerCol w).
  rewrite store_fmap.
  by destruct (store ANonZerosPerCol (nonZerosPerCol w) c v).
Qed.

(** One iteration of the walk on [int] is the iteration on the integers,
    counters wrapped. *)
Lemma walk_body_to_int r c w :
  Int32.walk_body r c (to_int w)
    = rmap (λ cw, (cw.1, to_int cw.2)) (walk_body r c w).
Proof.
  unfold Int32.walk_body, walk_body.
  change (parent (to_int w)) with (parent w).
  destruct (load AParent (parent w) c) as [p|e]; [|done].
  cbn [mbind result_bind].
  assert (H1 : (if decide (p = -1) then store_parent c r (to_int w)
                else Ok (to_int w))
               = rmap to_int (if decide (p = -1) then store_parent c r w
                              else Ok w)).
  { case_decide; [apply store_parent_to_int|done]. }
  rewrite H1.
  destruct (if decide (p = -1) then store_parent c r w else Ok w)
    as [w1|e]; [|done].
  cbn [mbind result_bind rmap].
  change (nonZerosPerCol (to_int w1)) with (wrap_int <$> nonZerosPerCol w1).
  rewrite load_fmap.
  destruct (load ANonZerosPerCol (nonZerosPerCol w1) c) as [k|e]; [|done].
  cbn [mbind result_bind rmap].
  rewrite wrap_int_add_l, store_nonZerosPerCol_to_int.
  destruct (store_nonZerosPerCol c (k + 1) w1) as [w2|e]; [|done].
  cbn [mbind result_bind rmap].
  assert (H2 : note_mark r c (Int32.incr_nnz (to_int w2))
               = to_int (note_mark r c (incr_nnz w2))).
  { unfold to_int, note_mark, Int32.incr_nnz, incr_nnz.
    cbn [parent nonZerosPerCol tags nnz parent_writes walk_marks].
    by rewrite wrap_int_add_l. }
  rewrite H2, store_tags_to_int.
  destruct (store_tags c r (note_mark r c (incr_nnz w2))) as [w3|e]; [|done].
  cbn [mbind result_bind rmap].
  change (parent (to_int w3)) with (parent w3).
  by destruct (load AParent (parent w3) c).
Qed.

Lemma walk_to_int fuel r c w :
  Int32.walk fuel r c (to_int w) = rmap to_int (walk fuel r c w).
Proof.
  revert c w. induction fuel as [|fuel IH]; intros c w; cbn [Int32.walk walk];
    change (tags (to_int w)) with (tags w);
    destruct (load ATags (tags w) c) as [t|e]; try done;
    cbn [mbind result_bind]; case_decide; try done.
  rewrite walk_body_to_int.
  destruct (walk_body r c w) as [[c' w']|e]; [|done].
  cbn [mbind result_bind rmap fst snd]. apply IH.
Qed.

Lemma visit_to_int fuel r w c :
  Int32.visit fuel r (to_int w) c = rmap to_int (visit fuel r w c).
Proof. unfold Int32.visit, visit. case_decide; [apply walk_to_int|done]. Qed.

Lemma scan_entry_to_int fuel r s i :
  Int32.scan_entry fuel r (to_int_state s) i
    = rmap to_int_state (scan_entry fuel r s i).
Proof.
  unfold Int32.scan_entry, scan_entry.
  change (mat (to_int_state s)) with (mat s).
  destruct (load AColIdx (col_idx (mat s)) i) as [c|e]; [|done].
  cbn [mbind result_bind].
  change (locals (to_int_state s)) with (to_int (locals s)).
  rewrite visit_to_int. by destruct (visit fuel r (locals s) c).
Qed.

Lemma init_row_to_int r w :
  init_row r (to_int w) = rmap to_int (init_row r w).
Proof.
  unfold init_row. rewrite store_parent_to_int.
  destruct (store_parent r (-1) w) as [w1|e]; [|done].
  cbn [mbind result_bind rmap]. rewrite store_tags_to_int.
  destruct (store_tags r r w1) as [w2|e]; [|done].
  cbn [mbind result_bind rmap]. apply (store_nonZerosPerCol_to_int r 0).
Qed.

Lemma forM_rmap {A S} (g : S → S) (body body' : S → A → result S) :
  (∀ s x, body' (g s) x = rmap g (body s x)) →
  ∀ l s, forM body' (g s) l = rmap g (forM body s l).
Proof.
  intros Hbody l. induction l as [|x l IH]; intros s; [done|].
  cbn [forM]. rewrite Hbody. destruct (body s x) as [s'|e]; [|done].
  cbn [mbind result_bind rmap]. apply IH.
Qed.

Lemma process_row_to_int fuel s r :
  Int32.process_row fuel (to_int_state s) r
    = rmap to_int_state (process_row fuel s r).
Proof.
  unfold Int32.process_row, process_row.
  change (locals (to_int_state s)) with (to_int (locals s)).
  change (mat (to_int_state s)) with (mat s).
  rewrite init_row_to_int.
  destruct (init_row r (locals s)) as [w|e]; [|done].
  cbn [mbind result_bind rmap].
  destruct (load ARowPtr (row_ptr (mat s)) r) as [a|e]; [|done].
  cbn [mbind result_bind].
  destruct (load ARowPtr (row_ptr (mat s)) (r + 1)) as [b|e]; [|done].
  cbn [mbind result_bind].
  apply (forM_rmap to_int_state (scan_entry fuel r) (Int32.scan_entry fuel r)
           (scan_entry_to_int fuel r) _ {| mat := mat s; locals := w |}).
Qed.

Lemma to_int_fresh_work n : to_int (fresh_work n) = fresh_work n.
Proof. unfold to_int, fresh_work. simpl. by rewrite fmap_replicate. Qed.

(** The whole call on [int]: it fails where the call on the integers does,
    and otherwise ends with the same vectors and history, the counters and
    the value returned being those of the integers wrapped. *)
Lemma count_nnz_fillin_run_to_int fuel m :
  Int32.count_nnz_fillin_run fuel m
    = rmap (λ p, (wrap_int p.1, to_int_state p.2)) (count_nnz_fillin_run fuel m).
Proof.
  unfold Int32.count_nnz_fillin_run, count_nnz_fillin_run.
  case_decide; [done|].
  assert (Hsim := forM_rmap to_int_state (process_row fuel)
                 (Int32.process_row fuel) (process_row_to_int fuel)
                 (seqZ 0 (rows m))
                 {| mat := m; locals := fresh_work (rows m) |}).
  unfold to_int_state at 1 in Hsim. cbn [mat locals] in Hsim.
  rewrite to_int_fresh_work in Hsim. rewrite Hsim.
  destruct (forM (process_row fuel) _ _) as [s|e]; [|done].
  cbn [mbind result_bind rmap fst snd].
  change (nnz (locals (to_int_state s))) with (wrap_int (nnz (locals s))).
  change (mat (to_int_state s)) with (mat s).
  by rewrite wrap_int_double.
Qed.

Lemma count_nnz_fillin_to_int m :
  Int32.count_nnz_fillin m = rmap wrap_int (count_nnz_fillin m).
Proof.
  unfold Int32.count_nnz_fillin, count_nnz_fillin, count_nnz_fillin_fuel.
  rewrite count_nnz_fillin_run_to_int.
  by destruct (count_nnz_fillin_run _ m) as [[v s]|e].
Qed.

(** When the count fits [int], the call on [int] returns it. *)
Lemma int32_returns_count m v :
  scannable m → count_fits_int m → count_nnz_fillin m = Ok v →
  Int32.count_nnz_fillin m = Ok v.
Proof.
  intros Hs Hfit Hv. rewrite count_nnz_fillin_to_int, Hv. simpl.
  destruct (count_between_rows_and_square m Hs) as (v' & Hv' & Hr).
  rewrite Hv in Hv'. injection Hv' as <-.
  unfold count_fits_int in Hfit. rewrite Hv in Hfit.
  assert (0 ≤ rows m) by apply Hs. by rewrite wrap_int_small by lia.
Qed.

(** X16. The call on 32-bit [int] returns what the call on the integers
    returns, wrapped into the range of [int], and fails where that call
    fails; on a scannable matrix whose count fits [int] the two calls return
    the same value. *)
Theorem int32_count_is_wrapped_count m :
  Int32.count_nnz_fillin m = rmap wrap_int (count_nnz_fillin m) ∧
  (scannable m → count_fits_int m →
   Int32.count_nnz_fillin m = count_nnz_fillin m).
Proof.
  split; [apply count_nnz_fillin_to_int|]. intros Hs Hfit.
  destruct (count_between_rows_and_square m Hs) as (v & Hv & _).
  rewrite Hv. by apply int32_returns_count.
Qed.

(** ** The value returned when the count fits [int] *)






(** X3. On a scannable matrix with at most 46340 rows the symbolic route,
    on the integers and on 32-bit [int] alike, returns a value between
    [rows] and [rows * rows], which is below [2 ^ 31]: with so few rows no
    [int] of the call can overflow. *)
Theorem result_between_rows_and_square m :
  scannable m → rows m ≤ 46340 →
  ∃ v, count_nnz_fillin m = Ok v ∧ Int32.count_nnz_fillin m = Ok v ∧
       rows m ≤ v ≤ rows m * rows m ∧ v < 2 ^ 31 ∧ count_fits_int m.
Proof.
  intros Hs Hn. destruct (count_between_rows_and_square m Hs) as (v & Hv & Hr).
  assert (Hfit := count_fits_int_small m Hs Hn).
  exists v. split_and!; [done|by apply int32_returns_count|lia|lia| |done].
  unfold count_fits_int in Hfit. by rewrite Hv in Hfit.
Qed.

Lemma result_between_rows_and_square_witness :
  ∃ v, count_nnz_fillin path4_shuffled = Ok v ∧
       Int32.count_nnz_fillin path4_shuffled = Ok v ∧
       rows path4_shuffled ≤ v ≤ rows path4_shuffled * rows path4_shuffled ∧
       v < 2 ^ 31 ∧ count_fits_int path4_shuffled.
Proof.
  apply (result_between_rows_and_square path4_shuffled).
  - refine (bool_decide_unpack _ _). vm_compute. exact I.
  - simpl. lia.
Defined.

(** ** The column counters *)

(** Every counter holds the number of marks of its node. *)
Lemma analyse_column_counters fuel n pat :
  0 ≤ n → n ≤ Z.of_nat fuel →
  (∀ r, 0 ≤ r < n → Forall (λ c, 0 ≤ c) (pat r)) →
  ∃ w, analyse fuel n pat = Ok w ∧
       ∀ c, 0 ≤ c < n →
         rd (nonZerosPerCol w) c = Z.of_nat (length (marks_at c w)).
Proof.
  intros Hn Hf Hpat.
  set (B := λ (r : Z) (w : work), ∀ x, 0 ≤ x < n →
         rd (nonZerosPerCol w) x = Z.of_nat (length (marks_at x w)) ∧
         (r ≤ x → marks_at x w = [])).
  set (I := λ (r : Z) (w : work), ∀ x, 0 ≤ x < n →
         rd (nonZerosPerCol w) x = Z.of_nat (length (marks_at x w)) ∧
         (r ≤ x → marks_at x w = [])).
  destruct (analyse_total n pat B I Hpat) with (fuel := fuel)
    as (w & Hw & _ & HB); try done.
  - intros r w0 Hb Hr HB x Hx. destruct (HB x Hx) as [Hk Hm].
    assert (0 ≤ r) by apply Hb.
    assert (inb (nonZerosPerCol w0) r)
      by (destruct Hb as [[] ?]; unfold inb; lia).
    change (marks_at x (initialised r w0)) with (marks_at x w0).
    split; [|done]. simpl. destruct (decide (r = x)) as [->|Hne].
    + rewrite rd_upd_eq by done. by rewrite Hm by lia.
    + by rewrite rd_upd_ne by lia.
  - intros r c w0 Hin Hc _ HI x Hx. destruct (HI x Hx) as [Hk Hm].
    assert (Hr := ir_range _ _ _ Hin).
    rewrite marks_at_stepped.
    rewrite (rd_nonZerosPerCol_stepped n) by (apply Hin || lia).
    destruct (decide (c = x)) as [->|Hne].
    + rewrite decide_True by done. split; [|lia].
      rewrite length_app. simpl. lia.
    + rewrite decide_False by done. by rewrite app_nil_r.
  - intros r w0 Hin HI _ x Hx. destruct (HI x Hx) as [Hk Hm].
    split; [done|]. intros ?. apply Hm. lia.
  - intros x Hx. split; [|done]. simpl. unfold rd.
    rewrite lookup_total_replicate_2 by lia. done.
  - exists w. split; [done|]. intros c Hc. by apply HB.
Qed.

(** ** The marks of a row are its row subtree *)

Lemma rows_induct (P : Z → work → Prop) fuel n pat k r w :
  (∀ r w, 0 ≤ r < n → between_rows n r w → P r w →
     ∃ w', process_cols fuel r w (pat r) = Ok w' ∧
           between_rows n (r + 1) w' ∧ P (r + 1) w') →
  Z.of_nat k = n - r → between_rows n r w → P r w →
  ∃ w', forM (λ w r, process_cols fuel r w (pat r)) w (seqZ r (n - r)) = Ok w'
        ∧ between_rows n n w' ∧ P n w'.
Proof.
  intros Hrow. revert r w. induction k as [|k IH]; intros r w Hk Hb HP.
  - assert (r = n) as -> by lia. rewrite seqZ_nil by lia. by exists w.
  - assert (0 ≤ r) by apply Hb.
    rewrite seqZ_cons by lia. cbn [forM].
    destruct (Hrow r w) as (w1 & Hw1 & Hb1 & HP1); [lia|done..|].
    rewrite Hw1. simpl.
    replace (Z.succ r) with (r + 1) by lia.
    replace (Z.pred (n - r)) with (n - (r + 1)) by lia.
    apply IH; (done || lia).
Qed.

(** Paths below [r] only read parent pointers that lead below [r]: two
    arrays that agree on those have the same paths. *)
Lemma path_below_agree r p p' c v :
  (∀ u, 0 ≤ u < r → rd p u ≠ -1 → rd p u < r →
        u < rd p u ∧ rd p' u = rd p u) →
  0 ≤ c < r → path_below r p c v → path_below r p' c v ∧ 0 ≤ v < r.
Proof.
  intros Hagree Hc. induction 1 as [|u Hu [IH Hur] Hp Hlt].
  - split; [constructor|done].
  - destruct (Hagree u Hur Hp Hlt) as [Hup E]. split; [|lia].
    rewrite <- E. apply path_next; [done|by rewrite E..].
Qed.

Section one_row.
Context (n r : Z) (w : work) (cs : list Z) (fuel : nat).
Hypothesis Hb : between_rows n r w.
Hypothesis Hr : r < n.
Hypothesis Hcs : Forall (λ c, 0 ≤ c) cs.
Hypothesis Hf : r ≤ Z.of_nat fuel.

Lemma initialised_fresh v :
  0 ≤ v < r → rd (tags (initialised r w)) v ≠ r.
Proof.
  intros Hv. simpl. rewrite rd_upd_ne by lia.
  assert (H := br_tags _ _ _ Hb v Hv). lia.
Qed.

Lemma initialised_parent v :
  0 ≤ v < r →
  rd (parent (initialised r w)) v = -1 ∨
  v < rd (parent (initialised r w)) v < r.
Proof.
  intros Hv. simpl. rewrite rd_upd_ne by lia. apply (br_parent _ _ _ Hb v Hv).
Qed.

(** One row: the locals afterwards, the marks it added and the parent
    pointers it set. *)
Lemma process_cols_marks :
  ∃ w1, process_cols fuel r w cs = Ok w1 ∧ between_rows n (r + 1) w1 ∧
    (∀ p, p ∈ walk_marks w1 ↔
          p ∈ walk_marks w ∨
          p.1 = r ∧ row_subtree cs r (parent w1) p.2) ∧
    (∀ u, 0 ≤ u < r → rd (parent w) u ≠ -1 →
          rd (parent w1) u = rd (parent w) u) ∧
    (∀ u, 0 ≤ u < r → rd (parent w) u = -1 →
          rd (parent w1) u = -1 ∨ rd (parent w1) u = r).
Proof.
  assert (Hr0 : 0 ≤ r) by apply Hb.
  assert (Hin0 := in_row_initialised n r w Hb Hr).
  destruct (scan_marks n r (initialised r w) Hin0 initialised_fresh
              initialised_parent fuel cs Hcs Hf)
    as (w1 & Hw1 & Hin1 & Hrp & Hmarks).
  set (I := λ w' : work, ∀ p, p ∈ walk_marks w' ↔
              p ∈ walk_marks w ∨
              p.1 = r ∧ 0 ≤ p.2 < r ∧ rd (tags w') p.2 = r).
  destruct (scan_total n r I) with (fuel := fuel) (cs := cs)
    (w := initialised r w) as (w1' & Hw1' & _ & HI & _); try done.
  { intros c w' Hin Hc Ht HI [a b]. simpl.
    assert (Hic : inb (tags w') c).
    { destruct Hin as [[] ? ? ? ? ?]. unfold inb. lia. }
    rewrite elem_of_app, list_elem_of_singleton, (HI (a, b)). simpl.
    split.
    - intros [[?|(-> & Hb' & Htb)]|[= -> ->]]; [by left|right..].
      + split_and!; try (done || lia). rewrite rd_upd by (done || lia).
        by case_decide.
      + split_and!; try (done || lia). by rewrite rd_upd_eq.
    - intros [?|(-> & Hb' & Htb)]; [by left; left|].
      rewrite rd_upd in Htb by (done || lia).
      destruct (decide (c = b)) as [->|Hne]; [by right|].
      left. right. split_and!; (done || lia). }
  { intros [a b]. simpl. split; [by left|].
    intros [?|(-> & Hb' & Htb)]; [done|]. by destruct (initialised_fresh b). }
  rewrite Hw1 in Hw1'. injection Hw1' as <-.
  assert (Hp1 : ∀ u, 0 ≤ u < r →
            rd (parent w1) u =
              if decide (marked r w1 u ∧ rd (parent w) u = -1) then r
              else rd (parent w) u).
  { intros u Hu. rewrite (rp_parent _ _ _ _ Hrp) by lia. simpl.
    by rewrite rd_upd_ne by lia. }
  assert (Hpath : ∀ c v, 0 ≤ c < r →
            reach (parent (initialised r w)) c v ↔
            path_below r (parent w1) c v).
  { intros c v Hc. split.
    - induction 1 as [|u Hu IH Hpu]; [constructor|].
      assert (Hur : 0 ≤ u < r)
        by (by eapply (reach_range r (initialised r w) initialised_parent c)).
      simpl in Hpu |- *. rewrite rd_upd_ne in Hpu |- * by lia.
      destruct (br_parent _ _ _ Hb u Hur) as [?|Hup]; [done|].
      assert (E : rd (parent w1) u = rd (parent w) u).
      { rewrite Hp1 by done. rewrite decide_False; [done|]. by intros [_ ?]. }
      rewrite <- E. apply path_next; [done|rewrite E..]; [done|lia].
    - induction 1 as [|u Hu IH Hpu Hlt]; [constructor|].
      assert (Hur : 0 ≤ u < r)
        by (by eapply (reach_range r (initialised r w) initialised_parent c)).
      assert (E : rd (parent w1) u = rd (parent w) u).
      { rewrite Hp1 in Hlt |- * by done. case_decide; [lia|done]. }
      rewrite E. rewrite E in Hpu.
      replace (rd (parent w) u) with (rd (parent (initialised r w)) u)
        by (simpl; by rewrite rd_upd_ne by lia).
      apply reach_next; [done|]. simpl. by rewrite rd_upd_ne by lia. }
  exists w1. unfold process_cols.
  rewrite (init_row_initialised n) by (apply Hb || lia). simpl.
  split_and!; [done|by apply between_rows_next| | |].
  - intros [a b]. rewrite (HI (a, b)). simpl. split.
    + intros [?|(-> & Hb' & Htb)]; [by left|right]. split; [done|].
      apply Hmarks in Htb as (c & Hc & Hcr & Hreach); [|done].
      exists c. split_and!; [done|lia|by apply Hpath].
    + intros [?|(-> & c & Hc & Hcr & Hpb)]; [by left|right].
      rewrite Forall_forall in Hcs. assert (0 ≤ c) by by apply Hcs.
      apply Hpath in Hpb; [|lia].
      assert (Hbr : 0 ≤ b < r).
      { eapply (reach_range r (initialised r w) initialised_parent c);
          [lia|done]. }
      split_and!; [done|lia|lia|]. apply Hmarks; [done|].
      exists c. split_and!; (done || lia).
  - intros u Hu Hpu. rewrite Hp1 by done.
    rewrite decide_False; [done|]. by intros [_ ?].
  - intros u Hu Hpu. rewrite Hp1 by done. case_decide; [by right|by left].
Qed.
End one_row.

(** Paths below an earlier row are not changed by a later row. *)
Lemma row_subtree_later n r w p1 cs r' x :
  between_rows n r w → r' < r → Forall (λ c, 0 ≤ c) cs →
  (∀ u, 0 ≤ u < r → rd (parent w) u ≠ -1 → rd p1 u = rd (parent w) u) →
  (∀ u, 0 ≤ u < r → rd (parent w) u = -1 → rd p1 u = -1 ∨ rd p1 u = r) →
  row_subtree cs r' (parent w) x ↔ row_subtree cs r' p1 x.
Proof.
  intros Hb Hr' Hcs Hkeep Hset. rewrite Forall_forall in Hcs.
  split; intros (c & Hc & Hcr & Hpath); exists c; split_and!; try done.
  - eapply path_below_agree; [|split; [by apply Hcs|done]|exact Hpath].
    intros u Hu Hpu Hlt.
    destruct (br_parent _ _ _ Hb u) as [?|?]; [lia|done|].
    split; [lia|]. apply Hkeep; (done || lia).
  - eapply path_below_agree; [|split; [by apply Hcs|done]|exact Hpath].
    intros u Hu Hpu Hlt.
    destruct (decide (rd (parent w) u = -1)) as [E|E].
    + destruct (Hset u) as [?|?]; (done || lia).
    + rewrite Hkeep in Hpu, Hlt |- * by (done || lia).
      destruct (br_parent _ _ _ Hb u) as [?|?]; [lia|done|]. lia.
Qed.

(** The marks of the whole analysis, row by row. *)
Lemma analyse_row_subtrees fuel n pat :
  0 ≤ n → n ≤ Z.of_nat fuel →
  (∀ r, 0 ≤ r < n → Forall (λ c, 0 ≤ c) (pat r)) →
  ∃ w, analyse fuel n pat = Ok w ∧ between_rows n n w ∧
    ∀ r x, (r, x) ∈ walk_marks w ↔
           0 ≤ r < n ∧ row_subtree (pat r) r (parent w) x.
Proof.
  intros Hn Hf Hpat.
  set (P := λ (r : Z) (w : work), ∀ r' x,
         (r', x) ∈ walk_marks w ↔
         0 ≤ r' < r ∧ row_subtree (pat r') r' (parent w) x).
  destruct (rows_induct P fuel n pat (Z.to_nat n) 0 (fresh_work n))
    as (w & Hw & Hb & HP).
  - intros r w Hr Hb HP.
    destruct (process_cols_marks n r w (pat r) fuel Hb)
      as (w1 & Hw1 & Hb1 & Hmarks & Hkeep & Hset);
      [lia|by apply Hpat|lia|].
    exists w1. split_and!; [done..|]. intros r' x.
    rewrite (Hmarks (r', x)), (HP r' x). simpl. split.
    + intros [[Hr' Hsub]|[-> Hsub]]; [|split; [lia|done]].
      split; [lia|].
      apply (row_subtree_later n r w (parent w1)); try done; try lia.
      apply Hpat. lia.
    + intros [Hr' Hsub]. destruct (decide (r' = r)) as [->|Hne]; [by right|].
      left. split; [lia|].
      apply (row_subtree_later n r w (parent w1)); try done; try lia.
      apply Hpat. lia.
  - lia.
  - by apply between_rows_fresh.
  - intros r' x. simpl. split; [by intros ?%elem_of_nil|lia].
  - exists w. unfold analyse.
    replace (seqZ 0 n) with (seqZ 0 (n - 0)) by (f_equal; lia).
    split_and!; [done..|]. intros r x. apply HP.
Qed.

(** X4. The comment of line 130, made exact: on a scannable matrix the call
    returns, and the walk of row [r] marks node [x] exactly when [x] is in
    the row subtree of [r], that is, on the path that starts at a column
    stored in row [r] left of the diagonal and follows the final parent
    pointers while they stay below [r]. *)
Theorem marks_are_row_subtrees m :
  scannable m →
  ∃ v s, count_nnz_fillin_run (Z.to_nat (rows m)) m = Ok (v, s) ∧
    ∀ r x, (r, x) ∈ walk_marks (locals s) ↔
           0 ≤ r < rows m ∧
           row_subtree (row_cols m r) r (parent (locals s)) x.
Proof.
  intros Hs. assert (Hn : 0 ≤ rows m) by apply Hs.
  destruct (analyse_row_subtrees (Z.to_nat (rows m)) (rows m) (row_cols m))
    as (w & Hw & _ & Hmarks); [done|lia|by apply scannable_nonneg|].
  exists (2 * nnz w + rows m), {| mat := m; locals := w |}.
  by rewrite count_nnz_fillin_run_scannable, Hw by done.
Qed.

Lemma marks_are_row_subtrees_witness :
  ∃ v s, count_nnz_fillin_run (Z.to_nat (rows path4_shuffled)) path4_shuffled
           = Ok (v, s) ∧
    ∀ r x, (r, x) ∈ walk_marks (locals s) ↔
           0 ≤ r < rows path4_shuffled ∧
           row_subtree (row_cols path4_shuffled r) r (parent (locals s)) x.
Proof.
  apply (marks_are_row_subtrees path4_shuffled).
  refine (bool_decide_unpack _ _). vm_compute. exact I.
Defined.

(** ** The marks are the nonzeros of the factor *)

(** Whoever marked node [k] did so at or after the row [parent[k]], and
    that row marked it. *)
Lemma analyse_first_marks fuel n pat :
  0 ≤ n → n ≤ Z.of_nat fuel →
  (∀ r, 0 ≤ r < n → Forall (λ c, 0 ≤ c) (pat r)) →
  ∃ w, analyse fuel n pat = Ok w ∧
    (∀ a k, (a, k) ∈ walk_marks w →
       0 ≤ k < a ∧ rd (parent w) k ≠ -1 ∧ rd (parent w) k ≤ a) ∧
    (∀ u, 0 ≤ u < n → rd (parent w) u ≠ -1 →
       (rd (parent w) u, u) ∈ walk_marks w).
Proof.
  intros Hn Hf Hpat.
  set (B := λ (r : Z) (w : work),
         (∀ a k, (a, k) ∈ walk_marks w →
            0 ≤ k < a ∧ a < r ∧ rd (parent w) k ≠ -1 ∧ rd (parent w) k ≤ a) ∧
         (∀ u, 0 ≤ u < r → rd (parent w) u ≠ -1 →
            (rd (parent w) u, u) ∈ walk_marks w)).
  set (I := λ (r : Z) (w : work),
         (∀ a k, (a, k) ∈ walk_marks w →
            0 ≤ k < a ∧ a ≤ r ∧ rd (parent w) k ≠ -1 ∧ rd (parent w) k ≤ a) ∧
         (∀ u, 0 ≤ u ≤ r → rd (parent w) u ≠ -1 →
            (rd (parent w) u, u) ∈ walk_marks w)).
  destruct (analyse_total n pat B I Hpat) with (fuel := fuel)
    as (w & Hw & Hb & HB1 & HB2); try done.
  - intros r w Hb Hr [H1 H2]. assert (0 ≤ r) by apply Hb.
    assert (inb (parent w) r) by (destruct Hb as [[] ?]; unfold inb; lia).
    split.
    + intros a k Hm. destruct (H1 a k Hm) as (? & ? & ? & ?).
      change (parent (initialised r w)) with (upd (parent w) r (-1)).
      rewrite rd_upd_ne by lia. split_and!; (done || lia).
    + intros u Hu. change (parent (initialised r w)) with (upd (parent w) r (-1)).
      destruct (decide (u = r)) as [->|Hne]; [by rewrite rd_upd_eq|].
      rewrite rd_upd_ne by lia. apply H2. lia.
  - intros r c w Hin Hc _ [H1 H2]. assert (Hr := ir_range _ _ _ Hin).
    assert (Hs := ir_sized _ _ _ Hin). split.
    + intros a k. change (walk_marks (stepped r c w))
        with (walk_marks w ++ [(r, c)]).
      intros [Hm|[= -> ->]%list_elem_of_singleton]%elem_of_app.
      * destruct (H1 a k Hm) as (? & ? & ? & ?).
        rewrite (rd_parent_stepped n) by (done || lia).
        rewrite decide_False; [done|]. intros [-> ?]. done.
      * rewrite (rd_parent_stepped n) by (done || lia).
        destruct (ir_parent _ _ _ Hin c Hc) as [E|E].
        -- rewrite decide_True by done. lia.
        -- rewrite decide_False by (intros [_ ?]; lia). lia.
    + intros u Hu. rewrite (rd_parent_stepped n) by (done || lia).
      change (walk_marks (stepped r c w)) with (walk_marks w ++ [(r, c)]).
      rewrite elem_of_app. case_decide as E.
      * destruct E as [-> _]. intros _. right. by apply list_elem_of_singleton.
      * intros ?. left. by apply H2.
  - intros r w Hin [H1 H2] _. split.
    + intros a k Hm. destruct (H1 a k Hm) as (? & ? & ? & ?).
      split_and!; (done || lia).
    + intros u Hu. apply H2. lia.
  - split; [by intros a k ?%elem_of_nil|]. intros u Hu. lia.
  - exists w. split_and!; [done| |done].
    intros a k Hm. destruct (HB1 a k Hm) as (? & ? & ? & ?).
    split_and!; (done || lia).
Qed.

Lemma fill_range pat r c : fill pat r c → 0 ≤ c < r.
Proof. induction 1; lia. Qed.

Section factor.
Context (n : Z) (pat : Z → list Z) (w : work).
Hypothesis Hpat : ∀ r, 0 ≤ r < n → Forall (λ c, 0 ≤ c) (pat r).
Hypothesis Hb : between_rows n n w.
Hypothesis Hsub : ∀ r x, (r, x) ∈ walk_marks w ↔
  0 ≤ r < n ∧ row_subtree (pat r) r (parent w) x.
Hypothesis Hfirst : ∀ a k, (a, k) ∈ walk_marks w →
  0 ≤ k < a ∧ rd (parent w) k ≠ -1 ∧ rd (parent w) k ≤ a.
Hypothesis Hparent : ∀ u, 0 ≤ u < n → rd (parent w) u ≠ -1 →
  (rd (parent w) u, u) ∈ walk_marks w.

(** The marks of a row are closed under the parent pointers below the
    row. *)
Lemma marks_closed r k :
  (r, k) ∈ walk_marks w → rd (parent w) k ≠ -1 → rd (parent w) k < r →
  (r, rd (parent w) k) ∈ walk_marks w.
Proof.
  intros (Hr & c & Hc & Hcr & Hpath)%Hsub Hk Hlt. apply Hsub.
  split; [done|]. exists c. split_and!; [done..|]. by apply path_next.
Qed.

Lemma marks_fill r : 0 ≤ r → ∀ x, (r, x) ∈ walk_marks w → fill pat r x.
Proof.
  intros Hr. pattern r. apply Zlt_0_ind; [clear r Hr|done].
  intros r IH Hr x (Hrn & c & Hc & Hcr & Hpath)%Hsub.
  assert (0 ≤ c).
  { specialize (Hpat r Hrn). rewrite Forall_forall in Hpat. by apply Hpat. }
  induction Hpath as [|u Hu IHu Hpu Hlt]; [by apply fill_stored|].
  assert (Hm : (r, u) ∈ walk_marks w).
  { apply Hsub. split; [done|]. by exists c. }
  destruct (Hfirst r u Hm) as (Hur & _ & _).
  destruct (br_parent _ _ _ Hb u) as [?|?]; [lia|done|].
  apply (fill_update pat r _ u); [done| |done].
  apply IH; [lia|]. apply Hparent; (done || lia).
Qed.

Lemma marks_chain (d : nat) : ∀ k x r,
  x - k ≤ Z.of_nat d → (r, k) ∈ walk_marks w → (x, k) ∈ walk_marks w →
  x < r → (r, x) ∈ walk_marks w.
Proof.
  induction d as [|d IH]; intros k x r Hd Hrk Hxk Hxr;
    destruct (Hfirst x k Hxk) as (Hk & Hp & Hpx); [lia|].
  assert (Hxn : 0 ≤ x < n) by (apply Hsub in Hxk; tauto).
  destruct (br_parent _ _ _ Hb k) as [?|?]; [lia|done|].
  assert (Hrp := marks_closed r k Hrk Hp ltac:(lia)).
  destruct (decide (rd (parent w) k = x)) as [<-|Hne]; [done|].
  apply (IH (rd (parent w) k)); [lia|done| |done].
  apply marks_closed; (done || lia).
Qed.

Lemma fill_marks r x : fill pat r x → 0 ≤ r < n → (r, x) ∈ walk_marks w.
Proof.
  induction 1 as [r c Hc Hcr|r c k Hrk IHr Hck IHc Hcr]; intros Hr.
  - apply Hsub. split; [done|]. exists c. split_and!; [done|lia|constructor].
  - assert (Hkc := fill_range _ _ _ Hck).
    apply (marks_chain (Z.to_nat (c - k)) k); [lia|by apply IHr| |done].
    apply IHc. lia.
Qed.
End factor.

(** The marks of the analysis are the nonzeros of the factor below the
    diagonal, each once. *)
Lemma analyse_factor fuel n pat :
  0 ≤ n → n ≤ Z.of_nat fuel →
  (∀ r, 0 ≤ r < n → Forall (λ c, 0 ≤ c) (pat r)) →
  ∃ w, analyse fuel n pat = Ok w ∧
       nnz w = Z.of_nat (length (walk_marks w)) ∧ NoDup (walk_marks w) ∧
       ∀ r c, (r, c) ∈ walk_marks w ↔ 0 ≤ r < n ∧ fill pat r c.
Proof.
  intros Hn Hf Hpat.
  destruct (analyse_row_subtrees fuel n pat)
    as (w & Hw & Hb & Hsub); [done..|].
  destruct (analyse_first_marks fuel n pat)
    as (w' & Hw' & Hfirst & Hparent); [done..|].
  rewrite Hw in Hw'. injection Hw' as <-.
  destruct (analyse_marks fuel n pat)
    as (w' & Hw' & Hlen & Hnd & _); [done..|].
  rewrite Hw in Hw'. injection Hw' as <-.
  exists w. split_and!; [done..|]. intros r c. split.
  - intros Hm. assert (Hr : 0 ≤ r < n) by (apply Hsub in Hm; tauto).
    split; [done|]. apply (marks_fill n pat w); (done || lia).
  - intros [Hr Hfill]. by apply (fill_marks n pat w).
Qed.

(** Storing more can only add nonzeros to the factor. *)
Lemma fill_mono n pat1 pat2 r c :
  (∀ r c, 0 ≤ c < r → r < n → c ∈ pat1 r → c ∈ pat2 r) →
  fill pat1 r c → r < n → fill pat2 r c.
Proof.
  intros Hsub. induction 1 as [r c Hc Hcr|r c k _ IHr _ IHc Hcr]; intros Hr.
  - apply fill_stored; [|done]. by apply Hsub.
  - apply (fill_update pat2 r c k); [apply IHr|apply IHc|]; lia.
Qed.

(** X5. The comments of lines 115-116 and 147, made exact: on a scannable
    matrix the walks mark (r, c) exactly when entry (r, c) below the
    diagonal of the Cholesky factor is structurally nonzero (for the
    symmetric matrix whose lower triangle is the stored one), each such
    entry once; and when the count fits [int] the call returns twice their
    number plus [rows]. *)
Theorem marks_are_factor_nonzeros m :
  scannable m →
  ∃ v s, count_nnz_fillin_run (Z.to_nat (rows m)) m = Ok (v, s) ∧
       NoDup (walk_marks (locals s)) ∧
       (∀ r c, (r, c) ∈ walk_marks (locals s) ↔
               0 ≤ r < rows m ∧ fill (row_cols m) r c) ∧
       (count_fits_int m →
        v = 2 * Z.of_nat (length (walk_marks (locals s))) + rows m ∧
        v < 2 ^ 31 ∧ Int32.count_nnz_fillin m = Ok v).
Proof.
  intros Hs. assert (Hn : 0 ≤ rows m) by apply Hs.
  destruct (analyse_factor (Z.to_nat (rows m)) (rows m) (row_cols m))
    as (w & Hw & Hlen & Hnd & Hfill); [done|lia|by apply scannable_nonneg|].
  exists (2 * nnz w + rows m), {| mat := m; locals := w |}.
  rewrite count_nnz_fillin_run_scannable, Hw by done. simpl.
  split_and!; [done..|]. intros Hfit.
  assert (Hcount : count_nnz_fillin m = Ok (2 * nnz w + rows m)).
  { unfold count_nnz_fillin, count_nnz_fillin_fuel.
    by rewrite count_nnz_fillin_run_scannable, Hw by done. }
  assert (Hint := int32_returns_count m _ Hs Hfit Hcount).
  unfold count_fits_int in Hfit. rewrite Hcount in Hfit.
  rewrite <- Hlen. by split_and!.
Qed.

Lemma marks_are_factor_nonzeros_witness :
  ∃ v s, count_nnz_fillin_run (Z.to_nat (rows arrow4)) arrow4 = Ok (v, s) ∧
       NoDup (walk_marks (locals s)) ∧
       (∀ r c, (r, c) ∈ walk_marks (locals s) ↔
               0 ≤ r < rows arrow4 ∧ fill (row_cols arrow4) r c) ∧
       (count_fits_int arrow4 →
        v = 2 * Z.of_nat (length (walk_marks (locals s))) + rows arrow4 ∧
        v < 2 ^ 31 ∧ Int32.count_nnz_fillin arrow4 = Ok v).
Proof.
  apply (marks_are_factor_nonzeros arrow4).
  refine (bool_decide_unpack _ _). vm_compute. exact I.
Defined.

(** X6. Storing more never lowers the count: if every column that a row
    of [m1] stores left of the diagonal is stored by the same row of [m2],
    both scannable and of the same dimension, and the count of [m2] fits
    [int], the symbolic route returns on both and the value for [m1] is at
    most the value for [m2]. *)
Theorem count_monotone m1 m2 :
  scannable m1 → scannable m2 → rows m1 = rows m2 →
  lower_columns_included m1 m2 → count_fits_int m2 →
  ∃ v1 v2, count_nnz_fillin m1 = Ok v1 ∧ count_nnz_fillin m2 = Ok v2 ∧
           Int32.count_nnz_fillin m1 = Ok v1 ∧
           Int32.count_nnz_fillin m2 = Ok v2 ∧
           v1 ≤ v2 ∧ v2 < 2 ^ 31.
Proof.
  intros Hs1 Hs2 Hrows Hincl Hfit. assert (Hn : 0 ≤ rows m1) by apply Hs1.
  cut (∃ v1 v2, count_nnz_fillin m1 = Ok v1 ∧ count_nnz_fillin m2 = Ok v2 ∧
                v1 ≤ v2 ∧ v2 < 2 ^ 31).
  { intros (v1 & v2 & E1 & E2 & Hle & Hlt). exists v1, v2.
    split_and!; try done; apply int32_returns_count; try done.
    unfold count_fits_int. rewrite E1. lia. }
  unfold lower_columns_included in Hincl. rewrite Forall_seqZ in Hincl.
  assert (Hincl' : ∀ r c, 0 ≤ c < r → r < rows m1 →
            c ∈ row_cols m1 r → c ∈ row_cols m2 r).
  { intros r c Hc Hr. specialize (Hincl r). rewrite Forall_seqZ in Hincl.
    apply Hincl; lia. }
  destruct (analyse_factor (Z.to_nat (rows m1)) (rows m1) (row_cols m1))
    as (w1 & Hw1 & Hlen1 & Hnd1 & Hfill1);
    [done|lia|by apply scannable_nonneg|].
  destruct (analyse_factor (Z.to_nat (rows m2)) (rows m2) (row_cols m2))
    as (w2 & Hw2 & Hlen2 & Hnd2 & Hfill2);
    [lia|lia|by apply scannable_nonneg|].
  exists (2 * nnz w1 + rows m1), (2 * nnz w2 + rows m2).
  unfold count_fits_int in Hfit.
  unfold count_nnz_fillin, count_nnz_fillin_fuel in Hfit |- *.
  rewrite count_nnz_fillin_run_scannable, Hw2 in Hfit by done.
  rewrite !count_nnz_fillin_run_scannable, Hw1, Hw2 by done. simpl in *.
  split_and!; [done..| |done].
  assert (Hle : (length (walk_marks w1) ≤ length (walk_marks w2))%nat).
  { apply submseteq_length, NoDup_submseteq; [done|].
    intros [r c] [Hr Hf]%Hfill1. apply Hfill2. split; [lia|].
    apply (fill_mono (rows m1) (row_cols m1)); (done || lia). }
  lia.
Qed.

Lemma count_monotone_witness :
  ∃ v1 v2, count_nnz_fillin path4 = Ok v1 ∧
           count_nnz_fillin path4_chord = Ok v2 ∧
           Int32.count_nnz_fillin path4 = Ok v1 ∧
           Int32.count_nnz_fillin path4_chord = Ok v2 ∧
           v1 ≤ v2 ∧ v2 < 2 ^ 31.
Proof.
  apply (count_monotone path4 path4_chord).
  - refine (bool_decide_unpack _ _). vm_compute. exact I.
  - refine (bool_decide_unpack _ _). vm_compute. exact I.
  - reflexivity.
  - refine (bool_decide_unpack _ _). vm_compute. exact I.
  - vm_compute. reflexivity.
Defined.

(** ** The elimination tree *)

(** X7. The parent pointers left by the symbolic route are the elimination
    tree of the factor: on a scannable matrix, [parent[c]] is at the end the
    row of the first structural nonzero below the diagonal in column [c] of
    the Cholesky factor, and -1 when the column has none. *)
Theorem parent_is_elimination_tree m :
  scannable m →
  ∃ v s, count_nnz_fillin_run (Z.to_nat (rows m)) m = Ok (v, s) ∧
    ∀ c, 0 ≤ c < rows m →
      let p := rd (parent (locals s)) c in
      (p = -1 ∧ ∀ r, r < rows m → ¬ fill (row_cols m) r c) ∨
      (c < p < rows m ∧ fill (row_cols m) p c ∧
       ∀ r, r < rows m → fill (row_cols m) r c → p ≤ r).
Proof.
  intros Hs. assert (Hn : 0 ≤ rows m) by apply Hs.
  assert (Hpat := scannable_nonneg m Hs).
  destruct (analyse_factor (Z.to_nat (rows m)) (rows m) (row_cols m))
    as (w & Hw & _ & _ & Hfill); [done|lia|done|].
  destruct (analyse_first_marks (Z.to_nat (rows m)) (rows m) (row_cols m))
    as (w' & Hw' & Hfirst & Hparent); [done|lia|done|].
  rewrite Hw in Hw'. injection Hw' as <-.
  destruct (analyse_row_subtrees (Z.to_nat (rows m)) (rows m) (row_cols m))
    as (w' & Hw' & Hb & _); [done|lia|done|].
  rewrite Hw in Hw'. injection Hw' as <-.
  exists (2 * nnz w + rows m), {| mat := m; locals := w |}.
  rewrite count_nnz_fillin_run_scannable, Hw by done. simpl.
  split; [done|]. intros c Hc.
  destruct (decide (rd (parent w) c = -1)) as [E|E].
  - left. split; [done|]. intros r Hr Hf.
    assert (Hrc := fill_range _ _ _ Hf).
    assert (Hm : (r, c) ∈ walk_marks w) by (apply Hfill; split; [lia|done]).
    by destruct (Hfirst r c Hm) as (_ & ? & _).
  - right. destruct (br_parent _ _ _ Hb c Hc) as [?|Hp]; [done|].
    split_and!; [lia..| |].
    + by apply (Hfill (rd (parent w) c) c), Hparent.
    + intros r Hr Hf. assert (Hrc := fill_range _ _ _ Hf).
      assert (Hm : (r, c) ∈ walk_marks w) by (apply Hfill; split; [lia|done]).
      by destruct (Hfirst r c Hm) as (_ & _ & ?).
Qed.

Lemma parent_is_elimination_tree_witness :
  ∃ v s, count_nnz_fillin_run (Z.to_nat (rows path4_chord)) path4_chord
           = Ok (v, s) ∧
    ∀ c, 0 ≤ c < rows path4_chord →
      let p := rd (parent (locals s)) c in
      (p = -1 ∧ ∀ r, r < rows path4_chord → ¬ fill (row_cols path4_chord) r c) ∨
      (c < p < rows path4_chord ∧ fill (row_cols path4_chord) p c ∧
       ∀ r, r < rows path4_chord → fill (row_cols path4_chord) r c → p ≤ r).
Proof.
  apply (parent_is_elimination_tree path4_chord).
  refine (bool_decide_unpack _ _). vm_compute. exact I.
Defined.

(** X8. The comments of lines 133 and 147, made exact: at the end of a call
    on a scannable matrix, [nonZerosPerCol[c]] is the number of structural
    nonzeros below the diagonal in column [c] of the Cholesky factor, for
    every column [c]; and when the count fits [int], the entries of
    [nonZerosPerCol] add up to [nnz]. *)
Theorem column_counters_count_factor m :
  scannable m →
  ∃ v s, count_nnz_fillin_run (Z.to_nat (rows m)) m = Ok (v, s) ∧
    (∀ c, 0 ≤ c < rows m →
       ∃ rs, NoDup rs ∧
             (∀ r, r ∈ rs ↔ 0 ≤ r < rows m ∧ fill (row_cols m) r c) ∧
             rd (nonZerosPerCol (locals s)) c = Z.of_nat (length rs) ∧
             Z.of_nat (length rs) < rows m) ∧
    (count_fits_int m →
     sumZ (nonZerosPerCol (locals s)) = nnz (locals s) ∧
     0 ≤ nnz (locals s) < 2 ^ 30).
Proof.
  intros Hs. assert (Hn : 0 ≤ rows m) by apply Hs.
  assert (Hpat := scannable_nonneg m Hs).
  destruct (analyse_factor (Z.to_nat (rows m)) (rows m) (row_cols m))
    as (w & Hw & Hlen & Hnd & Hfill); [done|lia|done|].
  destruct (analyse_column_counters (Z.to_nat (rows m)) (rows m) (row_cols m))
    as (w' & Hw' & Hcount); [done|lia|done|].
  rewrite Hw in Hw'. injection Hw' as <-.
  destruct (analyse_sum (Z.to_nat (rows m)) (rows m) (row_cols m))
    as (w' & Hw' & _ & Hsum); [done|lia|done|].
  rewrite Hw in Hw'. injection Hw' as <-.
  exists (2 * nnz w + rows m), {| mat := m; locals := w |}.
  rewrite count_nnz_fillin_run_scannable, Hw by done. simpl.
  split_and!; [done| |].
  - intros c Hc. exists (marks_at c w).
    assert (Hin : ∀ r, r ∈ marks_at c w ↔
              0 ≤ r < rows m ∧ fill (row_cols m) r c).
    { intros r. rewrite <- Hfill. unfold marks_at.
      rewrite list_elem_of_fmap. split.
      - intros ([r' c'] & -> & [E Hin]%list_elem_of_filter). simpl in *.
        by subst c'.
      - intros Hin. exists (r, c). split; [done|].
        by apply list_elem_of_filter. }
    assert (Hnd' : NoDup (marks_at c w)).
    { unfold marks_at. apply NoDup_fmap_2_strong; [|by apply NoDup_filter].
      intros [r1 c1] [r2 c2] [E1 _]%list_elem_of_filter
        [E2 _]%list_elem_of_filter. simpl in *. congruence. }
    split_and!; [done|done|by apply Hcount|].
    assert (Hle : (length (marks_at c w)
                   ≤ length (seqZ (c + 1) (rows m - (c + 1))))%nat).
    { apply submseteq_length, NoDup_submseteq; [done|].
      intros r [Hr Hf]%Hin. apply fill_range in Hf. apply elem_of_seqZ. lia. }
    rewrite length_seqZ in Hle. lia.
  - intros Hfit.
    unfold count_fits_int, count_nnz_fillin, count_nnz_fillin_fuel in Hfit.
    rewrite count_nnz_fillin_run_scannable, Hw in Hfit by done.
    simpl in Hfit. split; [done|]. lia.
Qed.

Lemma column_counters_count_factor_witness :
  ∃ v s, count_nnz_fillin_run (Z.to_nat (rows arrow4)) arrow4 = Ok (v, s) ∧
    (∀ c, 0 ≤ c < rows arrow4 →
       ∃ rs, NoDup rs ∧
             (∀ r, r ∈ rs ↔ 0 ≤ r < rows arrow4 ∧ fill (row_cols arrow4) r c) ∧
             rd (nonZerosPerCol (locals s)) c = Z.of_nat (length rs) ∧
             Z.of_nat (length rs) < rows arrow4) ∧
    (count_fits_int arrow4 →
     sumZ (nonZerosPerCol (locals s)) = nnz (locals s) ∧
     0 ≤ nnz (locals s) < 2 ^ 30).
Proof.
  apply (column_counters_count_factor arrow4).
  refine (bool_decide_unpack _ _). vm_compute. exact I.
Defined.

(** ** Patterns without fill-in *)

Lemma NoDup_lower_triangle n : NoDup (lower_triangle n).
Proof.
  unfold lower_triangle. apply NoDup_bind.
  - intros r1 r2 [r c] _ _ (c1 & [= -> ->] & _)%list_elem_of_fmap
      (c2 & [= -> ->] & _)%list_elem_of_fmap. done.
  - intros r _. apply NoDup_fmap_2; [by intros c1 c2 [= ->]|apply NoDup_seqZ].
  - apply NoDup_seqZ.
Qed.

Lemma elem_of_stored_lower m r c :
  (r, c) ∈ stored_lower m ↔ (0 ≤ c < r ∧ r < rows m) ∧ c ∈ row_cols m r.
Proof.
  unfold stored_lower. rewrite list_elem_of_filter, elem_of_lower_triangle.
  simpl. tauto.
Qed.

Lemma fill_free_spec m :
  fill_free m ↔
  ∀ r c k, 0 ≤ k < c → c < r → r < rows m →
           k ∈ row_cols m r → k ∈ row_cols m c → c ∈ row_cols m r.
Proof.
  unfold fill_free. rewrite Forall_seqZ. split.
  - intros H r c k Hk Hc Hr. specialize (H r ltac:(lia)).
    rewrite Forall_seqZ in H. specialize (H c ltac:(lia)).
    rewrite Forall_seqZ in H. apply H. lia.
  - intros H r Hr. apply Forall_seqZ. intros c Hc. apply Forall_seqZ.
    intros k Hk. apply H; lia.
Qed.

(** X9. Fill-in is absent exactly on the patterns that elimination leaves
    as they are: on a scannable matrix whose count fits [int] the symbolic
    route returns at least twice the number of positions stored left of the
    diagonal plus [rows], and exactly that value if and only if, whenever a
    row [r] and an earlier row [c] both store a column [k] left of [c], row
    [r] stores column [c]. *)
Theorem no_fill_iff_fill_free m :
  scannable m → count_fits_int m →
  ∃ v, count_nnz_fillin m = Ok v ∧ Int32.count_nnz_fillin m = Ok v ∧
       v < 2 ^ 31 ∧
       2 * Z.of_nat (length (stored_lower m)) + rows m ≤ v ∧
       (v = 2 * Z.of_nat (length (stored_lower m)) + rows m ↔ fill_free m).
Proof.
  intros Hs Hfit. assert (Hn : 0 ≤ rows m) by apply Hs.
  destruct (analyse_factor (Z.to_nat (rows m)) (rows m) (row_cols m))
    as (w & Hw & Hlen & Hnd & Hfill); [done|lia|by apply scannable_nonneg|].
  assert (Hv : count_nnz_fillin m = Ok (2 * nnz w + rows m)).
  { unfold count_nnz_fillin, count_nnz_fillin_fuel.
    by rewrite count_nnz_fillin_run_scannable, Hw by done. }
  assert (Hint := int32_returns_count m _ Hs Hfit Hv).
  unfold count_fits_int in Hfit. rewrite Hv in Hfit.
  exists (2 * nnz w + rows m). split; [done|]. split; [done|].
  split; [done|].
  assert (HndS : NoDup (stored_lower m))
    by apply NoDup_filter, NoDup_lower_triangle.
  assert (Hsub : stored_lower m ⊆+ walk_marks w).
  { apply NoDup_submseteq; [done|]. intros [r c] [Hr Hc]%elem_of_stored_lower.
    apply Hfill. split; [lia|]. apply fill_stored; [done|lia]. }
  assert (Hle := submseteq_length _ _ Hsub).
  split; [lia|]. rewrite fill_free_spec. split.
  - intros Hv' r c k Hk Hc Hr Hkr Hkc.
    assert (Hperm : stored_lower m ≡ₚ walk_marks w)
      by (apply submseteq_length_Permutation; [done|lia]).
    assert (Hin : (r, c) ∈ stored_lower m).
    { rewrite Hperm. apply Hfill. split; [lia|].
      apply (fill_update _ r c k); [| |done]; apply fill_stored; (done || lia). }
    by apply elem_of_stored_lower in Hin as [_ ?].
  - intros Hfree.
    assert (Hstored : ∀ r c, fill (row_cols m) r c → r < rows m →
              c ∈ row_cols m r).
    { intros r c. induction 1 as [r c Hc Hcr|r c k Hrk IHr Hck IHc Hcr];
        intros Hr; [done|].
      assert (Hkc := fill_range _ _ _ Hck).
      apply (Hfree r c k); [lia..|by apply IHr|apply IHc; lia]. }
    assert (Hge : (length (walk_marks w) ≤ length (stored_lower m))%nat).
    { apply submseteq_length, NoDup_submseteq; [done|].
      intros [r c] [Hr Hf]%Hfill. apply elem_of_stored_lower.
      assert (Hcr := fill_range _ _ _ Hf).
      split; [lia|]. apply Hstored; [done|lia]. }
    lia.
Qed.

Lemma no_fill_iff_fill_free_witness :
  ∃ v, count_nnz_fillin path4 = Ok v ∧ Int32.count_nnz_fillin path4 = Ok v ∧
       v < 2 ^ 31 ∧
       2 * Z.of_nat (length (stored_lower path4)) + rows path4 ≤ v ∧
       (v = 2 * Z.of_nat (length (stored_lower path4)) + rows path4
        ↔ fill_free path4).
Proof.
  apply (no_fill_iff_fill_free path4).
  - refine (bool_decide_unpack _ _). vm_compute. exact I.
  - vm_compute. reflexivity.
Defined.

(** ** A pattern whose factor is full *)

Lemma rd_fmap_seqZ (f : Z → Z) len i :
  0 ≤ i < len → rd (f <$> seqZ 0 len) i = f i.
Proof.
  intros Hi. unfold rd. rewrite list_lookup_total_alt, list_lookup_fmap.
  rewrite lookup_seqZ_lt by lia. simpl. f_equal. lia.
Qed.

Lemma seqZ_two a : seqZ a 2 = [a; a + 1].
Proof.
  rewrite (seqZ_cons a 2), (seqZ_cons (Z.succ a) (Z.pred 2)) by lia.
  rewrite seqZ_nil by lia. reflexivity.
Qed.

Lemma rd_row_ptr_arrow n r :
  0 ≤ r ≤ n →
  rd (row_ptr (arrow n)) r = if decide (r ≤ 0) then 0 else n + 2 * (r - 1).
Proof.
  intros Hr. unfold arrow. cbn [row_ptr].
  by rewrite (rd_fmap_seqZ (λ r, if decide (r ≤ 0) then 0
                                 else n + 2 * (r - 1))) by lia.
Qed.

Lemma rd_col_idx_arrow n i :
  0 ≤ i < 3 * n - 2 →
  rd (col_idx (arrow n)) i =
    if decide (i < n) then i
    else if Z.even (i - n) then 0 else (i - n) / 2 + 1.
Proof.
  intros Hi. unfold arrow. cbn [col_idx].
  by rewrite (rd_fmap_seqZ (λ i, if decide (i < n) then i
                                 else if Z.even (i - n) then 0
                                      else (i - n) / 2 + 1)) by lia.
Qed.

Lemma row_cols_arrow_0 n : 1 ≤ n → row_cols (arrow n) 0 = seqZ 0 n.
Proof.
  intros Hn. unfold row_cols. rewrite !rd_row_ptr_arrow by lia.
  rewrite decide_True by lia. rewrite decide_False by lia.
  replace (n + 2 * (0 + 1 - 1) - 0) with n by lia.
  rewrite <- (list_fmap_id (seqZ 0 n)) at 2. apply list_fmap_ext.
  intros k x [-> Hk]%lookup_seqZ.
  rewrite rd_col_idx_arrow by lia. by rewrite decide_True by lia.
Qed.

Lemma row_cols_arrow n r : 1 ≤ r < n → row_cols (arrow n) r = [0; r].
Proof.
  intros Hr. unfold row_cols. rewrite !rd_row_ptr_arrow by lia.
  rewrite !decide_False by lia.
  replace (n + 2 * (r + 1 - 1) - (n + 2 * (r - 1))) with 2 by lia.
  rewrite seqZ_two. cbn [fmap list_fmap].
  rewrite !rd_col_idx_arrow by lia. rewrite !decide_False by lia.
  replace (n + 2 * (r - 1) - n) with (2 * (r - 1)) by lia.
  replace (n + 2 * (r - 1) + 1 - n) with (2 * (r - 1) + 1) by lia.
  assert (E1 : Z.even (2 * (r - 1)) = true) by (by rewrite Z.even_mul).
  assert (E2 : Z.even (2 * (r - 1) + 1) = false)
    by (by rewrite Z.add_comm, Z.even_add_mul_2).
  rewrite E1, E2. f_equal. f_equal.
  rewrite <- (Z.div_unique (2 * (r - 1) + 1) 2 (r - 1) 1) by lia. lia.
Qed.

Lemma elem_of_row_cols_arrow n r c :
  0 ≤ r < n →
  c ∈ row_cols (arrow n) r ↔ (r = 0 ∧ 0 ≤ c < n) ∨ (1 ≤ r ∧ (c = 0 ∨ c = r)).
Proof.
  intros Hr. destruct (decide (r = 0)) as [->|Hne].
  - rewrite row_cols_arrow_0 by lia. rewrite elem_of_seqZ. lia.
  - rewrite row_cols_arrow by lia.
    rewrite elem_of_cons, list_elem_of_singleton. lia.
Qed.

Lemma valid_csr_arrow n : 1 ≤ n → valid_csr (arrow n).
Proof.
  intros Hn. unfold valid_csr. change (rows (arrow n)) with n.
  assert (Lr : Z.of_nat (length (row_ptr (arrow n))) = n + 1).
  { unfold arrow. cbn [row_ptr]. rewrite length_fmap, length_seqZ. lia. }
  assert (Lc : Z.of_nat (length (col_idx (arrow n))) = 3 * n - 2).
  { unfold arrow. cbn [col_idx]. rewrite length_fmap, length_seqZ. lia. }
  split_and!; [lia|done| | | |].
  - rewrite rd_row_ptr_arrow by lia. by rewrite decide_True by lia.
  - apply Forall_seqZ. intros r Hr. rewrite !rd_row_ptr_arrow by lia.
    repeat case_decide; lia.
  - rewrite rd_row_ptr_arrow, Lc by lia. rewrite decide_False by lia. lia.
  - unfold arrow. cbn [col_idx]. apply Forall_fmap, Forall_seqZ.
    intros i Hi. simpl. case_decide; [lia|].
    destruct (Z.even (i - n)); [lia|].
    assert (Hd := Z.div_mod (i - n) 2 ltac:(lia)).
    assert (Hm := Z.mod_pos_bound (i - n) 2 ltac:(lia)). lia.
Qed.

Lemma structurally_symmetric_arrow n :
  1 ≤ n → structurally_symmetric (arrow n).
Proof.
  intros Hn [r c]. rewrite !elem_of_positions. simpl.
  change (rows (arrow n)) with n. intros [Hr Hc].
  apply elem_of_row_cols_arrow in Hc; [|done].
  assert (0 ≤ c < n) by lia. split; [done|].
  apply elem_of_row_cols_arrow; lia.
Qed.

Lemma fill_arrow n r c : 0 ≤ c < r → r < n → fill (row_cols (arrow n)) r c.
Proof.
  intros Hc Hr.
  assert (H0 : ∀ x, 0 < x < n → fill (row_cols (arrow n)) x 0).
  { intros x Hx. apply fill_stored; [|lia].
    apply elem_of_row_cols_arrow; lia. }
  destruct (decide (c = 0)) as [->|Hne]; [apply H0; lia|].
  apply (fill_update _ r c 0); [apply H0|apply H0|]; lia.
Qed.

(** On the integers the walks on [arrow n] mark every position below the
    diagonal, and the count is [n * n]. *)
Lemma count_arrow_run n :
  1 ≤ n →
  ∃ s, count_nnz_fillin_run (Z.to_nat n) (arrow n) = Ok (n * n, s) ∧
       2 * Z.of_nat (length (walk_marks (locals s))) + n = n * n.
Proof.
  intros Hn. assert (Hs := valid_csr_scannable _ (valid_csr_arrow n Hn)).
  destruct (analyse_factor (Z.to_nat n) n (row_cols (arrow n)))
    as (w & Hw & Hlen & Hnd & Hfill);
    [lia|lia|apply (scannable_nonneg _ Hs)|].
  assert (Hperm : walk_marks w ≡ₚ lower_triangle n).
  { apply NoDup_Permutation; [done|apply NoDup_lower_triangle|].
    intros [r c]. rewrite Hfill, elem_of_lower_triangle. split.
    - intros [Hr Hf]. apply fill_range in Hf. lia.
    - intros [Hc Hr]. split; [lia|]. by apply fill_arrow. }
  assert (Htri := length_lower_triangle (Z.to_nat n)).
  rewrite Z2Nat.id in Htri by lia.
  assert (Hmarks : 2 * Z.of_nat (length (walk_marks w)) + n = n * n)
    by (rewrite Hperm; lia).
  exists {| mat := arrow n; locals := w |}.
  rewrite count_nnz_fillin_run_scannable by done.
  change (rows (arrow n)) with n. rewrite Hw.
  cbn [mbind result_bind locals]. split; [|done]. do 2 f_equal. lia.
Qed.

Lemma count_arrow n : 1 ≤ n → count_nnz_fillin (arrow n) = Ok (n * n).
Proof.
  intros Hn. destruct (count_arrow_run n Hn) as (s & Hs & _).
  unfold count_nnz_fillin, count_nnz_fillin_fuel.
  change (rows (arrow n)) with n. by rewrite Hs.
Qed.

(** X17. The pattern in which node 0 is adjacent to all others has a full
    factor: on [n] rows the count is [n * n], and the call on 32-bit [int]
    returns [n * n] wrapped into the range of [int].  The count fits [int]
    exactly up to 46340 rows, so the bound of 46340 rows cannot be raised:
    with 46341 rows the call on [int] returns -2147479015. *)
Theorem arrow_count_overflows n :
  1 ≤ n →
  valid_csr (arrow n) ∧ structurally_symmetric (arrow n) ∧
  count_nnz_fillin (arrow n) = Ok (n * n) ∧
  Int32.count_nnz_fillin (arrow n) = Ok (wrap_int (n * n)) ∧
  (count_fits_int (arrow n) ↔ n ≤ 46340).
Proof.
  intros Hn. assert (Hc := count_arrow n Hn).
  split_and!; [by apply valid_csr_arrow|by apply structurally_symmetric_arrow
              |done| |].
  - by rewrite count_nnz_fillin_to_int, Hc.
  - unfold count_fits_int. rewrite Hc. split; intros H.
    + destruct (decide (n ≤ 46340)); [done|].
      assert (46341 * 46341 ≤ n * n) by nia. lia.
    + assert (n * n ≤ 46340 * 46340) by nia. lia.
Qed.

Lemma arrow_count_overflows_witness :
  valid_csr (arrow 46341) ∧ structurally_symmetric (arrow 46341) ∧
  count_nnz_fillin (arrow 46341) = Ok (46341 * 46341) ∧
  Int32.count_nnz_fillin (arrow 46341) = Ok (-2147479015) ∧
  (count_fits_int (arrow 46341) ↔ 46341 ≤ 46340).
Proof.
  destruct (arrow_count_overflows 46341 ltac:(lia)) as (H0 & H0' & H1 & H2 & H3).
  split_and!; [exact H0|exact H0'|exact H1| |exact H3].
  etrans; [exact H2|]. f_equal.
Defined.

(** The condition that the count fits [int] cannot be dropped from the
    statements about the value returned.  On the pattern with 46341 rows in
    which node 0 is adjacent to all others, which is valid and symmetric,
    the walks mark the 1073720970 positions below the diagonal, twice that
    number plus 46341 is 2147488281, and the call on 32-bit [int] returns
    -2147479015. *)
Lemma twice_marks_plus_rows_overflows :
  valid_csr (arrow 46341) ∧ structurally_symmetric (arrow 46341) ∧
  ∃ v s, Int32.count_nnz_fillin_run (Z.to_nat (rows (arrow 46341)))
           (arrow 46341) = Ok (v, s) ∧
         v = -2147479015 ∧
         2 * Z.of_nat (length (walk_marks (locals s))) + rows (arrow 46341)
           = 2147488281 ∧
         v ≠ 2 * Z.of_nat (length (walk_marks (locals s)))
               + rows (arrow 46341).
Proof.
  split; [apply valid_csr_arrow; lia|].
  split; [apply structurally_symmetric_arrow; lia|].
  change (rows (arrow 46341)) with 46341.
  destruct (count_arrow_run 46341 ltac:(lia)) as (s & Hs & Hmarks).
  exists (wrap_int (46341 * 46341)), (to_int_state s).
  rewrite count_nnz_fillin_run_to_int, Hs.
  change (walk_marks (locals (to_int_state s))) with (walk_marks (locals s)).
  rewrite Hmarks. split_and!; [done|reflexivity|reflexivity|].
  intros E. revert E. vm_compute. discriminate.
Qed.

(** On the same pattern the call on 32-bit [int] returns a value below the
    number of stored positions. *)
Lemma count_below_stored_on_overflow :
  valid_csr (arrow 46341) ∧ structurally_symmetric (arrow 46341) ∧
  Int32.count_nnz_fillin (arrow 46341) = Ok (-2147479015) ∧
  -2147479015 < Z.of_nat (size (positions (arrow 46341))).
Proof.
  split; [apply valid_csr_arrow; lia|].
  split; [apply structurally_symmetric_arrow; lia|].
  split; [|lia].
  rewrite count_nnz_fillin_to_int, count_arrow by lia. cbn [rmap].
  f_equal.
Qed.

(** ** Integer rounding *)

Lemma wrap_small bits x : 0 ≤ x < 2 ^ bits → wrap bits x = x.
Proof. intros. by apply Z.mod_small. Qed.

Lemma wrap_pred bits x : wrap bits (wrap bits x - 1) = wrap bits (x - 1).
Proof. unfold wrap. apply Zminus_mod_idemp_l. Qed.

Lemma wrap_once bits x :
  2 ^ bits ≤ x < 2 * 2 ^ bits → wrap bits x = x - 2 ^ bits.
Proof.
  intros Hx. unfold wrap. symmetry.
  apply (Z.mod_unique_pos _ _ 1); lia.
Qed.

Lemma wrap_int_pred x : wrap_int (wrap_int x - 1) = wrap_int (x - 1).
Proof. apply (wrap_int_add_l x (-1)). Qed.

(** The values of a type narrower than [int] are values of [int]. *)
Lemma narrow_below_int bits x : bits < 32 → x < 2 ^ bits → x < 2 ^ 31.
Proof.
  intros Hb Hx. destruct (decide (0 ≤ bits)) as [H0|H0].
  - assert (2 ^ bits ≤ 2 ^ 31) by (apply Z.pow_le_mono_r; lia). lia.
  - rewrite Z.pow_neg_r in Hx by lia. lia.
Qed.

Lemma DIVIDE_UP_exact bits num divisor :
  unsigned bits num → unsigned bits divisor → divisor ≠ 0 →
  num + divisor - 1 < 2 ^ bits →
  DIVIDE_UP bits num divisor = Some ((num + divisor - 1) / divisor).
Proof.
  intros Hn Hd Hd0 Hfit. unfold unsigned in *. unfold DIVIDE_UP.
  rewrite decide_False by done. case_decide as Hb.
  - assert (num + divisor - 1 < 2 ^ 31) by by eapply narrow_below_int.
    rewrite wrap_int_pred, wrap_int_small by lia.
    by rewrite Z.quot_div_nonneg by lia.
  - by rewrite wrap_pred, wrap_small by lia.
Qed.

(** X10. At an unsigned type, when [num + divisor - 1] fits the type and
    [divisor] is not zero, [DIVIDE_UP(num, divisor)] is the quotient rounded
    up: the least [q] with [num <= q * divisor]. *)
Theorem DIVIDE_UP_is_ceiling bits num divisor :
  unsigned bits num → unsigned bits divisor → divisor ≠ 0 →
  num + divisor - 1 < 2 ^ bits →
  ∃ q, DIVIDE_UP bits num divisor = Some q ∧ unsigned bits q ∧
       (q - 1) * divisor < num ≤ q * divisor.
Proof.
  intros Hn Hd Hd0 Hfit. exists ((num + divisor - 1) / divisor).
  split; [by apply DIVIDE_UP_exact|]. unfold unsigned in *.
  assert (Hdm := Z.div_mod (num + divisor - 1) divisor Hd0).
  assert (Hm := Z.mod_pos_bound (num + divisor - 1) divisor ltac:(lia)).
  assert (0 ≤ (num + divisor - 1) / divisor) by (apply Z.div_pos; lia).
  split; nia.
Qed.

Lemma DIVIDE_UP_is_ceiling_witness :
  ∃ q, DIVIDE_UP 32 1000 256 = Some q ∧ unsigned 32 q ∧
       (q - 1) * 256 < 1000 ≤ q * 256.
Proof.
  apply (DIVIDE_UP_is_ceiling 32 1000 256); unfold unsigned; lia.
Defined.

(** X11. At an unsigned type of 32 bits or more, which is not promoted to
    [int], and for a divisor that is not zero, [DIVIDE_UP(num, divisor)] is
    zero exactly when [num] is zero or the sum [num + divisor - 1] does not
    fit the type: when the sum wraps around, the macro gives 0 for a [num]
    that is not 0. *)
Theorem DIVIDE_UP_zero_iff bits num divisor :
  32 ≤ bits →
  unsigned bits num → unsigned bits divisor → divisor ≠ 0 →
  DIVIDE_UP bits num divisor = Some 0 ↔
  num = 0 ∨ 2 ^ bits ≤ num + divisor - 1.
Proof.
  intros Hb Hn Hd Hd0. unfold unsigned in *.
  destruct (decide (num + divisor - 1 < 2 ^ bits)) as [Hfit|Hwrap].
  - rewrite DIVIDE_UP_exact by done.
    assert (Hdm := Z.div_mod (num + divisor - 1) divisor Hd0).
    assert (Hm := Z.mod_pos_bound (num + divisor - 1) divisor ltac:(lia)).
    split.
    + intros [= E]. rewrite E in Hdm. left. lia.
    + intros [->|?]; [|lia]. f_equal. apply Z.div_small. lia.
  - unfold DIVIDE_UP. rewrite decide_False by done.
    rewrite decide_False by lia.
    rewrite wrap_pred, wrap_once by lia.
    rewrite Z.div_small by lia. split; [right; lia|done].
Qed.

Lemma DIVIDE_UP_zero_iff_witness :
  DIVIDE_UP 32 4294967295 2 = Some 0 ↔
  4294967295 = 0 ∨ 2 ^ 32 ≤ 4294967295 + 2 - 1.
Proof.
  apply (DIVIDE_UP_zero_iff 32 4294967295 2); unfold unsigned; lia.
Defined.

(** X12. At an unsigned type, when [num + mult - 1] fits the type and [mult]
    is not zero, [ROUND_UP_TO_NEXT_MULTIPLE(num, mult)] is the least
    multiple of [mult] that is at least [num]; it fits the type, and a
    [num] that is a multiple of [mult] is returned as it is. *)
Theorem ROUND_UP_is_least_multiple bits num mult :
  unsigned bits num → unsigned bits mult → mult ≠ 0 →
  num + mult - 1 < 2 ^ bits →
  ∃ r, ROUND_UP_TO_NEXT_MULTIPLE bits num mult = Some r ∧ unsigned bits r ∧
       (mult | r) ∧ num ≤ r < num + mult ∧
       (∀ r', (mult | r') → num ≤ r' → r ≤ r') ∧
       ((mult | num) → r = num).
Proof.
  intros Hn Hd Hd0 Hfit.
  unfold ROUND_UP_TO_NEXT_MULTIPLE. rewrite DIVIDE_UP_exact by done.
  unfold unsigned in *. simpl.
  set (q := (num + mult - 1) / mult).
  assert (Hdm := Z.div_mod (num + mult - 1) mult Hd0). fold q in Hdm.
  assert (Hm := Z.mod_pos_bound (num + mult - 1) mult ltac:(lia)).
  assert (0 ≤ q) by (apply Z.div_pos; lia).
  assert (Hr : num ≤ q * mult < num + mult) by nia.
  assert (Hleast : ∀ r', (mult | r') → num ≤ r' → q * mult ≤ r').
  { intros r' [k ->] Hk. assert (q - 1 < k) by nia. nia. }
  exists (q * mult).
  assert (Hval : (if decide (bits < 32) then wrap_int (q * mult)
                  else wrap bits (q * mult)) = q * mult).
  { case_decide as Hb.
    - assert (num + mult - 1 < 2 ^ 31) by by eapply narrow_below_int.
      apply wrap_int_small. lia.
    - apply wrap_small. lia. }
  rewrite Hval. split_and!; try (done || lia).
  - by exists q.
  - intros Hdiv. specialize (Hleast num Hdiv). lia.
Qed.

Lemma ROUND_UP_is_least_multiple_witness :
  ∃ r, ROUND_UP_TO_NEXT_MULTIPLE 32 1000 256 = Some r ∧ unsigned 32 r ∧
       (256 | r) ∧ 1000 ≤ r < 1000 + 256 ∧
       (∀ r', (256 | r') → 1000 ≤ r' → r ≤ r') ∧
       ((256 | 1000) → r = 1000).
Proof.
  apply (ROUND_UP_is_least_multiple 32 1000 256); unfold unsigned; lia.
Defined.

(** ** Exporting to text files *)

Lemma append_cons a s t : String a s +:+ t = String a (s +:+ t).
Proof. done. Qed.

Lemma append_nil_r s : s +:+ "" = s.
Proof. induction s as [|a s IH]; [done|]. by rewrite append_cons, IH. Qed.

Lemma append_assoc s t u : (s +:+ t) +:+ u = s +:+ t +:+ u.
Proof. induction s as [|a s IH]; [done|]. by rewrite !append_cons, IH. Qed.

Lemma occurs_app a s t : occurs a (s +:+ t) ↔ occurs a s ∨ occurs a t.
Proof.
  induction s as [|b s IH]; [simpl; tauto|].
  rewrite append_cons. simpl. tauto.
Qed.

(** A field ends at the first separator. *)
Lemma field_split a s1 s2 r1 r2 :
  ¬ occurs a s1 → ¬ occurs a s2 →
  s1 +:+ String a r1 = s2 +:+ String a r2 → s1 = s2 ∧ r1 = r2.
Proof.
  revert s2. induction s1 as [|b s1 IH]; intros [|b' s2] H1 H2 E.
  - by injection E.
  - rewrite append_cons in E. injection E as <- _. destruct H2. by left.
  - rewrite append_cons in E. injection E as -> _. destruct H1. by left.
  - rewrite !append_cons in E. injection E as -> E.
    destruct (IH s2) as [-> ->]; [| |done|done].
    + intros ?. apply H1. by right.
    + intros ?. apply H2. by right.
Qed.

(** A number is printed with digits and at most a minus sign. *)
Lemma pretty_N_go_occurs a x s :
  occurs a (pretty_N_go x s) → occurs a s ∨ ∃ d, a = pretty_N_char d.
Proof.
  revert s. induction (N.lt_wf_0 x) as [x _ IH]; intros s.
  assert (x = 0 ∨ 0 < x)%N as [->|Hx] by lia; [by left|].
  rewrite pretty_N_go_step by done.
  intros [[->|?]|?]%IH; [by right; eexists|by left|by right|].
  by apply N.div_lt.
Qed.

Lemma pretty_Z_occurs a (z : Z) :
  occurs a (pretty z) → a = "-"%char ∨ ∃ d, a = pretty_N_char d.
Proof.
  assert (HN : ∀ x : N, occurs a (pretty x) → ∃ d, a = pretty_N_char d).
  { intros x. unfold pretty, pretty_N. case_decide.
    - intros [->|[]]. by exists 0%N.
    - by intros [[]|?]%pretty_N_go_occurs. }
  unfold pretty, pretty_Z. destruct z as [|p|p].
  - intros [->|[]]. right. by exists 0%N.
  - intros ?. right. by apply (HN (N.pos p)).
  - intros [->|?]; [by left|]. right. by apply (HN (N.pos p)).
Qed.

Lemma pretty_Z_no_newline (z : Z) : ¬ occurs "010" (pretty z).
Proof.
  intros [?|[d Hd]]%pretty_Z_occurs; [done|].
  unfold pretty_N_char in Hd. by repeat case_match.
Qed.

Lemma pretty_Z_no_space (z : Z) : ¬ occurs " " (pretty z).
Proof.
  intros [?|[d Hd]]%pretty_Z_occurs; [done|].
  unfold pretty_N_char in Hd. by repeat case_match.
Qed.

(** Lines, each ended by a newline, can be told apart. *)
Lemma lines_inj {A} (line : A → string) (l1 l2 : list A) :
  (∀ x, ¬ occurs "010" (line x)) →
  foldr (λ x s, line x +:+ newline +:+ s) "" l1
    = foldr (λ x s, line x +:+ newline +:+ s) "" l2 →
  line <$> l1 = line <$> l2.
Proof.
  intros Hline. revert l2.
  induction l1 as [|x1 l1 IH]; intros [|x2 l2]; cbn [foldr]; [done| | |].
  - by destruct (line x2).
  - by destruct (line x1).
  - intros [E1 E2]%field_split; [|done..].
    rewrite !fmap_cons. f_equal; [done|by apply IH].
Qed.

Lemma foldl_lines {A} (line : A → string) (l : list A) acc :
  foldl (λ file x, file +:+ line x) acc l
    = acc +:+ foldr (λ x s, line x +:+ s) "" l.
Proof.
  revert acc. induction l as [|x l IH]; intros acc; simpl.
  - by rewrite append_nil_r.
  - by rewrite IH, append_assoc.
Qed.

(** The loop of lines 41-43 reads every element and nothing else. *)
Lemma save_permutation_loop h pre l acc :
  h = pre ++ l →
  forM (λ file k, v ← load APermute h k; Ok (file +:+ pretty v +:+ newline))
       acc (seqZ (Z.of_nat (length pre)) (Z.of_nat (length l)))
    = Ok (acc +:+ foldr (λ v s, pretty v +:+ newline +:+ s) "" l).
Proof.
  revert pre acc. induction l as [|x l IH]; intros pre acc ->.
  - simpl. by rewrite append_nil_r.
  - rewrite seqZ_cons by (simpl; lia). cbn [forM].
    rewrite load_inb by (unfold inb; rewrite length_app; simpl; lia).
    assert (rd (pre ++ x :: l) (Z.of_nat (length pre)) = x) as ->.
    { unfold rd. rewrite Nat2Z.id.
      by rewrite lookup_total_app_r, Nat.sub_diag by lia. }
    simpl.
    replace (Z.succ (Z.of_nat (length pre)))
      with (Z.of_nat (length (pre ++ [x])))
      by (rewrite length_app; simpl; lia).
    replace (Z.pred (Z.of_nat (S (length l))))
      with (Z.of_nat (length l)) by lia.
    rewrite (IH (pre ++ [x])) by (by rewrite <- app_assoc).
    by rewrite !append_assoc.
Qed.

Lemma save_permutation_text h f w :
  writable w f = true →
  save_permutation h f w
    = Ok (close f (foldr (λ v s, pretty v +:+ newline +:+ s) "" h) w).
Proof.
  intros Hw. unfold save_permutation. rewrite Hw.
  by rewrite (save_permutation_loop h [] h "" eq_refl
                : forM _ "" (seqZ 0 _) = _).
Qed.

(** X13. [save_permutation] loses nothing on a file that keeps what it is
    sent: when such a file can be opened the call returns and leaves a text
    in it, and two calls (on any such paths, in any environments) leave the
    same text only for the same vector.  The condition on the file is
    needed: the function does not check the stream, and a file that keeps
    nothing, such as /dev/null, ends the same for every vector. *)
Theorem save_permutation_lossless h1 h2 f1 f2 w1 w2 :
  writable w1 f1 = true → writable w2 f2 = true →
  keeps w1 f1 → keeps w2 f2 →
  is_Some (written f1 (save_permutation h1 f1 w1)) ∧
  (written f1 (save_permutation h1 f1 w1)
     = written f2 (save_permutation h2 f2 w2) → h1 = h2).
Proof.
  intros H1 H2 K1 K2. rewrite !save_permutation_text by done. simpl.
  rewrite !lookup_insert_eq, K1, K2. split; [done|]. intros [= E].
  apply lines_inj in E; [|apply pretty_Z_no_newline].
  revert E. apply (inj (fmap pretty)).
Qed.

Lemma save_permutation_lossless_witness :
  is_Some (written "perm.txt" (save_permutation [2; 0; 3; 1] "perm.txt" scratch)) ∧
  (written "perm.txt" (save_permutation [2; 0; 3; 1] "perm.txt" scratch)
     = written "perm.txt" (save_permutation [2; 0; 3; 1] "perm.txt" scratch) →
   [2; 0; 3; 1] = [2; 0; 3; 1]).
Proof.
  apply (save_permutation_lossless [2; 0; 3; 1] [2; 0; 3; 1]
           "perm.txt" "perm.txt" scratch scratch);
    (reflexivity || (intros text; reflexivity)).
Defined.

(** A file that keeps nothing ends the same whatever the vector. *)
Lemma save_permutation_forgetful :
  written "/dev/null" (save_permutation [1; 0] "/dev/null" scratch)
    = written "/dev/null" (save_permutation [0; 1] "/dev/null" scratch).
Proof. reflexivity. Qed.

(** X14. [save_permutation] always returns, without reading outside
    [h_permute]; it changes no file but [filename]; when [filename] cannot
    be opened it changes no file at all and reports it with one message,
    and otherwise it reports nothing. *)
Theorem save_permutation_effect h f w :
  ∃ w', save_permutation h f w = Ok w' ∧ writable w' = writable w ∧
    (∀ g, g ≠ f → files w' !! g = files w !! g) ∧
    (if writable w f then errors w' = errors w ∧ is_Some (files w' !! f)
     else files w' = files w ∧
          errors w' = errors w ++ ["Error opening file: " +:+ f]).
Proof.
  destruct (writable w f) eqn:Hw.
  - rewrite save_permutation_text by done. eexists. split; [done|]. simpl.
    split_and!; [done| |done|by rewrite lookup_insert_eq].
    intros g Hg. by rewrite lookup_insert_ne.
  - unfold save_permutation. rewrite Hw. eexists. split; [done|]. by simpl.
Qed.

Lemma foldl_concat {A B} (f : B → A → B) (ls : list (list A)) acc :
  foldl (λ acc l, foldl f acc l) acc ls = foldl f acc (concat ls).
Proof.
  revert acc. induction ls as [|l ls IH]; intros acc; [done|].
  simpl. by rewrite foldl_app, IH.
Qed.

Lemma save_sparse_mat_text {V} `{Pretty V} (mat : list (list (entry V)))
    f base w :
  writable w f = true →
  save_sparse_mat mat f base w
    = close f (foldr (λ it s,
                 (pretty (row it + base) +:+ space
                    +:+ pretty (col it + base) +:+ space
                    +:+ pretty (value it) +:+ newline) +:+ s) ""
                 (concat mat)) w.
Proof.
  intros Hw. unfold save_sparse_mat. rewrite Hw. f_equal.
  rewrite (foldl_concat (λ file it,
    file +:+ pretty (row it + base) +:+ space
         +:+ pretty (col it + base) +:+ space
         +:+ pretty (value it) +:+ newline)).
  by rewrite (foldl_lines (λ it,
    pretty (row it + base) +:+ space
      +:+ pretty (col it + base) +:+ space
      +:+ pretty (value it) +:+ newline)).
Qed.

Lemma entries_inj {V} `{Pretty V} base (l1 l2 : list (entry V)) :
  (∀ v : V, ¬ occurs "010" (pretty v)) →
  foldr (λ it s,
      (pretty (row it + base) +:+ space
         +:+ pretty (col it + base) +:+ space
         +:+ pretty (value it) +:+ newline) +:+ s) "" l1
  = foldr (λ it s,
      (pretty (row it + base) +:+ space
         +:+ pretty (col it + base) +:+ space
         +:+ pretty (value it) +:+ newline) +:+ s) "" l2 →
  (λ it, (row it, col it, pretty (value it))) <$> l1
  = (λ it, (row it, col it, pretty (value it))) <$> l2.
Proof.
  intros Hv. revert l2.
  induction l1 as [|x1 l1 IH]; intros [|x2 l2]; cbn [foldr]; [done| | |].
  - rewrite !append_assoc. by destruct (pretty (row x2 + base)).
  - rewrite !append_assoc. by destruct (pretty (row x1 + base)).
  - rewrite !append_assoc.
    intros [Er E]%field_split; [|apply pretty_Z_no_space..].
    apply field_split in E as [Ec E]; [|apply pretty_Z_no_space..].
    apply field_split in E as [Ev E]; [|apply Hv..].
    apply (inj pretty) in Er, Ec.
    rewrite !fmap_cons. f_equal; [|by apply IH].
    assert (row x1 = row x2) as -> by lia.
    assert (col x1 = col x2) as -> by lia. by rewrite Ev.
Qed.

(** X15. [save_sparse_mat] loses no position and no printed value on a
    file that keeps what it is sent: if printed values have no line break,
    two calls with the same [base] (on any such paths that can be opened, in
    any environments) leave the same text only for matrices that list the
    same rows, columns and printed values in the same order.  The function
    does not check the stream, so nothing of the kind holds for a file that
    does not keep what it is sent. *)
Theorem save_sparse_mat_lossless {V} `{Pretty V}
    (m1 m2 : list (list (entry V))) f1 f2 base w1 w2 :
  (∀ v : V, ¬ occurs "010" (pretty v)) →
  writable w1 f1 = true → writable w2 f2 = true →
  keeps w1 f1 → keeps w2 f2 →
  files (save_sparse_mat m1 f1 base w1) !! f1
    = files (save_sparse_mat m2 f2 base w2) !! f2 →
  listing m1 = listing m2.
Proof.
  intros Hv H1 H2 K1 K2. rewrite !save_sparse_mat_text by done. simpl.
  rewrite !lookup_insert_eq, K1, K2. intros [= E].
  by apply (entries_inj base).
Qed.

Lemma save_sparse_mat_lossless_witness :
  listing arrow4_values = listing arrow4_values.
Proof.
  apply (save_sparse_mat_lossless arrow4_values arrow4_values
           "L.txt" "L.txt" 1 scratch scratch);
    [apply pretty_Z_no_newline|reflexivity|reflexivity
    |intros text; reflexivity|intros text; reflexivity|reflexivity].
Defined.
